(** * baymag: Mg/Ca ensemble prediction and deep-time seawater correction

    A shallow embedding of [baymag/modelparams/core.py] and
    [baymag/predict.py].

    Numbers.  The program computes on binary64 floats held in numpy arrays.
    Here a number is an exact rational ([Q]): rounding, infinities and NaN are
    idealised away, and every statement below is about shapes, indices,
    failures and exact arithmetic.  [np.exp] and the Gaussian sampler
    [np.random.normal] are not rational functions; they are parameters of the
    development.

    Arrays.  An [ndarray] is a shape and a row-major (C order) buffer, as in
    numpy.  Every array operation the program uses is written out with its
    broadcasting rule and with the exception numpy raises when it fails. *)

From Stdlib Require Import String Ascii.
From Stdlib Require Import List Bool Arith ZArith QArith Qround Lia Lqa Permutation.
From Stdlib Require Import Sorted.
Import ListNotations.
Open Scope string_scope.
Open Scope list_scope.
Open Scope nat_scope.

(* ================================================================= *)
(** ** Python exceptions and fallible results *)

(** The exception classes the embedded code can raise.  [get_draws] fails
    through an [assert] statement (with its message) or through a dict lookup;
    numpy raises [IndexError] for an index out of bounds, [ValueError] for
    operands that cannot be broadcast together or an argument out of its
    domain, and [AxisError] for an axis the array does not have; Python
    raises [ZeroDivisionError] for a zero scalar taken to a negative
    power. *)
Inductive exn : Type :=
| AssertionError (msg : string)
| KeyError (key : string)
| IndexError
| ValueError
| AxisError
| ZeroDivisionError.

(** The name of the Python class of an exception. *)
Definition exn_class (e : exn) : string :=
  match e with
  | AssertionError _ => "AssertionError"
  | KeyError _ => "KeyError"
  | IndexError => "IndexError"
  | ValueError => "ValueError"
  | AxisError => "AxisError"
  | ZeroDivisionError => "ZeroDivisionError"
  end.

Inductive result (A : Type) : Type :=
| Ok (a : A)
| Raise (e : exn).
Arguments Ok {A} a.
Arguments Raise {A} e.

Definition bind {A B : Type} (r : result A) (k : A -> result B) : result B :=
  match r with
  | Ok a => k a
  | Raise e => Raise e
  end.

Notation "x <- r ;; k" := (bind r (fun x => k))
  (at level 61, r at next level, right associativity).
Notation "' p <- r ;; k" := (bind r (fun p => k))
  (at level 61, p pattern, r at next level, right associativity).

Definition raises {A : Type} (r : result A) (cls : string) : Prop :=
  exists e, r = Raise e /\ exn_class e = cls.

Definition returns {A : Type} (r : result A) : Prop :=
  exists a, r = Ok a.

(* ================================================================= *)
(** ** numpy arrays *)

Record ndarray : Type := mk_ndarray {
  shape : list nat;
  data : list Q
}.

(** Number of elements of a shape. *)
Definition prod (sh : list nat) : nat := fold_right Nat.mul 1 sh.

(** [np.size] *)
Definition size (a : ndarray) : nat := prod (shape a).

(** An array is well formed when its buffer has one entry per index. *)
Definition wf (a : ndarray) : Prop := length (data a) = size a.

(** All the multi-indices of a shape, in row-major order. *)
Fixpoint all_indices (sh : list nat) : list (list nat) :=
  match sh with
  | [] => [[]]
  | n :: r => flat_map (fun i => map (cons i) (all_indices r)) (seq 0 n)
  end.

(** Position in the buffer of a multi-index. *)
Fixpoint ravel (sh idx : list nat) : nat :=
  match sh, idx with
  | _ :: r, i :: ir => i * prod r + ravel r ir
  | _, _ => 0
  end.

(** [in_range sh idx]: [idx] is a valid multi-index of [sh]. *)
Fixpoint in_rangeb (sh idx : list nat) : bool :=
  match sh, idx with
  | [], [] => true
  | n :: r, i :: ir => (i <? n) && in_rangeb r ir
  | _, _ => false
  end.

Definition in_range (sh idx : list nat) : Prop := in_rangeb sh idx = true.

(** Element access. *)
Definition get (a : ndarray) (idx : list nat) : Q :=
  nth (ravel (shape a) idx) (data a) 0%Q.

(** An array given by its shape and its entry at each index. *)
Definition build (sh : list nat) (f : list nat -> Q) : ndarray :=
  mk_ndarray sh (map f (all_indices sh)).

(** A Python scalar seen as a 0-d array. *)
Definition scalar (x : Q) : ndarray := mk_ndarray [] [x].

(** A 1-d array from a list. *)
Definition array1 (l : list Q) : ndarray := mk_ndarray [length l] l.

(** A 2-d array from its rows, [m] columns each. *)
Definition array2 (m : nat) (rows : list (list Q)) : ndarray :=
  mk_ndarray [length rows; m] (concat rows).

(** Row [i] of a 2-d array as a list. *)
Definition row (a : ndarray) (i : nat) : list Q :=
  map (fun j => get a [i; j]) (seq 0 (nth 1 (shape a) 0)).

(** Elementwise map, [ufunc(a)] *)
Definition map_array (f : Q -> Q) (a : ndarray) : ndarray :=
  mk_ndarray (shape a) (map f (data a)).

(** [np.atleast_1d]: a 0-d array becomes a 1-d array of length one. *)
Definition atleast_1d (a : ndarray) : ndarray :=
  match shape a with
  | [] => mk_ndarray [1] (data a)
  | _ => a
  end.

(** [a[:, np.newaxis]]: a new axis of length one in second position.  A 0-d
    array has no first axis to slice. *)
Definition newaxis1 (a : ndarray) : result ndarray :=
  match shape a with
  | [] => Raise IndexError
  | n :: r => Ok (mk_ndarray (n :: 1 :: r) (data a))
  end.

(** [a[:, k]] for an integer [k]: column [k] of the second axis. *)
Definition take_col (a : ndarray) (k : nat) : result ndarray :=
  match shape a with
  | n :: c :: r =>
      if k <? c
      then Ok (build (n :: r)
                 (fun idx => match idx with
                             | i :: ir => get a (i :: k :: ir)
                             | [] => 0%Q
                             end))
      else Raise IndexError
  | _ => Raise IndexError
  end.

(** [a[:, idx]] where [idx] is [None] (that is [np.newaxis]) or an integer. *)
Definition index_col (a : ndarray) (idx : option nat) : result ndarray :=
  match idx with
  | None => newaxis1 a
  | Some k => take_col a k
  end.

(** The position a Python integer index [t] denotes along an axis of length
    [n]: negative indices count from the end; [None] when out of bounds. *)
Definition normalize_index (n : nat) (t : Z) : option nat :=
  let t' := if (t <? 0)%Z then (t + Z.of_nat n)%Z else t in
  if ((0 <=? t') && (t' <? Z.of_nat n))%Z then Some (Z.to_nat t') else None.

(** [a[t, :]] for a Python integer [t]. *)
Definition take_row (a : ndarray) (t : Z) : result ndarray :=
  match shape a with
  | n :: c :: r =>
      match normalize_index n t with
      | Some k => Ok (build (c :: r) (fun idx => get a (k :: idx)))
      | None => Raise IndexError
      end
  | _ => Raise IndexError
  end.

(** [np.transpose], [a.T]: the axes reversed. *)
Definition transpose (a : ndarray) : ndarray :=
  build (rev (shape a)) (fun idx => get a (rev idx)).

(** [np.tile(a, n)] for an integer [n]: the last axis repeated [n] times (a
    0-d array is first promoted to one axis). *)
Definition tile (a : ndarray) (n : nat) : ndarray :=
  match rev (shape a) with
  | [] => build [n] (fun _ => get a [])
  | l :: r =>
      build (rev (l * n :: r))
        (fun idx => match rev idx with
                    | j :: ir => get a (rev (j mod l :: ir))
                    | [] => 0%Q
                    end)
  end.

(** Broadcasting of two shapes, both given last axis first. *)
Fixpoint broadcast_rev (s1 s2 : list nat) : option (list nat) :=
  match s1, s2 with
  | [], s => Some s
  | s, [] => Some s
  | x :: r1, y :: r2 =>
      match broadcast_rev r1 r2 with
      | None => None
      | Some r =>
          if x =? y then Some (x :: r)
          else if x =? 1 then Some (y :: r)
          else if y =? 1 then Some (x :: r)
          else None
      end
  end.

(** [np.broadcast_shapes] *)
Definition broadcast_shapes (s1 s2 : list nat) : option (list nat) :=
  option_map (@rev nat) (broadcast_rev (rev s1) (rev s2)).

(** The index of an operand of shape [s] that the index [idx] of the broadcast
    result reads: the trailing axes of [idx], with 0 along axes of length one. *)
Definition bindex (s idx : list nat) : list nat :=
  map (fun di => if fst di =? 1 then 0 else snd di)
      (combine s (skipn (length idx - length s) idx)).

(** A binary ufunc: [a + b], [a * b], [a - b], [np.divide(a, b)]. *)
Definition ufunc2 (op : Q -> Q -> Q) (a b : ndarray) : result ndarray :=
  match broadcast_shapes (shape a) (shape b) with
  | None => Raise ValueError
  | Some sh =>
      Ok (build sh (fun idx => op (get a (bindex (shape a) idx))
                                  (get b (bindex (shape b) idx))))
  end.

(** An in-place binary ufunc, [a += b]: the output operand is [a], so the
    broadcast shape must be the shape of [a]. *)
Definition ufunc2_inplace (op : Q -> Q -> Q) (a b : ndarray) : result ndarray :=
  match broadcast_shapes (shape a) (shape b) with
  | None => Raise ValueError
  | Some sh =>
      if list_eq_dec Nat.eq_dec sh (shape a)
      then Ok (build sh (fun idx => op (get a idx)
                                       (get b (bindex (shape b) idx))))
      else Raise ValueError
  end.

Definition add := ufunc2 Qplus.
Definition sub := ufunc2 Qminus.
Definition mul := ufunc2 Qmult.
Definition divide := ufunc2 Qdiv.
Definition iadd := ufunc2_inplace Qplus.

(* ================================================================= *)
(** ** Python helpers *)

(** A dict literal, as its items in insertion order. *)
Definition dict (V : Type) : Type := list (string * V).

(** [d.get(k)] *)
Fixpoint dict_get {V : Type} (d : dict V) (k : string) : option V :=
  match d with
  | [] => None
  | (k', v) :: r => if String.eqb k k' then Some v else dict_get r k
  end.

(** [list(d.keys())] *)
Definition keys {V : Type} (d : dict V) : list string := map fst d.

(** [k in d.keys()] *)
Definition in_keys {V : Type} (k : string) (d : dict V) : bool :=
  existsb (String.eqb k) (keys d).

(** [d[k]] *)
Definition getitem {V : Type} (d : dict V) (k : string) : result V :=
  match dict_get d k with
  | Some v => Ok v
  | None => Raise (KeyError k)
  end.

(** The double-quote character, as a string. *)
Definition dquote : string := String (ascii_of_nat 34) EmptyString.

(** [repr] of a list of strings none of which holds a quote:
    ['a', 'b', 'c']. *)
Fixpoint join (sep : string) (l : list string) : string :=
  match l with
  | [] => EmptyString
  | [x] => x
  | x :: r => x ++ sep ++ join sep r
  end.

Definition repr_str (s : string) : string := "'" ++ s ++ "'".

Definition repr_list (l : list string) : string :=
  "[" ++ join ", " (map repr_str l) ++ "]".

(** [int(x)] for a float [x]: truncation towards zero. *)
Definition int (x : Q) : Z := Z.quot (Qnum x) (Zpos (Qden x)).

(** [s1] occurs in [s2]. *)
Fixpoint substringb (s1 s2 : string) : bool :=
  String.prefix s1 s2 ||
  match s2 with
  | EmptyString => false
  | String _ r => substringb s1 r
  end.

(* ================================================================= *)
(** ** baymag/modelparams/core.py *)

(** A [.mat] resource as [get_matlab_resource] returns it: a dict of arrays. *)
Definition matfile : Type := dict ndarray.

(** The seven arrays [get_draws] returns, in order:
    alpha, beta_temp, beta_salinity, beta_omega, beta_ph, beta_clean, sigma. *)
Definition draws_t : Type :=
  (ndarray * ndarray * ndarray * ndarray * ndarray * ndarray * ndarray)%type.

(** The statements of [get_draws] that copy the seven arrays out of the
    resource [draws], the intercept and the deviation sliced by [idx]. *)
Definition copy_draws (draws : matfile) (idx : option nat) : result draws_t :=
  beta_temp <- getitem draws "betaT" ;;
  beta_salinity <- getitem draws "betaS" ;;
  beta_omega <- getitem draws "betaO" ;;
  beta_clean <- getitem draws "betaC" ;;
  beta_ph <- getitem draws "betaP" ;;
  sigma0 <- getitem draws "sigma" ;;
  sigma <- index_col sigma0 idx ;;
  alpha0 <- getitem draws "alpha" ;;
  alpha <- index_col alpha0 idx ;;
  Ok (alpha, beta_temp, beta_salinity, beta_omega, beta_ph, beta_clean, sigma).

Section ModelParams.

(** The bundled resources, loaded when the module is imported. *)
Variables POOLED_PARAMS POOLEDSEA_PARAMS SPP_PARAMS MGSW_SMOOTH : matfile.

Definition get_mgsw_smooth : result ndarray :=
  getitem MGSW_SMOOTH "mg_smooth".

Definition draws_map : dict (matfile * option nat) :=
  [ ("all", (POOLED_PARAMS, None));
    ("all_sea", (POOLEDSEA_PARAMS, None));
    ("ruber", (SPP_PARAMS, Some 0));
    ("bulloides", (SPP_PARAMS, Some 1));
    ("sacculifer", (SPP_PARAMS, Some 2));
    ("pachy", (SPP_PARAMS, Some 3)) ].

Definition foram_map : dict string :=
  [ ("G. bulloides", "bulloides");
    ("N. pachyderma sinistral", "pachy");
    ("N. incompta", "pachy");
    ("G. ruber pink", "ruber");
    ("G. ruber white", "ruber");
    ("G. ruber", "ruber");
    ("G. sacculifer", "sacculifer") ].

(** [foram_map.get(species, str(species))] *)
Definition normalize (species : string) : string :=
  match dict_get foram_map species with
  | Some s => s
  | None => species
  end.

(** The message of the [assert] in [get_draws]. *)
Definition assert_msg (species_old : string) : string :=
  dquote ++ species_old ++ dquote ++ " must be one of draws_map "
    ++ repr_list (keys draws_map).

Definition get_draws (species : string) : result draws_t :=
  let species_old := species in
  let species := normalize species in
  if negb (in_keys species draws_map)
  then Raise (AssertionError (assert_msg species_old))
  else
    '(draws, idx) <- getitem draws_map species ;;
    copy_draws draws idx.

End ModelParams.

(* ================================================================= *)
(** ** numpy.percentile *)

Fixpoint insert (x : Q) (l : list Q) : list Q :=
  match l with
  | [] => [x]
  | y :: r => if Qle_bool x y then x :: l else y :: insert x r
  end.

(** Ascending sort. *)
Fixpoint sort (l : list Q) : list Q :=
  match l with
  | [] => []
  | x :: r => insert x (sort r)
  end.

(** [np.around] to an integer: halves go to the even neighbour. *)
Definition around (v : Q) : Z :=
  let f := Qfloor v in
  let r := (v - inject_Z f)%Q in
  match (r ?= 1 # 2)%Q with
  | Lt => f
  | Gt => (f + 1)%Z
  | Eq => if Z.even f then f else (f + 1)%Z
  end.

(** numpy's interpolation rules for a percentile that falls between two
    ranks. *)
Definition interpolations : list string :=
  ["linear"; "lower"; "higher"; "midpoint"; "nearest"].

(** The [q]-th percentile of the values [l] (not empty) under the rule
    [interpolation].  The rank of the percentile among the [m] sorted values
    is the virtual index [q / 100 * (m - 1)]. *)
Definition percentile1 (interpolation : string) (l : list Q) (q : Q) : Q :=
  let s := sort l in
  let v := (q / 100 * inject_Z (Z.of_nat (length l - 1)))%Q in
  let at_ (z : Z) := nth (Z.to_nat z) s 0%Q in
  let lo := at_ (Qfloor v) in
  let hi := at_ (Qceiling v) in
  if String.eqb interpolation "nearest" then at_ (around v)
  else if String.eqb interpolation "lower" then lo
  else if String.eqb interpolation "higher" then hi
  else if String.eqb interpolation "midpoint" then ((lo + hi) / 2)%Q
  else (lo + (hi - lo) * (v - inject_Z (Qfloor v)))%Q.

(** The percentile argument: a float or a sequence of floats. *)
Inductive qarg : Type :=
| QScalar (q : Q)
| QSeq (qs : list Q).

Definition qvalues (q : qarg) : list Q :=
  match q with
  | QScalar x => [x]
  | QSeq l => l
  end.

(** [np.percentile(a, q, axis=1, interpolation=...)]: the percentiles of
    [a[i, :, ...]], first axis indexed by the percentile when [q] is a
    sequence. *)
Definition np_percentile (a : ndarray) (q : qarg) (interpolation : string)
  : result ndarray :=
  if negb (forallb (fun x => Qle_bool 0 x && Qle_bool x 100) (qvalues q))
  then Raise ValueError
  else
    match shape a with
    | n :: m :: r =>
        if negb (existsb (String.eqb interpolation) interpolations)
        then Raise ValueError
        else if m =? 0 then Raise IndexError
        else
          let lane (i : nat) (ir : list nat) :=
            map (fun j => get a (i :: j :: ir)) (seq 0 m) in
          let pct (x : Q) (i : nat) (ir : list nat) :=
            percentile1 interpolation (lane i ir) x in
          match q with
          | QScalar x =>
              Ok (build (n :: r)
                    (fun idx => match idx with
                                | i :: ir => pct x i ir
                                | [] => 0%Q
                                end))
          | QSeq qs =>
              Ok (build (length qs :: n :: r)
                    (fun idx => match idx with
                                | k :: i :: ir => pct (nth k qs 0%Q) i ir
                                | _ => 0%Q
                                end))
          end
    | _ => Raise AxisError
    end.

(* ================================================================= *)
(** ** baymag/predict.py *)

(** [Prediction], an [attr.s] class. *)
Record Prediction : Type := mk_Prediction {
  ensemble : ndarray;
  spp : string
}.

(** [MgCaPrediction(Prediction)] adds nothing to its base class. *)
Definition MgCaPrediction : Type := Prediction.

(** [Prediction.percentile(self, q=None, interpolation='nearest')] *)
Definition percentile (self : Prediction) (q : option qarg)
    (interpolation : string) : result ndarray :=
  let q := match q with
           | None => QSeq [5%Q; 50%Q; 95%Q]
           | Some q => q
           end in
  perc <- np_percentile (ensemble self) q interpolation ;;
  Ok (transpose perc).

(** A Python scalar (held as a 0-d array) that is zero. *)
Definition is_zero_scalar (a : ndarray) : bool :=
  match shape a with
  | [] => existsb (fun x => Qeq_bool x 0) (data a)
  | _ => false
  end.

(** [a ** -2] on the argument as passed: a Python number or a float array,
    the two forms the docstring of [predict_mgca] gives for [omega].  Python
    refuses to take the number zero to a negative power; numpy raises a
    float array entry by entry and does not fail (a zero entry becomes
    [inf], which the rational numbers used here do not hold: the results
    on the value of the predictor ask for [nonzero_entries]). *)
Definition pow_neg2 (a : ndarray) : result ndarray :=
  if is_zero_scalar a then Raise ZeroDivisionError
  else Ok (map_array (fun x => Qpower x (-2)) a).

Section Predict.

(** The smoothing curve resource, read through [get_mgsw_smooth]. *)
Variable MGSW_SMOOTH : matfile.

(** The state of numpy's process-wide generator; one Gaussian variate of
    given mean and standard deviation drawn from it; [np.exp]. *)
Variable rng : Type.
Variable normal : rng -> Q -> Q -> Q * rng.
Variable exp : Q -> Q.

Fixpoint draw_all (ps : list (Q * Q)) (g : rng) : list Q * rng :=
  match ps with
  | [] => ([], g)
  | (loc, scale) :: r =>
      let '(x, g1) := normal g loc scale in
      let '(xs, g2) := draw_all r g1 in
      (x :: xs, g2)
  end.

(** [np.random.normal(loc, scale)]: one variate per entry of the broadcast
    of [loc] and [scale], drawn in row-major order; a negative standard
    deviation is refused. *)
Definition random_normal (loc scale : ndarray) (g : rng)
  : result (ndarray * rng) :=
  if existsb (fun s => negb (Qle_bool 0 s)) (data scale)
  then Raise ValueError
  else
    match broadcast_shapes (shape loc) (shape scale) with
    | None => Raise ValueError
    | Some sh =>
        let ps := map (fun idx => (get loc (bindex (shape loc) idx),
                                   get scale (bindex (shape scale) idx)))
                      (all_indices sh) in
        let '(xs, g') := draw_all ps g in
        Ok (mk_ndarray sh xs, g')
    end.

(** The locals [mu] and [np.transpose(np.tile(sigma, nlen))] of
    [predict_mgca] when it reaches the sampling at its last statement but
    one. *)
Definition predict_mgca_mu (seatemp cleaning salinity ph omega : ndarray)
    (spp : string) (drawsfun : string -> result draws_t)
  : result (ndarray * ndarray) :=
  let seatemp := atleast_1d seatemp in
  let cleaning := atleast_1d cleaning in
  let salinity := atleast_1d salinity in
  let ph := atleast_1d ph in
  let nlen := size seatemp in
  omega <- pow_neg2 omega ;;
  let omega := atleast_1d omega in
  '(alpha, beta_temp, beta_salinity, beta_omega, beta_ph, beta_clean, sigma)
     <- drawsfun spp ;;
  cleaning' <- newaxis1 cleaning ;;
  bc <- mul beta_clean cleaning' ;;
  clean_term <- sub (scalar 1) bc ;;
  let alphaadj := tile alpha nlen in
  seatemp' <- newaxis1 seatemp ;;
  bt <- mul beta_temp seatemp' ;;
  mu <- add (transpose alphaadj) bt ;;
  omega' <- newaxis1 omega ;;
  bo <- mul beta_omega omega' ;;
  mu <- add mu bo ;;
  salinity' <- newaxis1 salinity ;;
  bs <- mul beta_salinity salinity' ;;
  mu <- add mu bs ;;
  mu <- add mu clean_term ;;
  mu <- (if negb (String.eqb spp "pachy")
         then ph' <- newaxis1 ph ;;
              bp <- mul beta_ph ph' ;;
              iadd mu bp
         else Ok mu) ;;
  Ok (mu, transpose (tile sigma nlen)).

Definition predict_mgca (seatemp cleaning salinity ph omega : ndarray)
    (spp : string) (drawsfun : string -> result draws_t) (g : rng)
  : result (MgCaPrediction * rng) :=
  '(mu, scale) <- predict_mgca_mu seatemp cleaning salinity ph omega spp
                    drawsfun ;;
  '(sample, g') <- random_normal mu scale g ;;
  let mgca := map_array exp sample in
  Ok (mk_Prediction mgca spp, g').

(** [sw_correction(mgcaprediction, age, drawsfun=None)] for a float [age].
    [drawsfun] is [None] or a function returning an array of draws. *)
Definition sw_correction (mgcaprediction : MgCaPrediction) (age : Q)
    (drawsfun : option (unit -> result ndarray)) : result MgCaPrediction :=
  mgsw_smooth <- get_mgsw_smooth MGSW_SMOOTH ;;
  let t := int (age * 2) in
  row_t <- take_row mgsw_smooth t ;;
  row_0 <- take_row mgsw_smooth 0 ;;
  mgsw <- divide row_t row_0 ;;
  ens <- mul (ensemble mgcaprediction) mgsw ;;
  Ok (mk_Prediction ens (spp mgcaprediction)).

End Predict.

(* ================================================================= *)
(** ** The species vocabulary and the shape of the resources *)

(** The six canonical species identifiers. *)
Definition canonical : list string :=
  ["all"; "all_sea"; "ruber"; "bulloides"; "sacculifer"; "pachy"].

(** The seven legacy species names. *)
Definition legacy_aliases : list string :=
  ["G. bulloides"; "N. pachyderma sinistral"; "N. incompta"; "G. ruber pink";
   "G. ruber white"; "G. ruber"; "G. sacculifer"].

Definition vocabulary : list string := canonical ++ legacy_aliases.

(** The resource [f] holds under [k] an array of shape [sh]. *)
Definition has_array (f : matfile) (k : string) (sh : list nat) : Prop :=
  exists a, dict_get f k = Some a /\ shape a = sh /\ wf a.

(** A pooled calibration: every parameter is a vector of [m] draws. *)
Definition pooled_store (m : nat) (f : matfile) : Prop :=
  has_array f "betaT" [m] /\ has_array f "betaS" [m] /\
  has_array f "betaO" [m] /\ has_array f "betaC" [m] /\
  has_array f "betaP" [m] /\ has_array f "sigma" [m] /\
  has_array f "alpha" [m].

(** The hierarchical calibration: the slopes are vectors of [m] draws, the
    intercept and the residual deviation have one column per species. *)
Definition species_store (m k : nat) (f : matfile) : Prop :=
  has_array f "betaT" [m] /\ has_array f "betaS" [m] /\
  has_array f "betaO" [m] /\ has_array f "betaC" [m] /\
  has_array f "betaP" [m] /\ has_array f "sigma" [m; k] /\
  has_array f "alpha" [m; k] /\ 4 <= k.

(** The draw count of an array of draws: the length of its first axis. *)
Definition draw_count (a : ndarray) : option nat := hd_error (shape a).

(** The seven arrays of a draw set as a list. *)
Definition draws_list (d : draws_t) : list ndarray :=
  let '(alpha, beta_temp, beta_salinity, beta_omega, beta_ph, beta_clean,
        sigma) := d in
  [alpha; beta_temp; beta_salinity; beta_omega; beta_ph; beta_clean; sigma].

(** The shapes of a draw set: [sa] for the intercept and the deviation, [sb]
    for the five slopes. *)
Definition draws_shaped (d : draws_t) (sa sb : list nat) : Prop :=
  let '(alpha, beta_temp, beta_salinity, beta_omega, beta_ph, beta_clean,
        sigma) := d in
  shape alpha = sa /\ shape sigma = sa /\
  shape beta_temp = sb /\ shape beta_salinity = sb /\
  shape beta_omega = sb /\ shape beta_ph = sb /\ shape beta_clean = sb.

(* ================================================================= *)
(** ** Observation counts *)

(** The lengths [lens] broadcast to the common observation count [n]: each is
    [n] or 1. *)
Definition common_count (n : nat) (lens : list nat) : Prop :=
  Forall (fun l => l = n \/ l = 1) lens.

(** The length of a covariate once coerced by [np.atleast_1d], for a scalar
    or a 1-d array. *)
Definition covariate_length (x : ndarray) (n : nat) : Prop :=
  shape (atleast_1d x) = [n].

(** No entry of the buffer is zero. *)
Definition nonzero_entries (a : ndarray) : Prop :=
  Forall (fun x => ~ (x == 0)%Q) (data a).

(** Broadcasting of two axis lengths [x] and [y] into [z]. *)
Definition axis_broadcast (x y z : nat) : Prop :=
  (x = z \/ x = 1) /\ (y = z \/ y = 1) /\ (z = x \/ z = y).

(** The linear predictor of observation [i] and draw [j] without its pH
    term, from the five arrays of draws it reads and the covariates as
    [np.atleast_1d] coerces them. *)
Definition mu_base (alpha beta_temp beta_omega beta_salinity beta_clean
    seatemp omega salinity cleaning : ndarray) (i j : nat) : Q :=
  (get alpha [j; 0%nat]
   + get beta_temp [j] * get (atleast_1d seatemp) [i]
   + get beta_omega [j] * (get (atleast_1d omega) [i]) ^ (-2)
   + get beta_salinity [j] * get (atleast_1d salinity) [i]
   + (1 - get beta_clean [j] * get (atleast_1d cleaning) [i]))%Q.

(* ================================================================= *)
(** ** Worked data *)

(** A synthetic smoothing curve of three half-Ma steps and two draws. *)
Definition curve3 : matfile :=
  [("mg_smooth", array2 2 [[10; 10]; [9; 11]; [8; 12]]%Q)].

(** One observation, two draws. *)
Definition ensemble100 : MgCaPrediction :=
  mk_Prediction (array2 2 [[100; 100]]%Q) "all".

(** A pooled calibration of two draws. *)
Definition pooled2 : matfile :=
  [("betaT", array1 [1 # 10; 2 # 10]); ("betaS", array1 [1 # 100; 2 # 100]);
   ("betaO", array1 [3; 4]); ("betaC", array1 [1 # 2; 1 # 4]);
   ("betaP", array1 [5; 6]); ("sigma", array1 [1; 2]);
   ("alpha", array1 [7; 8])]%Q.

(** A hierarchical calibration of two draws and four species. *)
Definition species2 : matfile :=
  [("betaT", array1 [1 # 10; 2 # 10]); ("betaS", array1 [1 # 100; 2 # 100]);
   ("betaO", array1 [3; 4]); ("betaC", array1 [1 # 2; 1 # 4]);
   ("betaP", array1 [5; 6]);
   ("sigma", array2 4 [[1; 2; 3; 4]; [5; 6; 7; 8]]);
   ("alpha", array2 4 [[1; 2; 3; 4]; [5; 6; 7; 8]])]%Q.

(** Covariates of two observations, and a pH series of three. *)
Definition seatemp2 : ndarray := array1 [20; 21]%Q.
Definition cleaning2 : ndarray := array1 [1; 0]%Q.
Definition salinity2 : ndarray := array1 [35; 34]%Q.
Definition omega2 : ndarray := array1 [5; 4]%Q.
Definition ph2 : ndarray := array1 [8; 81 # 10]%Q.
Definition ph3 : ndarray := array1 [8; 81 # 10; 79 # 10]%Q.

(* ================================================================= *)
(** ** The draws of the seawater model *)

(** [a[:, ::2]]: every second column, from column 0. *)
Definition slice_cols_step2 (a : ndarray) : result ndarray :=
  match shape a with
  | n :: c :: r =>
      Ok (build (n :: Nat.div2 (c + 1) :: r)
            (fun idx => match idx with
                        | i :: j :: ir => get a (i :: 2 * j :: ir)
                        | _ => 0%Q
                        end))
  | _ => Raise IndexError
  end.

(** [a[:, :k]] for [k >= 0]: the first [k] columns, or all of them when
    there are fewer. *)
Definition slice_cols_upto (a : ndarray) (k : nat) : result ndarray :=
  match shape a with
  | n :: c :: r => Ok (build (n :: Nat.min k c :: r) (fun idx => get a idx))
  | _ => Raise IndexError
  end.

(** [get_sw_draws()], on the resource [MGSW_POST]:
    [np.array(MGSW_POST['beta_draws'][:, ::2][:, :1000])]. *)
Definition get_sw_draws (MGSW_POST : matfile) : result ndarray :=
  beta_draws <- getitem MGSW_POST "beta_draws" ;;
  thinned <- slice_cols_step2 beta_draws ;;
  slice_cols_upto thinned 1000.

(* ================================================================= *)
(** ** The content of the calibration resources *)

(** The resource [f] holds the five slopes [bt], [bs], [bo], [bc], [bp]
    under their keys, each a vector of [m] draws. *)
Definition has_slopes (f : matfile) (m : nat)
    (bt bs bo bc bp : ndarray) : Prop :=
  dict_get f "betaT" = Some bt /\ dict_get f "betaS" = Some bs /\
  dict_get f "betaO" = Some bo /\ dict_get f "betaC" = Some bc /\
  dict_get f "betaP" = Some bp /\
  shape bt = [m] /\ shape bs = [m] /\ shape bo = [m] /\
  shape bc = [m] /\ shape bp = [m].

(** The resource [f] holds the intercept [alpha0] and the deviation
    [sigma0], both of shape [sh]. *)
Definition has_intercept (f : matfile) (sh : list nat)
    (alpha0 sigma0 : ndarray) : Prop :=
  dict_get f "alpha" = Some alpha0 /\ dict_get f "sigma" = Some sigma0 /\
  shape alpha0 = sh /\ shape sigma0 = sh.

(** Every entry of the buffer is non-negative. *)
Definition nonneg (a : ndarray) : Prop := Forall (fun x => (0 <= x)%Q) (data a).

(** A hierarchical calibration of two draws that knows three species only. *)
Definition species3cols : matfile :=
  [("betaT", array1 [1 # 10; 2 # 10]); ("betaS", array1 [1 # 100; 2 # 100]);
   ("betaO", array1 [3; 4]); ("betaC", array1 [1 # 2; 1 # 4]);
   ("betaP", array1 [5; 6]);
   ("sigma", array2 3 [[1; 2; 3]; [5; 6; 7]]);
   ("alpha", array2 3 [[1; 2; 3]; [5; 6; 7]])]%Q.

(** Draws of the seawater model: two rows of five columns. *)
Definition post5 : matfile :=
  [("beta_draws", array2 5 [[1; 2; 3; 4; 5]; [6; 7; 8; 9; 10]]%Q)].

(** Three observations of four draws. *)
Definition ensemble34 : Prediction :=
  mk_Prediction
    (array2 4 [[4; 1; 3; 2]; [10; 30; 20; 40]; [7; 7; 5; 6]]%Q) "all".

(** The means and standard deviations of the Gaussian draws behind an
    ensemble of [n] observations by [m] draws, in the row-major order in
    which they are drawn. *)
Definition sampling_plan (n m : nat) (loc : nat -> nat -> Q)
    (scale : nat -> Q) : list (Q * Q) :=
  flat_map (fun i => map (fun j => (loc i j, scale j)) (seq 0 m)) (seq 0 n).

(* ================================================================= *)
(** * Properties *)

(** ** Indices and buffers *)

Lemma length_all_indices (sh : list nat) :
  length (all_indices sh) = prod sh.
Proof.
  induction sh as [|n r IH]; simpl; [reflexivity|].
  generalize 0 as s.
  induction n as [|n IHn]; intros s; simpl; [reflexivity|].
  rewrite length_app, length_map, IH, IHn. reflexivity.
Qed.

Lemma nth_flat_map_seq {A : Type} (F : nat -> list A) (P n s i k : nat) (d : A) :
  (forall x, length (F x) = P) ->
  i < n -> k < P ->
  nth (i * P + k) (flat_map F (seq s n)) d = nth k (F (s + i)) d.
Proof.
  intros HF. revert s i.
  induction n as [|n IH]; intros s i Hi Hk; [lia|].
  simpl. destruct i as [|i].
  - simpl. rewrite app_nth1 by (rewrite HF; exact Hk).
    f_equal. f_equal. lia.
  - rewrite app_nth2 by (rewrite HF; simpl; lia).
    rewrite HF.
    replace (S i * P + k - P) with (i * P + k) by (simpl; lia).
    rewrite IH by lia. f_equal. f_equal. lia.
Qed.

Lemma in_range_cons (n i : nat) (r ir : list nat) :
  in_range (n :: r) (i :: ir) <-> i < n /\ in_range r ir.
Proof.
  unfold in_range. simpl. rewrite andb_true_iff, Nat.ltb_lt. reflexivity.
Qed.

Lemma ravel_lt (sh idx : list nat) :
  in_range sh idx -> ravel sh idx < prod sh.
Proof.
  revert idx. induction sh as [|n r IH]; intros [|i ir] H;
    try discriminate H; simpl; [lia|].
  apply in_range_cons in H. destruct H as [Hi Hr].
  specialize (IH _ Hr). fold (prod r). nia.
Qed.

Lemma nth_all_indices (sh idx d : list nat) :
  in_range sh idx -> nth (ravel sh idx) (all_indices sh) d = idx.
Proof.
  revert idx d. induction sh as [|n r IH]; intros [|i ir] d H;
    try discriminate H; [reflexivity|].
  apply in_range_cons in H. destruct H as [Hi Hr].
  simpl.
  rewrite (nth_flat_map_seq _ (prod r)); auto using ravel_lt.
  - simpl.
    rewrite (nth_indep _ d (i :: d))
      by (rewrite length_map, length_all_indices; auto using ravel_lt).
    rewrite (map_nth (cons i)). f_equal. apply IH, Hr.
  - intros x. rewrite length_map. apply length_all_indices.
Qed.

(** The entry of a built array at a valid index is the given entry. *)
Lemma get_build (sh : list nat) (f : list nat -> Q) (idx : list nat) :
  in_range sh idx -> get (build sh f) idx = f idx.
Proof.
  intros H. unfold get, build. simpl.
  rewrite (nth_indep _ 0%Q (f []))
    by (rewrite length_map, length_all_indices; auto using ravel_lt).
  rewrite map_nth. f_equal. apply nth_all_indices, H.
Qed.

Lemma wf_build (sh : list nat) (f : list nat -> Q) : wf (build sh f).
Proof.
  unfold wf, size, build. simpl.
  rewrite length_map. apply length_all_indices.
Qed.

(* ================================================================= *)
(** ** Draw resolution *)

Lemma substringb_app_r (s a b : string) :
  substringb s b = true -> substringb s (a ++ b) = true.
Proof.
  intros H. induction a as [|c a IH]; simpl; [exact H|].
  rewrite IH. apply orb_true_r.
Qed.

Section DrawResolution.

Variables POOLED_PARAMS POOLEDSEA_PARAMS SPP_PARAMS : matfile.

Local Abbreviation resolve :=
  (get_draws POOLED_PARAMS POOLEDSEA_PARAMS SPP_PARAMS).
Local Abbreviation dmap :=
  (draws_map POOLED_PARAMS POOLEDSEA_PARAMS SPP_PARAMS).
Local Abbreviation message :=
  (assert_msg POOLED_PARAMS POOLEDSEA_PARAMS SPP_PARAMS).

Lemma keys_draws_map : keys dmap = canonical.
Proof. reflexivity. Qed.

Lemma in_keys_canonical (s : string) :
  in_keys s dmap = true <-> In s canonical.
Proof.
  unfold in_keys. rewrite keys_draws_map, existsb_exists. split.
  - intros [x [Hx Heq]]. apply String.eqb_eq in Heq. subst x. exact Hx.
  - intros H. exists s. split; [exact H | apply String.eqb_refl].
Qed.

(** The message of the assertion names every canonical identifier,
    whatever the rejected token. *)
Lemma assert_msg_enumerates (species_old : string) :
  Forall (fun c => substringb (repr_str c) (message species_old) = true)
         canonical.
Proof.
  unfold assert_msg.
  repeat constructor;
    do 4 apply substringb_app_r; vm_compute; reflexivity.
Qed.

(** C4, as the code has it.  A species token that alias normalization does
    not send to one of the six canonical identifiers makes [get_draws] fail:
    its [assert] statement raises an [AssertionError], and the message of
    that error quotes each of the six canonical identifiers. *)
Theorem get_draws_unknown_species (species : string) :
  ~ In (normalize species) canonical ->
  exists msg,
    resolve species = Raise (AssertionError msg) /\
    Forall (fun c => substringb (repr_str c) msg = true) canonical.
Proof.
  intros Hnot. exists (message species). split.
  - unfold get_draws.
    destruct (in_keys (normalize species) dmap) eqn:E; [|reflexivity].
    apply in_keys_canonical in E. contradiction.
  - apply assert_msg_enumerates.
Qed.

(** Every alias of [foram_map] resolves as the canonical identifier it is
    mapped to. *)
Lemma get_draws_alias (alias c : string) :
  dict_get foram_map alias = Some c -> resolve alias = resolve c.
Proof.
  unfold foram_map, dict_get.
  repeat match goal with
         | |- context [String.eqb alias ?k] =>
             destruct (String.eqb_spec alias k) as [->|_]
         end;
    intros H; inversion H; subst; reflexivity.
Qed.

Lemma getitem_has_array (f : matfile) (k : string) (sh : list nat) :
  has_array f k sh ->
  exists a, getitem f k = Ok a /\ shape a = sh /\ wf a.
Proof.
  intros [a [Hget Hsh]]. exists a. unfold getitem. rewrite Hget. auto.
Qed.

Lemma copy_draws_pooled (m : nat) (f : matfile) :
  pooled_store m f ->
  exists d, copy_draws f None = Ok d /\ draws_shaped d [m; 1] [m].
Proof.
  intros (HT & HS & HO & HC & HP & Hs & Ha).
  apply getitem_has_array in HT, HS, HO, HC, HP, Hs, Ha.
  destruct HT as (bt & ET & ST & _), HS as (bs & ES & SS & _),
    HO as (bo & EO & SO & _), HC as (bc & EC & SC & _),
    HP as (bp & EP & SP & _), Hs as (sg & Es & Ss & _),
    Ha as (al & Ea & Sa & _).
  unfold copy_draws. rewrite ET, ES, EO, EC, EP, Es, Ea. simpl.
  unfold newaxis1. rewrite Ss, Sa. simpl.
  eexists. split; [reflexivity|]. simpl. auto 10.
Qed.

Lemma copy_draws_species (m k i : nat) (f : matfile) :
  species_store m k f -> i < 4 ->
  exists d, copy_draws f (Some i) = Ok d /\ draws_shaped d [m] [m].
Proof.
  intros (HT & HS & HO & HC & HP & Hs & Ha & Hk) Hi.
  apply getitem_has_array in HT, HS, HO, HC, HP, Hs, Ha.
  destruct HT as (bt & ET & ST & _), HS as (bs & ES & SS & _),
    HO as (bo & EO & SO & _), HC as (bc & EC & SC & _),
    HP as (bp & EP & SP & _), Hs as (sg & Es & Ss & _),
    Ha as (al & Ea & Sa & _).
  unfold copy_draws. rewrite ET, ES, EO, EC, EP, Es, Ea. simpl.
  unfold take_col. rewrite Ss, Sa.
  assert (Hlt : (i <? k) = true) by (apply Nat.ltb_lt; lia).
  rewrite Hlt. simpl.
  eexists. split; [reflexivity|]. simpl. auto 10.
Qed.

Lemma draws_shaped_count (d : draws_t) (m : nat) (r : list nat) :
  draws_shaped d (m :: r) [m] ->
  Forall (fun a => draw_count a = Some m) (draws_list d).
Proof.
  destruct d as [[[[[[al bt] bs] bo] bp] bc] sg].
  unfold draws_shaped, draws_list, draw_count. cbn.
  intros (H1 & H2 & H3 & H4 & H5 & H6 & H7).
  repeat constructor;
    match goal with
    | H : shape ?a = _ |- hd_error (shape ?a) = _ => rewrite H; reflexivity
    end.
Qed.

(** The draw set of a token of the vocabulary, by the resource it reads. *)
Lemma get_draws_vocabulary (mp ms1 ms k : nat) (tok : string) :
  pooled_store mp POOLED_PARAMS ->
  pooled_store ms1 POOLEDSEA_PARAMS ->
  species_store ms k SPP_PARAMS ->
  In tok vocabulary ->
  exists d m sa,
    resolve tok = Ok d /\ draws_shaped d sa [m] /\
    (sa = [m] \/ sa = [m; 1]).
Proof.
  intros HP HPS HS Hin.
  destruct (copy_draws_pooled _ _ HP) as (dP & EP & SP).
  destruct (copy_draws_pooled _ _ HPS) as (dPS & EPS & SPS).
  destruct (copy_draws_species _ _ 0 _ HS ltac:(lia)) as (d0 & E0 & S0).
  destruct (copy_draws_species _ _ 1 _ HS ltac:(lia)) as (d1 & E1 & S1).
  destruct (copy_draws_species _ _ 2 _ HS ltac:(lia)) as (d2 & E2 & S2).
  destruct (copy_draws_species _ _ 3 _ HS ltac:(lia)) as (d3 & E3 & S3).
  unfold vocabulary, canonical, legacy_aliases in Hin. simpl in Hin.
  repeat destruct Hin as [<- | Hin]; try contradiction;
    match goal with
    | |- exists d m sa, get_draws _ _ _ ?t = _ /\ _ =>
        first
          [ change (resolve t) with (copy_draws POOLED_PARAMS None);
            exists dP, mp, [mp; 1]; auto
          | change (resolve t) with (copy_draws POOLEDSEA_PARAMS None);
            exists dPS, ms1, [ms1; 1]; auto
          | change (resolve t) with (copy_draws SPP_PARAMS (Some 0));
            exists d0, ms, [ms]; auto
          | change (resolve t) with (copy_draws SPP_PARAMS (Some 1));
            exists d1, ms, [ms]; auto
          | change (resolve t) with (copy_draws SPP_PARAMS (Some 2));
            exists d2, ms, [ms]; auto
          | change (resolve t) with (copy_draws SPP_PARAMS (Some 3));
            exists d3, ms, [ms]; auto ]
    end.
Qed.

(** C7.  On resources of the documented shapes, every token of the public
    vocabulary (six canonical identifiers, seven legacy aliases) resolves
    without raising, the seven arrays returned have one common draw count,
    and a legacy alias returns exactly what the canonical identifier it is
    mapped to returns. *)
Theorem get_draws_total_on_vocabulary (mp ms1 ms k : nat) :
  pooled_store mp POOLED_PARAMS ->
  pooled_store ms1 POOLEDSEA_PARAMS ->
  species_store ms k SPP_PARAMS ->
  (forall tok, In tok vocabulary ->
     exists d m, resolve tok = Ok d /\
                 Forall (fun a => draw_count a = Some m) (draws_list d)) /\
  (forall alias c, In alias legacy_aliases ->
     dict_get foram_map alias = Some c ->
     In c canonical /\ resolve alias = resolve c).
Proof.
  intros HP HPS HS. split.
  - intros tok Hin.
    destruct (get_draws_vocabulary _ _ _ _ _ HP HPS HS Hin)
      as (d & m & sa & E & Sh & [-> | ->]);
      exists d, m; (split; [exact E|]); eapply draws_shaped_count, Sh.
  - intros alias c Hin Hget. split; [|apply get_draws_alias, Hget].
    unfold legacy_aliases in Hin. simpl in Hin.
    repeat destruct Hin as [<- | Hin]; try contradiction;
      vm_compute in Hget; inversion Hget; subst; vm_compute; tauto.
Qed.

End DrawResolution.

Lemma get_draws_total_on_vocabulary_witness :
  (forall tok, In tok vocabulary ->
     exists d m, get_draws pooled2 pooled2 species2 tok = Ok d /\
                 Forall (fun a => draw_count a = Some m) (draws_list d)) /\
  (forall alias c, In alias legacy_aliases ->
     dict_get foram_map alias = Some c ->
     In c canonical /\
     get_draws pooled2 pooled2 species2 alias
     = get_draws pooled2 pooled2 species2 c).
Proof.
  apply (get_draws_total_on_vocabulary pooled2 pooled2 species2 2 2 2 4).
  - repeat split; eexists; (split; [reflexivity | split; reflexivity]).
  - repeat split; eexists; (split; [reflexivity | split; reflexivity]).
  - repeat split; try lia; eexists;
      (split; [reflexivity | split; reflexivity]).
Defined.

(* ================================================================= *)
(** ** Broadcasting *)

Lemma broadcast_shapes_refl (s : list nat) : broadcast_shapes s s = Some s.
Proof.
  unfold broadcast_shapes.
  assert (H : forall l, broadcast_rev l l = Some l).
  { induction l as [|x l IH]; simpl; [reflexivity|].
    rewrite IH, Nat.eqb_refl. reflexivity. }
  rewrite H. simpl. rewrite rev_involutive. reflexivity.
Qed.

Lemma broadcast_shapes_row (n m : nat) :
  broadcast_shapes [n; m] [m] = Some [n; m].
Proof.
  unfold broadcast_shapes. simpl. rewrite Nat.eqb_refl. reflexivity.
Qed.

Lemma ufunc2_ok (op : Q -> Q -> Q) (a b : ndarray) (sh : list nat) :
  broadcast_shapes (shape a) (shape b) = Some sh ->
  ufunc2 op a b =
  Ok (build sh (fun idx => op (get a (bindex (shape a) idx))
                              (get b (bindex (shape b) idx)))).
Proof. intros H. unfold ufunc2. rewrite H. reflexivity. Qed.

Lemma ufunc2_cases (op : Q -> Q -> Q) (a b : ndarray) :
  ufunc2 op a b = Raise ValueError \/ exists c, ufunc2 op a b = Ok c.
Proof.
  unfold ufunc2. destruct (broadcast_shapes (shape a) (shape b)); eauto.
Qed.

(** Along an axis of length [n] the broadcast index of [i < n] is [i]. *)
Lemma bindex_axis (n i : nat) : i < n -> (if n =? 1 then 0 else i) = i.
Proof. intros H. destruct (Nat.eqb_spec n 1); lia. Qed.

Lemma not_raises_Ok {A : Type} (a : A) (cls : string) : ~ raises (Ok a) cls.
Proof. intros [e [H _]]. discriminate H. Qed.

Lemma raises_Raise {A : Type} (e : exn) (cls : string) :
  raises (@Raise A e) cls <-> exn_class e = cls.
Proof.
  split.
  - intros [e' [H Hc]]. injection H as ->. exact Hc.
  - intros H. exists e. auto.
Qed.

(* ================================================================= *)
(** ** Seawater correction *)

Lemma int_floor (x : Q) : (0 <= x)%Q -> int x = Qfloor x.
Proof.
  destruct x as [n d]. unfold Qle, int, Qfloor. simpl. intros H.
  apply Z.quot_div_nonneg; lia.
Qed.

Lemma normalize_index_nonneg (n : nat) (t : Z) :
  (0 <= t < Z.of_nat n)%Z -> normalize_index n t = Some (Z.to_nat t).
Proof.
  intros H. unfold normalize_index.
  destruct (Z.ltb_spec t 0); [lia|].
  destruct (Z.leb_spec 0 t); [|lia].
  destruct (Z.ltb_spec t (Z.of_nat n)); [|lia].
  reflexivity.
Qed.

Lemma normalize_index_neg (n : nat) (t : Z) :
  (- Z.of_nat n <= t < 0)%Z ->
  normalize_index n t = Some (Z.to_nat (Z.of_nat n + t)).
Proof.
  intros H. unfold normalize_index.
  destruct (Z.ltb_spec t 0); [|lia].
  destruct (Z.leb_spec 0 (t + Z.of_nat n)); [|lia].
  destruct (Z.ltb_spec (t + Z.of_nat n) (Z.of_nat n)); [|lia].
  simpl. do 2 f_equal. lia.
Qed.

Lemma normalize_index_None (n : nat) (t : Z) :
  normalize_index n t = None <-> (t < - Z.of_nat n \/ Z.of_nat n <= t)%Z.
Proof.
  unfold normalize_index.
  destruct (Z.ltb_spec t 0);
    [destruct (Z.leb_spec 0 (t + Z.of_nat n));
     [destruct (Z.ltb_spec (t + Z.of_nat n) (Z.of_nat n))|]
    |destruct (Z.leb_spec 0 t);
     [destruct (Z.ltb_spec t (Z.of_nat n))|]];
    simpl; split; intros H'; try discriminate H'; try reflexivity; lia.
Qed.

Lemma normalize_index_lt (n k : nat) (t : Z) :
  normalize_index n t = Some k -> k < n.
Proof.
  unfold normalize_index.
  destruct (Z.ltb_spec t 0);
    [destruct (Z.leb_spec 0 (t + Z.of_nat n));
     [destruct (Z.ltb_spec (t + Z.of_nat n) (Z.of_nat n))|]
    |destruct (Z.leb_spec 0 t);
     [destruct (Z.ltb_spec t (Z.of_nat n))|]];
    simpl; intros H'; inversion H'; lia.
Qed.

Lemma take_row_ok (a : ndarray) (r c k : nat) (t : Z) :
  shape a = [r; c] -> normalize_index r t = Some k ->
  take_row a t = Ok (build [c] (fun idx => get a (k :: idx))).
Proof.
  intros Hs Ht. unfold take_row. rewrite Hs, Ht. reflexivity.
Qed.

Lemma take_row_out_of_bounds (a : ndarray) (r c : nat) (t : Z) :
  shape a = [r; c] -> normalize_index r t = None ->
  take_row a t = Raise IndexError.
Proof.
  intros Hs Ht. unfold take_row. rewrite Hs, Ht. reflexivity.
Qed.

Section SeawaterCorrection.

Variable MGSW_SMOOTH : matfile.
Variable curve : ndarray.
Variables r m : nat.
Hypothesis curve_loaded : dict_get MGSW_SMOOTH "mg_smooth" = Some curve.
Hypothesis curve_shape : shape curve = [r; m].

(** The correction when the row index is in bounds and the ensemble has one
    column per draw of the curve: row [k] of the curve over its row 0. *)
Lemma sw_correction_in_bounds (p : MgCaPrediction) (n k : nat) (age : Q)
    (f : option (unit -> result ndarray)) :
  shape (ensemble p) = [n; m] ->
  normalize_index r (int (age * 2)) = Some k ->
  exists out,
    sw_correction MGSW_SMOOTH p age f = Ok out /\
    spp out = spp p /\
    shape (ensemble out) = [n; m] /\
    forall i j, i < n -> j < m ->
      get (ensemble out) [i; j] =
      (get (ensemble p) [i; j] *
       (get curve [k; j] / get curve [0%nat; j]))%Q.
Proof.
  intros Hp Ht.
  assert (Hr : 0 < r) by (apply normalize_index_lt in Ht; lia).
  unfold sw_correction, get_mgsw_smooth, getitem.
  rewrite curve_loaded. simpl.
  rewrite (take_row_ok _ _ _ _ _ curve_shape Ht). simpl.
  rewrite (take_row_ok _ r m 0 0 curve_shape)
    by (apply (normalize_index_nonneg r 0); lia).
  simpl.
  unfold divide. rewrite (ufunc2_ok _ _ _ [m]) by apply broadcast_shapes_refl.
  simpl. unfold mul. rewrite (ufunc2_ok _ _ _ [n; m]).
  2:{ rewrite Hp. apply broadcast_shapes_row. }
  simpl. eexists. split; [reflexivity|]. simpl.
  split; [reflexivity|]. split; [reflexivity|].
  intros i j Hi Hj.
  assert (Hij : in_range [n; m] [i; j]).
  { apply in_range_cons. split; [exact Hi|].
    apply in_range_cons. split; [exact Hj|reflexivity]. }
  assert (Hj' : in_range [m] [j]).
  { apply in_range_cons. split; [exact Hj|reflexivity]. }
  rewrite get_build by exact Hij.
  rewrite Hp. unfold bindex. simpl.
  rewrite !bindex_axis by assumption.
  rewrite get_build by exact Hj'.
  unfold bindex. simpl. rewrite !bindex_axis by assumption.
  rewrite !get_build by exact Hj'. reflexivity.
Qed.

(** Whether the call fails on the row lookup, and with which exception. *)
Lemma sw_correction_IndexError (p : MgCaPrediction) (age : Q)
    (f : option (unit -> result ndarray)) :
  raises (sw_correction MGSW_SMOOTH p age f) "IndexError" <->
  normalize_index r (int (age * 2)) = None.
Proof.
  unfold sw_correction, get_mgsw_smooth, getitem.
  rewrite curve_loaded. simpl.
  destruct (normalize_index r (int (age * 2))) as [k|] eqn:Ht.
  - assert (Hr : 0 < r) by (apply normalize_index_lt in Ht; lia).
    rewrite (take_row_ok _ _ _ _ _ curve_shape Ht). simpl.
    rewrite (take_row_ok _ r m 0 0 curve_shape)
      by (apply (normalize_index_nonneg r 0); lia).
    simpl. unfold divide.
    rewrite (ufunc2_ok _ _ _ [m]) by apply broadcast_shapes_refl.
    simpl. split; [|discriminate].
    unfold mul.
    match goal with
    | |- raises (bind (ufunc2 ?op ?a ?b) _) _ -> _ =>
        destruct (ufunc2_cases op a b) as [E | [c E]]; rewrite E; simpl
    end.
    + intros H. apply raises_Raise in H. discriminate H.
    + intros H. apply not_raises_Ok in H. contradiction.
  - rewrite (take_row_out_of_bounds _ _ _ _ curve_shape Ht). simpl.
    split; [reflexivity|]. intros _. apply raises_Raise. reflexivity.
Qed.

End SeawaterCorrection.

Lemma Qmult_div_assoc (x a b : Q) : (x * (a / b) == x * a / b)%Q.
Proof. unfold Qdiv. ring. Qed.

(** C2.  For an ensemble of [n] observations by [m] draws, a curve of [m]
    draws and a non-negative age whose row index [floor (age * 2)] is within
    the curve, [sw_correction] returns an ensemble of the same shape and
    species whose entry [i, j] is
    [E[i, j] * curve[floor (age * 2), j] / curve[0, j]].  On the synthetic
    three-row curve, age 1.3 reads row 2 and turns [[100, 100]] into
    [[80, 120]]. *)
Theorem sw_correction_formula (MGSW_SMOOTH : matfile) (curve : ndarray)
    (r m n : nat) (p : MgCaPrediction) (age : Q)
    (f : option (unit -> result ndarray)) :
  dict_get MGSW_SMOOTH "mg_smooth" = Some curve ->
  shape curve = [r; m] ->
  shape (ensemble p) = [n; m] ->
  (0 <= age)%Q ->
  (Qfloor (age * 2) < Z.of_nat r)%Z ->
  (exists out,
     sw_correction MGSW_SMOOTH p age f = Ok out /\
     spp out = spp p /\
     shape (ensemble out) = [n; m] /\
     forall i j, i < n -> j < m ->
       (get (ensemble out) [i; j] ==
        get (ensemble p) [i; j] * get curve [Z.to_nat (Qfloor (age * 2)); j]
        / get curve [0%nat; j])%Q) /\
  (Qfloor ((13 # 10) * 2) = 2%Z /\
   exists out,
     sw_correction curve3 ensemble100 (13 # 10) None = Ok out /\
     shape (ensemble out) = [1; 2] /\
     Forall2 Qeq (data (ensemble out)) [80; 120]%Q).
Proof.
  intros Hload Hcurve Hp Hage Hin. split.
  - assert (H2 : (0 <= age * 2)%Q).
    { apply Qmult_le_0_compat; [exact Hage | discriminate]. }
    assert (Hfl : (0 <= Qfloor (age * 2))%Z).
    { change 0%Z with (Qfloor 0). apply Qfloor_resp_le, H2. }
    assert (Hidx : normalize_index r (int (age * 2))
                   = Some (Z.to_nat (Qfloor (age * 2)))).
    { rewrite (int_floor _ H2). apply normalize_index_nonneg. lia. }
    destruct (sw_correction_in_bounds MGSW_SMOOTH curve r m Hload Hcurve
                p n _ age f Hp Hidx) as (out & E & Hs & Hsh & Hget).
    exists out. repeat split; try assumption.
    intros i j Hi Hj. rewrite (Hget i j Hi Hj). apply Qmult_div_assoc.
  - split; [reflexivity|].
    eexists. split; [vm_compute; reflexivity|].
    split; [reflexivity|].
    repeat constructor; reflexivity.
Qed.

Lemma sw_correction_formula_witness :
  exists out,
    sw_correction curve3 ensemble100 (1 # 2) None = Ok out /\
    spp out = "all" /\
    shape (ensemble out) = [1; 2] /\
    forall i j, i < 1 -> j < 2 ->
      (get (ensemble out) [i; j] ==
       get (ensemble ensemble100) [i; j]
       * get (array2 2 [[10; 10]; [9; 11]; [8; 12]]) [1%nat; j]
       / get (array2 2 [[10; 10]; [9; 11]; [8; 12]]) [0%nat; j])%Q.
Proof.
  apply (proj1 (sw_correction_formula curve3
                  (array2 2 [[10; 10]; [9; 11]; [8; 12]]%Q) 3 2 1
                  ensemble100 (1 # 2) None
                  eq_refl eq_refl eq_refl
                  ltac:(discriminate) ltac:(vm_compute; reflexivity))).
Defined.

(** C8.  With age 0 the correction is the identity: when row 0 of the curve
    exists and none of its entries is zero, [sw_correction] returns an
    ensemble of the same shape and species equal entry by entry to its
    input, the ratio [curve[0, j] / curve[0, j]] being 1 for every draw. *)
Theorem sw_correction_age_zero (MGSW_SMOOTH : matfile) (curve : ndarray)
    (r m n : nat) (p : MgCaPrediction)
    (f : option (unit -> result ndarray)) :
  dict_get MGSW_SMOOTH "mg_smooth" = Some curve ->
  shape curve = [r; m] ->
  0 < r ->
  shape (ensemble p) = [n; m] ->
  (forall j, j < m -> ~ (get curve [0%nat; j] == 0)%Q) ->
  exists out,
    sw_correction MGSW_SMOOTH p 0 f = Ok out /\
    spp out = spp p /\
    shape (ensemble out) = shape (ensemble p) /\
    forall i j, i < n -> j < m ->
      (get curve [0%nat; j] / get curve [0%nat; j] == 1)%Q /\
      (get (ensemble out) [i; j] == get (ensemble p) [i; j])%Q.
Proof.
  intros Hload Hcurve Hr Hp Hnz.
  assert (Hidx : normalize_index r (int (0 * 2)) = Some 0).
  { apply (normalize_index_nonneg r 0). lia. }
  destruct (sw_correction_in_bounds MGSW_SMOOTH curve r m Hload Hcurve
              p n 0 0%Q f Hp Hidx) as (out & E & Hs & Hsh & Hget).
  exists out.
  split; [exact E|]. split; [exact Hs|]. split; [congruence|].
  intros i j Hi Hj. split.
  - field. apply Hnz, Hj.
  - rewrite (Hget i j Hi Hj). field. apply Hnz, Hj.
Qed.

Lemma sw_correction_age_zero_witness :
  exists out,
    sw_correction curve3 ensemble100 0 None = Ok out /\
    spp out = "all" /\
    shape (ensemble out) = [1; 2] /\
    forall i j, i < 1 -> j < 2 ->
      (get (array2 2 [[10; 10]; [9; 11]; [8; 12]]) [0%nat; j]
       / get (array2 2 [[10; 10]; [9; 11]; [8; 12]]) [0%nat; j] == 1)%Q /\
      (get (ensemble out) [i; j] == get (ensemble ensemble100) [i; j])%Q.
Proof.
  apply (sw_correction_age_zero curve3
           (array2 2 [[10; 10]; [9; 11]; [8; 12]]%Q) 3 2 1 ensemble100 None
           eq_refl eq_refl ltac:(lia) eq_refl).
  intros j Hj.
  destruct j as [|[|j]]; [discriminate | discriminate | lia].
Defined.

(** C5 as stated fails: with a negative age of one Ma the row index is -2,
    which numpy counts from the end of the three-row curve, and the call
    returns an ensemble instead of raising. *)
Lemma sw_correction_negative_age_returns :
  (-1 < 0)%Q /\
  (Qfloor (-1 * 2) < 0)%Z /\
  returns (sw_correction curve3 ensemble100 (-1) None) /\
  ~ raises (sw_correction curve3 ensemble100 (-1) None) "AgeOutOfRangeError".
Proof.
  split; [reflexivity|]. split; [reflexivity|].
  assert (E : exists out, sw_correction curve3 ensemble100 (-1) None = Ok out).
  { eexists. vm_compute. reflexivity. }
  split; [exact E|].
  destruct E as [out E]. rewrite E. apply not_raises_Ok.
Qed.

(** C5, as the code has it.  The row index is [int (age * 2)], the product
    truncated towards zero, and the lookup is numpy's: [sw_correction] raises
    [IndexError] exactly when that index is below minus the number of rows of
    the curve or above its last row index.  An index from minus the number
    of rows up to -1 counts from the end of the curve, and the call then
    returns the ensemble scaled by that row over row 0. *)
Theorem sw_correction_raises_IndexError (MGSW_SMOOTH : matfile)
    (curve : ndarray) (r m : nat) (p : MgCaPrediction) (age : Q)
    (f : option (unit -> result ndarray)) :
  dict_get MGSW_SMOOTH "mg_smooth" = Some curve ->
  shape curve = [r; m] ->
  (raises (sw_correction MGSW_SMOOTH p age f) "IndexError" <->
   (int (age * 2) < - Z.of_nat r \/ Z.of_nat r <= int (age * 2))%Z) /\
  (forall n,
     shape (ensemble p) = [n; m] ->
     (- Z.of_nat r <= int (age * 2) < 0)%Z ->
     exists out,
       sw_correction MGSW_SMOOTH p age f = Ok out /\
       forall i j, i < n -> j < m ->
         get (ensemble out) [i; j] =
         (get (ensemble p) [i; j] *
          (get curve [Z.to_nat (Z.of_nat r + int (age * 2)); j]
           / get curve [0%nat; j]))%Q).
Proof.
  intros Hload Hcurve. split.
  - rewrite (sw_correction_IndexError MGSW_SMOOTH curve r m Hload Hcurve).
    apply normalize_index_None.
  - intros n Hp Ht.
    destruct (sw_correction_in_bounds MGSW_SMOOTH curve r m Hload Hcurve
                p n _ age f Hp (normalize_index_neg r _ Ht))
      as (out & E & _ & _ & Hget).
    exists out. split; assumption.
Qed.

Lemma sw_correction_raises_IndexError_witness :
  (raises (sw_correction curve3 ensemble100 (3 # 2) None) "IndexError" <->
   (int ((3 # 2) * 2) < - Z.of_nat 3 \/ Z.of_nat 3 <= int ((3 # 2) * 2))%Z).
Proof.
  apply (proj1 (sw_correction_raises_IndexError curve3
                  (array2 2 [[10; 10]; [9; 11]; [8; 12]]%Q) 3 2
                  ensemble100 (3 # 2) None eq_refl eq_refl)).
Defined.

(** C10.  [sw_correction] never consults its [drawsfun] argument: whatever
    two values are passed for it, the results (ensemble and species tag, or
    exception) are equal. *)
Theorem sw_correction_ignores_drawsfun (MGSW_SMOOTH : matfile)
    (p : MgCaPrediction) (age : Q)
    (f g : option (unit -> result ndarray)) :
  sw_correction MGSW_SMOOTH p age f = sw_correction MGSW_SMOOTH p age g.
Proof. reflexivity. Qed.

(* ================================================================= *)
(** ** Draw resolution on an unknown species *)

Lemma not_canonical_menardii : ~ In (normalize "G. menardii") canonical.
Proof.
  vm_compute. intros H.
  repeat destruct H as [H | H]; try discriminate H; exact H.
Qed.

Lemma get_draws_unknown_species_witness :
  exists msg,
    get_draws [] [] [] "G. menardii" = Raise (AssertionError msg) /\
    Forall (fun c => substringb (repr_str c) msg = true) canonical.
Proof.
  apply (get_draws_unknown_species [] [] [] "G. menardii").
  vm_compute. intros H.
  repeat destruct H as [H | H]; try discriminate H; exact H.
Defined.

(** C4 as stated fails on the class of the exception: an unknown species is
    rejected by an [assert] statement, so the exception is an
    [AssertionError], not an [InvalidSpeciesError]. *)
Lemma get_draws_unknown_not_InvalidSpeciesError :
  ~ In (normalize "G. menardii") canonical /\
  raises (get_draws [] [] [] "G. menardii") "AssertionError" /\
  ~ raises (get_draws [] [] [] "G. menardii") "InvalidSpeciesError".
Proof.
  split; [exact not_canonical_menardii|].
  split.
  - eexists. split; [vm_compute; reflexivity | reflexivity].
  - intros [e [H Hc]]. vm_compute in H. injection H as <-. discriminate Hc.
Qed.

(* ================================================================= *)
(** ** Percentiles *)

Lemma insert_perm (x : Q) (l : list Q) : Permutation (x :: l) (insert x l).
Proof.
  induction l as [|y l IH]; simpl; [apply Permutation_refl|].
  destruct (Qle_bool x y); [apply Permutation_refl|].
  eapply perm_trans; [apply perm_swap|]. apply perm_skip, IH.
Qed.

Lemma sort_perm (l : list Q) : Permutation l (sort l).
Proof.
  induction l as [|x l IH]; simpl; [apply perm_nil|].
  eapply perm_trans; [apply perm_skip, IH | apply insert_perm].
Qed.

Lemma length_sort (l : list Q) : length (sort l) = length l.
Proof. symmetry. apply Permutation_length, sort_perm. Qed.

(** Rounding a rank between 0 and [N] gives a rank between 0 and [N]. *)
Lemma around_bounds (v : Q) (N : Z) :
  (0 <= v)%Q -> (v <= inject_Z N)%Q -> (0 <= around v <= N)%Z.
Proof.
  intros H0 HN.
  assert (Hf0 : (0 <= Qfloor v)%Z).
  { change 0%Z with (Qfloor 0). apply Qfloor_resp_le, H0. }
  assert (HfN : (Qfloor v <= N)%Z).
  { rewrite <- (Qfloor_Z N). apply Qfloor_resp_le, HN. }
  assert (Hfv : (inject_Z (Qfloor v) <= v)%Q) by apply Qfloor_le.
  unfold around.
  destruct (Qcompare_spec (v - inject_Z (Qfloor v)) (1 # 2)) as [E | L | G].
  - assert (Hlt : (Qfloor v < N)%Z).
    { rewrite Zlt_Qlt. lra. }
    destruct (Z.even (Qfloor v)); lia.
  - lia.
  - assert (Hlt : (Qfloor v < N)%Z).
    { rewrite Zlt_Qlt. lra. }
    lia.
Qed.

(** The virtual index of a percentile in [0, 100] lies within the ranks. *)
Lemma virtual_index_bounds (q : Q) (N : Z) :
  (0 <= N)%Z -> (0 <= q)%Q -> (q <= 100)%Q ->
  (0 <= q / 100 * inject_Z N)%Q /\ (q / 100 * inject_Z N <= inject_Z N)%Q.
Proof.
  intros HN H0 H100.
  assert (HNq : (0 <= inject_Z N)%Q).
  { change 0%Q with (inject_Z 0). rewrite <- Zle_Qle. exact HN. }
  assert (Hq0 : (0 <= q / 100)%Q).
  { apply Qle_shift_div_l; [reflexivity | lra]. }
  assert (Hq1 : (q / 100 <= 1)%Q).
  { apply Qle_shift_div_r; [reflexivity | lra]. }
  split.
  - apply Qmult_le_0_compat; assumption.
  - rewrite <- (Qmult_1_l (inject_Z N)) at 2.
    apply Qmult_le_compat_r; assumption.
Qed.

(** Under the rule "nearest" a percentile in [0, 100] of a non-empty list
    is one of its elements. *)
Lemma percentile1_nearest_In (l : list Q) (q : Q) :
  l <> [] -> (0 <= q)%Q -> (q <= 100)%Q ->
  In (percentile1 "nearest" l q) l.
Proof.
  intros Hne H0 H100.
  unfold percentile1. simpl String.eqb. cbv iota.
  assert (Hlen : 0 < length l) by (destruct l; [contradiction | simpl; lia]).
  set (N := Z.of_nat (length l - 1)).
  destruct (virtual_index_bounds q N ltac:(lia) H0 H100) as [Hv0 HvN].
  destruct (around_bounds _ N Hv0 HvN) as [Ha0 HaN].
  eapply Permutation_in; [apply Permutation_sym, sort_perm|].
  apply nth_In. rewrite length_sort. subst N. lia.
Qed.

Lemma in_range_2 (n m i j : nat) : i < n -> j < m -> in_range [n; m] [i; j].
Proof.
  intros Hi Hj. apply in_range_cons. split; [exact Hi|].
  apply in_range_cons. split; [exact Hj | reflexivity].
Qed.

(** C9.  For an ensemble of [n] observations by [m >= 1] draws and a list
    [qs] of percentiles in [0, 100], [percentile] under the rule "nearest"
    returns an array of [n] rows and one column per percentile whose entry
    [i, k] is one of the [m] ensemble members of observation [i]. *)
Theorem percentile_nearest_is_member (p : Prediction) (n m : nat)
    (qs : list Q) :
  shape (ensemble p) = [n; m] ->
  0 < m ->
  Forall (fun q => (0 <= q)%Q /\ (q <= 100)%Q) qs ->
  exists perc,
    percentile p (Some (QSeq qs)) "nearest" = Ok perc /\
    shape perc = [n; length qs] /\
    forall i k, i < n -> k < length qs ->
      In (get perc [i; k]) (row (ensemble p) i).
Proof.
  intros Hp Hm Hqs.
  unfold percentile, np_percentile. simpl qvalues.
  assert (Hrange :
    forallb (fun x => Qle_bool 0 x && Qle_bool x 100) qs = true).
  { apply forallb_forall. intros x Hx.
    rewrite Forall_forall in Hqs. destruct (Hqs x Hx) as [H0 H100].
    apply andb_true_iff. split; apply Qle_bool_iff; assumption. }
  rewrite Hrange, Hp. simpl negb. cbv iota.
  destruct (Nat.eqb_spec m 0) as [Hm0 | _]; [lia|].
  simpl bind.
  eexists. split; [reflexivity|].
  split; [reflexivity|].
  intros i k Hi Hk.
  unfold transpose. simpl shape. simpl rev.
  rewrite get_build by (apply in_range_2; assumption).
  simpl rev.
  rewrite get_build by (apply in_range_2; assumption).
  unfold row. rewrite Hp. simpl nth.
  rewrite Forall_forall in Hqs.
  destruct (Hqs (nth k qs 0%Q) (nth_In qs 0%Q Hk)) as [H0 H100].
  apply percentile1_nearest_In; try assumption.
  destruct m; [lia | discriminate].
Qed.

Lemma percentile_nearest_is_member_witness :
  exists perc,
    percentile ensemble100 (Some (QSeq [50%Q])) "nearest" = Ok perc /\
    shape perc = [1; 1] /\
    forall i k, i < 1 -> k < 1 ->
      In (get perc [i; k]) (row (ensemble ensemble100) i).
Proof.
  apply (percentile_nearest_is_member ensemble100 1 2 [50%Q]).
  - reflexivity.
  - lia.
  - repeat constructor; discriminate.
Defined.

(* ================================================================= *)
(** ** Shapes through the predictor *)

Lemma bind_Ok_inv {A B : Type} (r : result A) (k : A -> result B) (b : B) :
  bind r k = Ok b -> exists a, r = Ok a /\ k a = Ok b.
Proof. destruct r as [a|e]; simpl; [eauto | discriminate]. Qed.

Lemma ufunc2_inv (op : Q -> Q -> Q) (a b c : ndarray) :
  ufunc2 op a b = Ok c ->
  broadcast_shapes (shape a) (shape b) = Some (shape c).
Proof.
  unfold ufunc2. destruct (broadcast_shapes (shape a) (shape b));
    intros H; inversion H. reflexivity.
Qed.

Lemma ufunc2_inplace_inv (op : Q -> Q -> Q) (a b c : ndarray) :
  ufunc2_inplace op a b = Ok c ->
  broadcast_shapes (shape a) (shape b) = Some (shape a) /\ shape c = shape a.
Proof.
  unfold ufunc2_inplace.
  destruct (broadcast_shapes (shape a) (shape b)) as [sh|]; [|discriminate].
  destruct (list_eq_dec Nat.eq_dec sh (shape a)) as [->|_]; [|discriminate].
  intros H. inversion H. auto.
Qed.

Lemma ufunc2_inplace_cases (op : Q -> Q -> Q) (a b : ndarray) :
  ufunc2_inplace op a b = Raise ValueError \/
  exists c, ufunc2_inplace op a b = Ok c.
Proof.
  unfold ufunc2_inplace.
  destruct (broadcast_shapes (shape a) (shape b)) as [sh|]; auto.
  destruct (list_eq_dec Nat.eq_dec sh (shape a)); eauto.
Qed.

Lemma axis_broadcast_inv (x y : nat) (r : list nat) (z : list nat) :
  (if x =? y then Some (x :: r)
   else if x =? 1 then Some (y :: r)
   else if y =? 1 then Some (x :: r) else None) = Some z ->
  exists z1, z = z1 :: r /\ axis_broadcast x y z1.
Proof.
  unfold axis_broadcast.
  destruct (Nat.eqb_spec x y); [|destruct (Nat.eqb_spec x 1);
    [|destruct (Nat.eqb_spec y 1); [|discriminate]]];
    intros H; inversion H; eexists; (split; [reflexivity | lia]).
Qed.

Lemma broadcast_shapes_0 (s : list nat) : broadcast_shapes [] s = Some s.
Proof.
  unfold broadcast_shapes. simpl. rewrite rev_involutive. reflexivity.
Qed.

Lemma broadcast_shapes_12 (x y1 y2 : nat) (z : list nat) :
  broadcast_shapes [x] [y1; y2] = Some z ->
  exists z2, z = [y1; z2] /\ axis_broadcast x y2 z2.
Proof.
  unfold broadcast_shapes. simpl.
  intros H.
  destruct (if x =? y2 then Some [x; y1]
            else if x =? 1 then Some [y2; y1]
            else if y2 =? 1 then Some [x; y1] else None) as [w|] eqn:E;
    [|discriminate].
  apply axis_broadcast_inv in E. destruct E as (z2 & -> & Hax).
  simpl in H. inversion H. eauto.
Qed.

Lemma broadcast_shapes_22 (x1 x2 y1 y2 : nat) (z : list nat) :
  broadcast_shapes [x1; x2] [y1; y2] = Some z ->
  exists z1 z2, z = [z1; z2] /\
                axis_broadcast x1 y1 z1 /\ axis_broadcast x2 y2 z2.
Proof.
  unfold broadcast_shapes. simpl.
  destruct (if x1 =? y1 then Some [x1]
            else if x1 =? 1 then Some [y1]
            else if y1 =? 1 then Some [x1] else None) as [w|] eqn:E1;
    [|discriminate].
  apply axis_broadcast_inv in E1. destruct E1 as (z1 & -> & Hax1).
  intros H.
  destruct (if x2 =? y2 then Some [x2; z1]
            else if x2 =? 1 then Some [y2; z1]
            else if y2 =? 1 then Some [x2; z1] else None) as [w|] eqn:E2;
    [|discriminate].
  apply axis_broadcast_inv in E2. destruct E2 as (z2 & -> & Hax2).
  simpl in H. inversion H. eauto.
Qed.

Lemma atleast_1d_shape (x : ndarray) : shape (atleast_1d x) <> [].
Proof.
  unfold atleast_1d. destruct (shape x) eqn:E; simpl; [discriminate|].
  rewrite E. discriminate.
Qed.

Lemma newaxis1_ok (x : ndarray) (n : nat) (r : list nat) :
  shape x = n :: r -> newaxis1 x = Ok (mk_ndarray (n :: 1 :: r) (data x)).
Proof. intros H. unfold newaxis1. rewrite H. reflexivity. Qed.

Lemma newaxis1_atleast_1d (x : ndarray) :
  exists y, newaxis1 (atleast_1d x) = Ok y.
Proof.
  destruct (shape (atleast_1d x)) as [|n r] eqn:E.
  - exfalso. exact (atleast_1d_shape x E).
  - rewrite (newaxis1_ok _ _ _ E). eauto.
Qed.

Lemma atleast_1d_map_shape (f : Q -> Q) (x : ndarray) :
  shape (atleast_1d (map_array f x)) = shape (atleast_1d x).
Proof.
  unfold atleast_1d, map_array. simpl.
  destruct (shape x) eqn:E; simpl; [reflexivity | symmetry; exact E].
Qed.

Lemma shape_tile_transpose_1 (x : ndarray) (m n : nat) :
  shape x = [m] -> shape (transpose (tile x n)) = [m * n].
Proof. intros H. unfold transpose, tile. rewrite H. reflexivity. Qed.

Lemma shape_tile_transpose_2 (x : ndarray) (m k n : nat) :
  shape x = [m; k] -> shape (transpose (tile x n)) = [k * n; m].
Proof. intros H. unfold transpose, tile. rewrite H. reflexivity. Qed.

(** An argument without a zero entry is not the Python scalar zero. *)
Lemma nonzero_entries_defined (a : ndarray) :
  nonzero_entries a -> is_zero_scalar a = false.
Proof.
  unfold nonzero_entries, is_zero_scalar. intros H.
  destruct (shape a); [|reflexivity].
  induction H as [|x l Hx _ IH]; [reflexivity|].
  cbn [existsb]. rewrite IH, orb_false_r.
  destruct (Qeq_bool x 0) eqn:E; [|reflexivity].
  apply Qeq_bool_iff in E. contradiction.
Qed.

Lemma nonzero_entries_check (a : ndarray) :
  forallb (fun x => negb (Qeq_bool x 0)) (data a) = true ->
  nonzero_entries a.
Proof.
  unfold nonzero_entries. intros H. apply Forall_forall. intros x Hx.
  rewrite forallb_forall in H. specialize (H x Hx).
  intros E. apply Qeq_bool_iff in E. rewrite E in H. discriminate H.
Qed.

Lemma pow_neg2_defined (a : ndarray) :
  is_zero_scalar a = false ->
  pow_neg2 a = Ok (map_array (fun x => Qpower x (-2)) a).
Proof. intros H. unfold pow_neg2. rewrite H. reflexivity. Qed.

(** The Python scalar zero as [omega] stops [predict_mgca] at its line
    [omega = omega ** -2], before the draws are fetched and before any
    covariate is combined with another. *)
Lemma predict_mgca_mu_zero_scalar (seatemp cleaning salinity ph omega : ndarray)
    (spp : string) (drawsfun : string -> result draws_t) :
  is_zero_scalar omega = true ->
  predict_mgca_mu seatemp cleaning salinity ph omega spp drawsfun
  = Raise ZeroDivisionError.
Proof.
  intros H. unfold predict_mgca_mu, pow_neg2. rewrite H. reflexivity.
Qed.

Lemma predict_mgca_mu_Ok_defined (seatemp cleaning salinity ph omega : ndarray)
    (spp : string) (drawsfun : string -> result draws_t) (r : ndarray * ndarray) :
  predict_mgca_mu seatemp cleaning salinity ph omega spp drawsfun = Ok r ->
  is_zero_scalar omega = false.
Proof.
  destruct (is_zero_scalar omega) eqn:E; [|reflexivity].
  rewrite (predict_mgca_mu_zero_scalar _ _ _ _ _ _ _ E). discriminate.
Qed.

Section PredictShapes.

Variables seatemp cleaning salinity ph omega : ndarray.
Variables a c s p o : nat.
Hypothesis seatemp_length : covariate_length seatemp a.
Hypothesis cleaning_length : covariate_length cleaning c.
Hypothesis salinity_length : covariate_length salinity s.
Hypothesis ph_length : covariate_length ph p.
Hypothesis omega_length : covariate_length omega o.
Hypothesis omega_defined : is_zero_scalar omega = false.

Variable drawsfun : string -> result draws_t.
Variable spp : string.
Variable d : draws_t.
Variable m : nat.
Variable sa : list nat.
Hypothesis draws_ok : drawsfun spp = Ok d.
Hypothesis draws_shapes : draws_shaped d sa [m].
Hypothesis intercept_shape : sa = [m] \/ sa = [m; 1].

(** The lengths of the covariates the predictor of [spp] reads. *)
Local Abbreviation used_lengths :=
  ([a; c; s; o] ++ if String.eqb spp "pachy" then [] else [p]).

(** When the linear predictor is computed, the covariates it reads have a
    common observation count: the number of rows of [mu]. *)
Lemma predict_mgca_mu_Ok_common (mu scale : ndarray) :
  predict_mgca_mu seatemp cleaning salinity ph omega spp drawsfun
  = Ok (mu, scale) ->
  exists n r, shape mu = n :: r /\ common_count n used_lengths.
Proof.
  intros H0. generalize H0.
  unfold predict_mgca_mu.
  rewrite (pow_neg2_defined _ (predict_mgca_mu_Ok_defined _ _ _ _ _ _ _ _ H0)).
  clear H0. cbn [bind]. rewrite draws_ok.
  destruct d as [[[[[[al bt] bs] bo] bp] bc] sg].
  destruct draws_shapes as (Sal & Ssg & Sbt & Sbs & Sbo & Sbp & Sbc).
  cbn [bind].
  rewrite (newaxis1_ok _ _ _ cleaning_length).
  rewrite (newaxis1_ok _ _ _ seatemp_length).
  rewrite (newaxis1_ok _ _ _ salinity_length).
  rewrite (newaxis1_ok (atleast_1d (map_array _ omega)) o [])
    by (rewrite atleast_1d_map_shape; exact omega_length).
  rewrite (newaxis1_ok _ _ _ ph_length).
  cbn [bind].
  intros H.
  repeat match type of H with
         | bind _ _ = Ok _ =>
             let x := fresh "x" in
             let E := fresh "E" in
             apply bind_Ok_inv in H; destruct H as (x & E & H)
         end.
  injection H as <- _.
  assert (Hn : size (atleast_1d seatemp) = a * 1).
  { unfold size. rewrite seatemp_length. reflexivity. }
  apply ufunc2_inv in E, E0, E1, E2, E3, E4, E5, E6, E7.
  cbn [shape scalar] in E, E0, E1, E3, E5.
  rewrite Sbc in E. rewrite Sbt in E1. rewrite Sbo in E3. rewrite Sbs in E5.
  rewrite broadcast_shapes_0 in E0. injection E0 as E0.
  apply broadcast_shapes_12 in E, E1, E3, E5.
  destruct E as (zc & E & _), E1 as (za & E1 & _), E3 as (zo & E3 & _),
    E5 as (zs & E5 & _).
  rewrite E in E0. rewrite <- E0 in E7.
  rewrite E1 in E2. rewrite E3 in E4. rewrite E5 in E6.
  assert (S2 : exists w, shape x2 = [a; w]).
  { destruct intercept_shape as [-> | ->].
    - rewrite (shape_tile_transpose_1 _ _ _ Sal) in E2.
      apply broadcast_shapes_12 in E2. destruct E2 as (w & E2 & _). eauto.
    - rewrite (shape_tile_transpose_2 _ _ _ _ Sal), Hn in E2.
      apply broadcast_shapes_22 in E2.
      destruct E2 as (z1 & w & E2 & Hax & _).
      exists w. rewrite E2. f_equal. unfold axis_broadcast in Hax. lia. }
  destruct S2 as (w2 & S2). rewrite S2 in E4.
  apply broadcast_shapes_22 in E4. destruct E4 as (n4 & w4 & S4 & A4 & _).
  rewrite S4 in E6.
  apply broadcast_shapes_22 in E6. destruct E6 as (n6 & w6 & S6 & A6 & _).
  rewrite S6 in E7.
  apply broadcast_shapes_22 in E7. destruct E7 as (n7 & w7 & S7 & A7 & _).
  unfold axis_broadcast in A4, A6, A7.
  destruct (String.eqb spp "pachy"); cbn [negb] in E8.
  - injection E8 as <-. exists n7, [w7]. split; [exact S7|].
    unfold common_count. simpl.
    repeat (apply Forall_cons; [lia|]). apply Forall_nil.
  - apply bind_Ok_inv in E8. destruct E8 as (x9 & E9 & E8).
    apply ufunc2_inv in E9. cbn [shape] in E9. rewrite Sbp in E9.
    apply broadcast_shapes_12 in E9. destruct E9 as (zp & E9 & _).
    apply ufunc2_inplace_inv in E8. destruct E8 as (E8 & S8).
    rewrite E9, S7 in E8.
    apply broadcast_shapes_22 in E8. destruct E8 as (n8 & w8 & E8 & A8 & _).
    injection E8 as <- <-. unfold axis_broadcast in A8.
    exists n7, [w7]. split; [congruence|].
    unfold common_count. simpl.
    repeat (apply Forall_cons; [lia|]). apply Forall_nil.
Qed.

(** The arithmetic of the predictor fails only as numpy's broadcasting
    does. *)
Lemma predict_mgca_mu_cases :
  predict_mgca_mu seatemp cleaning salinity ph omega spp drawsfun
  = Raise ValueError \/
  exists r, predict_mgca_mu seatemp cleaning salinity ph omega spp drawsfun
            = Ok r.
Proof.
  unfold predict_mgca_mu.
  rewrite (pow_neg2_defined _ omega_defined). cbn [bind]. rewrite draws_ok.
  destruct d as [[[[[[al bt] bs] bo] bp] bc] sg].
  cbn [bind].
  destruct (newaxis1_atleast_1d cleaning) as (cl & ->).
  destruct (newaxis1_atleast_1d seatemp) as (st & ->).
  destruct (newaxis1_atleast_1d salinity) as (sl & ->).
  destruct (newaxis1_atleast_1d
              (map_array (fun x => Qpower x (-2)) omega)) as (om & ->).
  destruct (newaxis1_atleast_1d ph) as (ph' & ->).
  cbn [bind]. unfold mul, add, sub, iadd.
  repeat match goal with
         | |- context [bind (ufunc2 ?op ?x ?y) _] =>
             destruct (ufunc2_cases op x y) as [-> | [? ->]];
             cbn [bind]; [left; reflexivity|]
         end.
  destruct (String.eqb spp "pachy"); cbn [negb bind]; [eauto|].
  repeat match goal with
         | |- context [bind (ufunc2 ?op ?x ?y) _] =>
             destruct (ufunc2_cases op x y) as [-> | [? ->]];
             cbn [bind]; [left; reflexivity|]
         end.
  match goal with
  | |- context [bind (ufunc2_inplace ?op ?x ?y) _] =>
      destruct (ufunc2_inplace_cases op x y) as [-> | [? ->]];
      cbn [bind]; eauto
  end.
Qed.

(** Covariates without a common observation count make the predictor fail
    with numpy's broadcasting error. *)
Lemma predict_mgca_mu_mismatch :
  (forall n, ~ common_count n used_lengths) ->
  predict_mgca_mu seatemp cleaning salinity ph omega spp drawsfun
  = Raise ValueError.
Proof.
  intros Hno.
  destruct predict_mgca_mu_cases as [E | [[mu scale] E]]; [exact E|].
  destruct (predict_mgca_mu_Ok_common _ _ E) as (n & r & _ & Hc).
  exfalso. exact (Hno n Hc).
Qed.

(** With an intercept held as a vector of draws, as [get_draws] returns it
    for the species of the hierarchical calibration, two observations or
    more and two draws or more always end in numpy's broadcasting error:
    the tiled intercept has [m * a] entries along its only axis, against
    the [m] columns of the temperature term. *)
Lemma predict_mgca_mu_vector_intercept :
  sa = [m] -> 2 <= a -> 2 <= m ->
  predict_mgca_mu seatemp cleaning salinity ph omega spp drawsfun
  = Raise ValueError.
Proof.
  intros Hsa Ha Hm.
  destruct predict_mgca_mu_cases as [E | [[mu scale] H]]; [exact E|].
  exfalso. revert H.
  unfold predict_mgca_mu.
  rewrite (pow_neg2_defined _ omega_defined). cbn [bind]. rewrite draws_ok.
  destruct d as [[[[[[al bt] bs] bo] bp] bc] sg].
  destruct draws_shapes as (Sal & Ssg & Sbt & Sbs & Sbo & Sbp & Sbc).
  cbn [bind].
  rewrite (newaxis1_ok _ _ _ cleaning_length).
  rewrite (newaxis1_ok _ _ _ seatemp_length).
  cbn [bind].
  intros H.
  do 4 (let x := fresh "x" in
        let E := fresh "E" in
        apply bind_Ok_inv in H; destruct H as (x & E & H)).
  clear H.
  assert (Hn : size (atleast_1d seatemp) = a * 1).
  { unfold size. rewrite seatemp_length. reflexivity. }
  apply ufunc2_inv in E1, E2. cbn [shape] in E1.
  rewrite Sbt in E1.
  apply broadcast_shapes_12 in E1. destruct E1 as (za & E1 & A1).
  rewrite E1, Hn in E2. rewrite Hsa in Sal.
  rewrite (shape_tile_transpose_1 _ _ _ Sal) in E2.
  apply broadcast_shapes_12 in E2. destruct E2 as (w & _ & A2).
  unfold axis_broadcast in A1, A2. nia.
Qed.

End PredictShapes.

(* ================================================================= *)
(** ** The ensemble predictor *)

Section Sampling.

Variable rng : Type.
Variable normal : rng -> Q -> Q -> Q * rng.
Variable exp : Q -> Q.

Lemma random_normal_ok (loc scale : ndarray) (sh : list nat) (g : rng) :
  existsb (fun s => negb (Qle_bool 0 s)) (data scale) = false ->
  broadcast_shapes (shape loc) (shape scale) = Some sh ->
  exists xs g',
    random_normal rng normal loc scale g = Ok (mk_ndarray sh xs, g').
Proof.
  intros Hs Hb. unfold random_normal. rewrite Hs, Hb.
  destruct (draw_all rng normal _ g) as [xs g']. eauto.
Qed.

Lemma predict_mgca_raise (seatemp cleaning salinity ph omega : ndarray)
    (spp : string) (drawsfun : string -> result draws_t) (g : rng) (e : exn) :
  predict_mgca_mu seatemp cleaning salinity ph omega spp drawsfun = Raise e ->
  predict_mgca rng normal exp seatemp cleaning salinity ph omega spp
    drawsfun g = Raise e.
Proof. intros H. unfold predict_mgca. rewrite H. reflexivity. Qed.

Lemma predict_mgca_returns (seatemp cleaning salinity ph omega : ndarray)
    (tok : string) (drawsfun : string -> result draws_t) (g : rng)
    (mu scale : ndarray) (sh : list nat) :
  predict_mgca_mu seatemp cleaning salinity ph omega tok drawsfun
  = Ok (mu, scale) ->
  existsb (fun s => negb (Qle_bool 0 s)) (data scale) = false ->
  broadcast_shapes (shape mu) (shape scale) = Some sh ->
  exists out g',
    predict_mgca rng normal exp seatemp cleaning salinity ph omega tok
      drawsfun g = Ok (out, g') /\
    shape (ensemble out) = sh /\ spp out = tok.
Proof.
  intros Hmu Hs Hb. unfold predict_mgca. rewrite Hmu. cbn [bind].
  destruct (random_normal_ok mu scale sh g Hs Hb) as (xs & g' & ->).
  cbn [bind]. eauto.
Qed.

End Sampling.

(** C6 as stated fails: with species 'pachy' the pH series is never read, so
    a pH series of three values passed with salinity, cleaning and omega
    series of two values (lengths without a common observation count) is
    accepted and an ensemble is returned. *)
Lemma predict_mgca_pachy_ph_mismatch_returns :
  (forall n, ~ common_count n [1; 2; 2; 3; 2]) /\
  (forall (rng : Type) (normal : rng -> Q -> Q -> Q * rng) (exp : Q -> Q)
          (g : rng),
     returns (predict_mgca rng normal exp (scalar 20) cleaning2 salinity2 ph3
                omega2 "pachy" (get_draws pooled2 pooled2 species2) g)).
Proof.
  split.
  - intros n H. unfold common_count in H.
    repeat match goal with
           | H : Forall _ (_ :: _) |- _ => inversion_clear H
           end.
    lia.
  - intros rng normal exp g.
    assert (E : exists mu scale,
               predict_mgca_mu (scalar 20) cleaning2 salinity2 ph3 omega2
                 "pachy" (get_draws pooled2 pooled2 species2)
               = Ok (mu, scale) /\
               existsb (fun s => negb (Qle_bool 0 s)) (data scale) = false /\
               broadcast_shapes (shape mu) (shape scale) = Some [2; 2]).
    { eexists. eexists. split; [vm_compute; reflexivity|].
      split; reflexivity. }
    destruct E as (mu & scale & Hmu & Hs & Hb).
    destruct (predict_mgca_returns rng normal exp _ _ _ _ _ _ _ g _ _ _
                Hmu Hs Hb) as (out & g' & -> & _).
    exists (out, g'). reflexivity.
Qed.

(** C6, as the code has it.  On resources of the documented shapes and a
    token of the vocabulary, for covariates that are scalars or 1-d arrays:
    when the lengths of seatemp, cleaning, salinity and omega, and of ph
    unless the species is pachy (under its canonical name or a legacy
    alias), have no common observation count, [predict_mgca] returns no
    ensemble.  It raises numpy's [ValueError]; only when [omega] is the
    Python scalar zero does the [ZeroDivisionError] of [omega ** -2] come
    first. *)
Theorem predict_mgca_shape_mismatch
    (POOLED_PARAMS POOLEDSEA_PARAMS SPP_PARAMS : matfile)
    (mp ms1 ms k : nat) (tok : string)
    (seatemp cleaning salinity ph omega : ndarray) (a c s p o : nat)
    (rng : Type) (normal : rng -> Q -> Q -> Q * rng) (exp : Q -> Q)
    (g : rng) :
  pooled_store mp POOLED_PARAMS ->
  pooled_store ms1 POOLEDSEA_PARAMS ->
  species_store ms k SPP_PARAMS ->
  In tok vocabulary ->
  covariate_length seatemp a ->
  covariate_length cleaning c ->
  covariate_length salinity s ->
  covariate_length ph p ->
  covariate_length omega o ->
  (forall n,
     ~ common_count n
         ([a; c; s; o]
          ++ if String.eqb (normalize tok) "pachy" then [] else [p])) ->
  predict_mgca rng normal exp seatemp cleaning salinity ph omega tok
    (get_draws POOLED_PARAMS POOLEDSEA_PARAMS SPP_PARAMS) g
  = Raise (if is_zero_scalar omega then ZeroDivisionError else ValueError).
Proof.
  intros HP HPS HS Hin Ha Hc Hs Hp Ho Hno.
  apply predict_mgca_raise.
  destruct (is_zero_scalar omega) eqn:Hz;
    [apply predict_mgca_mu_zero_scalar; exact Hz|].
  destruct (get_draws_vocabulary _ _ _ _ _ _ _ tok HP HPS HS Hin)
    as (d & m & sa & Hd & Hsh & Hsa).
  apply (predict_mgca_mu_mismatch _ _ _ _ _ _ _ _ _ _ Ha Hc Hs Hp Ho Hz
           _ _ d m sa Hd Hsh Hsa).
  intros n H. apply (Hno n).
  destruct (String.eqb tok "pachy") eqn:E.
  - apply String.eqb_eq in E. subst tok. exact H.
  - destruct (String.eqb (normalize tok) "pachy"); [|exact H].
    unfold common_count in *.
    apply Forall_app in H. destruct H as [H _].
    rewrite app_nil_r. exact H.
Qed.

Lemma predict_mgca_shape_mismatch_witness :
  predict_mgca unit (fun g loc _ => (loc, g)) (fun x => x)
    seatemp2 cleaning2 salinity2 ph3 omega2 "all"
    (get_draws pooled2 pooled2 species2) tt
  = Raise ValueError.
Proof.
  change ValueError
    with (if is_zero_scalar omega2 then ZeroDivisionError else ValueError).
  apply (predict_mgca_shape_mismatch pooled2 pooled2 species2 2 2 2 4 "all"
           seatemp2 cleaning2 salinity2 ph3 omega2 2 2 2 3 2).
  - repeat split; eexists; (split; [reflexivity | split; reflexivity]).
  - repeat split; eexists; (split; [reflexivity | split; reflexivity]).
  - repeat split; try lia; eexists;
      (split; [reflexivity | split; reflexivity]).
  - simpl. tauto.
  - reflexivity.
  - reflexivity.
  - reflexivity.
  - reflexivity.
  - reflexivity.
  - intros n H. unfold common_count in H. simpl in H.
    repeat match goal with
           | H : Forall _ (_ :: _) |- _ => inversion_clear H
           end.
    lia.
Defined.

(** C3 on the code.  With the literal token 'pachy' the pH covariate never
    reaches the prediction: two calls that differ only in [ph] return the
    same ensemble from the same generator state.  The test compares the
    token as passed, before any alias normalization: with the legacy alias
    'N. incompta', which [get_draws] resolves to the draws of 'pachy', the
    pH term is added, and two pH values give two different linear
    predictors. *)
Theorem predict_mgca_pachy_ph :
  (forall (rng : Type) (normal : rng -> Q -> Q -> Q * rng) (exp : Q -> Q)
          (seatemp cleaning salinity omega ph ph' : ndarray)
          (drawsfun : string -> result draws_t) (g : rng),
     predict_mgca rng normal exp seatemp cleaning salinity ph omega "pachy"
       drawsfun g
     = predict_mgca rng normal exp seatemp cleaning salinity ph' omega
         "pachy" drawsfun g) /\
  (normalize "N. incompta" = "pachy" /\
   get_draws pooled2 pooled2 species2 "N. incompta"
   = get_draws pooled2 pooled2 species2 "pachy" /\
   exists mu mu' scale,
     predict_mgca_mu (scalar 20) (scalar 1) (scalar 35) (scalar 8)
       (scalar 5) "N. incompta" (get_draws pooled2 pooled2 species2)
     = Ok (mu, scale) /\
     predict_mgca_mu (scalar 20) (scalar 1) (scalar 35) (scalar 7)
       (scalar 5) "N. incompta" (get_draws pooled2 pooled2 species2)
     = Ok (mu', scale) /\
     ~ (get mu [0; 0]%nat == get mu' [0; 0]%nat)%Q).
Proof.
  split; [reflexivity|].
  split; [reflexivity|]. split; [reflexivity|].
  eexists. eexists. eexists.
  split; [vm_compute; reflexivity|].
  split; [vm_compute; reflexivity|].
  vm_compute. discriminate.
Qed.

(** C1 on the code.  With two observations and a species of the hierarchical
    calibration the linear predictor is not computed: the intercept of such
    a species is a vector of draws, [np.tile] lays its copies end to end
    along the only axis, and the sum with the per-observation terms cannot
    be broadcast.  With the same covariates and the pooled calibration the
    predictor is computed and is the formula of the claim. *)
Theorem predict_mgca_hierarchical_two_observations :
  (forall (rng : Type) (normal : rng -> Q -> Q -> Q * rng) (exp : Q -> Q)
          (g : rng),
     predict_mgca rng normal exp seatemp2 cleaning2 salinity2 ph2 omega2
       "ruber" (get_draws pooled2 pooled2 species2) g
     = Raise ValueError) /\
  (exists mu scale,
     predict_mgca_mu seatemp2 cleaning2 salinity2 ph2 omega2 "all"
       (get_draws pooled2 pooled2 species2) = Ok (mu, scale) /\
     shape mu = [2; 2] /\
     forall i j, i < 2 -> j < 2 ->
       (get mu [i; j] ==
        get (array1 [7; 8]) [j]
        + get (array1 [1 # 10; 2 # 10]) [j] * get seatemp2 [i]
        + get (array1 [3; 4]) [j] * (get omega2 [i]) ^ (-2)
        + get (array1 [1 # 100; 2 # 100]) [j] * get salinity2 [i]
        + (1 - get (array1 [1 # 2; 1 # 4]) [j] * get cleaning2 [i])
        + get (array1 [5; 6]) [j] * get ph2 [i])%Q).
Proof.
  split.
  - intros rng normal exp g. apply predict_mgca_raise.
    vm_compute. reflexivity.
  - eexists. eexists. split; [vm_compute; reflexivity|].
    split; [reflexivity|].
    intros i j Hi Hj.
    destruct i as [|[|i]]; [| |lia]; (destruct j as [|[|j]]; [| |lia]);
      vm_compute; reflexivity.
Qed.

(* ================================================================= *)
(** ** The linear predictor of the pooled calibrations *)

Lemma broadcast_shapes_col (m n : nat) :
  broadcast_shapes [m] [n; 1] = Some [n; m].
Proof.
  unfold broadcast_shapes. simpl.
  destruct (Nat.eqb_spec m 1) as [-> | _]; reflexivity.
Qed.

(** A vector of draws against a column of observations. *)
Lemma ufunc2_draws_column (op : Q -> Q -> Q) (b x : ndarray) (n m : nat) :
  shape b = [m] -> shape x = [n; 1] ->
  exists c,
    ufunc2 op b x = Ok c /\ shape c = [n; m] /\
    forall i j, i < n -> j < m ->
      get c [i; j] = op (get b [j]) (get x [i; 0]).
Proof.
  intros Hb Hx.
  rewrite (ufunc2_ok op b x [n; m])
    by (rewrite Hb, Hx; apply broadcast_shapes_col).
  eexists. split; [reflexivity|]. split; [reflexivity|].
  intros i j Hi Hj. rewrite get_build by (apply in_range_2; assumption).
  rewrite Hb, Hx. unfold bindex. simpl.
  rewrite !bindex_axis by assumption. reflexivity.
Qed.

(** Two arrays of one shape, entry by entry. *)
Lemma ufunc2_same_shape (op : Q -> Q -> Q) (x y : ndarray) (n m : nat) :
  shape x = [n; m] -> shape y = [n; m] ->
  exists c,
    ufunc2 op x y = Ok c /\ shape c = [n; m] /\
    forall i j, i < n -> j < m ->
      get c [i; j] = op (get x [i; j]) (get y [i; j]).
Proof.
  intros Hx Hy.
  rewrite (ufunc2_ok op x y [n; m])
    by (rewrite Hx, Hy; apply broadcast_shapes_refl).
  eexists. split; [reflexivity|]. split; [reflexivity|].
  intros i j Hi Hj. rewrite get_build by (apply in_range_2; assumption).
  rewrite Hx, Hy. unfold bindex. simpl.
  rewrite !bindex_axis by assumption. reflexivity.
Qed.

Lemma ufunc2_inplace_same_shape (op : Q -> Q -> Q) (x y : ndarray)
    (n m : nat) :
  shape x = [n; m] -> shape y = [n; m] ->
  exists c,
    ufunc2_inplace op x y = Ok c /\ shape c = [n; m] /\
    forall i j, i < n -> j < m ->
      get c [i; j] = op (get x [i; j]) (get y [i; j]).
Proof.
  intros Hx Hy. unfold ufunc2_inplace.
  rewrite Hx, Hy, broadcast_shapes_refl.
  destruct (list_eq_dec Nat.eq_dec [n; m] [n; m]) as [_ | N];
    [|contradiction].
  eexists. split; [reflexivity|]. split; [reflexivity|].
  intros i j Hi Hj. rewrite get_build by (apply in_range_2; assumption).
  unfold bindex. simpl. rewrite !bindex_axis by assumption. reflexivity.
Qed.

(** A Python scalar against an array. *)
Lemma ufunc2_scalar (op : Q -> Q -> Q) (v : Q) (y : ndarray) (n m : nat) :
  shape y = [n; m] ->
  exists c,
    ufunc2 op (scalar v) y = Ok c /\ shape c = [n; m] /\
    forall i j, i < n -> j < m -> get c [i; j] = op v (get y [i; j]).
Proof.
  intros Hy.
  rewrite (ufunc2_ok op (scalar v) y [n; m])
    by (rewrite Hy; apply broadcast_shapes_0).
  eexists. split; [reflexivity|]. split; [reflexivity|].
  intros i j Hi Hj. rewrite get_build by (apply in_range_2; assumption).
  rewrite Hy. unfold bindex. simpl.
  rewrite !bindex_axis by assumption. reflexivity.
Qed.

(** The tiled and transposed column of intercepts: row [i] holds the
    intercept of each draw. *)
Lemma get_tile_transpose_column (al : ndarray) (n m i j : nat) :
  shape al = [m; 1] -> i < n -> j < m ->
  shape (transpose (tile al n)) = [n; m] /\
  get (transpose (tile al n)) [i; j] = get al [j; 0].
Proof.
  intros Hal Hi Hj.
  assert (Hsh : shape (transpose (tile al n)) = [n; m]).
  { rewrite (shape_tile_transpose_2 _ _ _ _ Hal). f_equal. lia. }
  split; [exact Hsh|].
  unfold transpose at 1.
  assert (Hti : shape (tile al n) = [m; n]).
  { unfold tile. rewrite Hal. simpl. f_equal. f_equal. lia. }
  rewrite Hti. simpl rev.
  rewrite get_build by (apply in_range_2; assumption).
  cbn [rev app]. unfold tile. rewrite Hal. cbn [rev app].
  rewrite get_build
    by (apply in_range_2; [assumption | rewrite Nat.mul_1_l; assumption]).
  cbn [rev app]. rewrite Nat.mod_1_r. reflexivity.
Qed.

Lemma get_newaxis1 (d : list Q) (n i : nat) :
  get (mk_ndarray [n; 1] d) [i; 0] = get (mk_ndarray [n] d) [i].
Proof. unfold get. simpl. f_equal; lia. Qed.

Lemma get_reshape (x : ndarray) (sh idx : list nat) :
  shape x = sh -> get (mk_ndarray sh (data x)) idx = get x idx.
Proof. intros H. unfold get. simpl. rewrite H. reflexivity. Qed.

Lemma get_atleast_1d_map (f : Q -> Q) (x : ndarray) (idx : list nat) :
  f 0%Q = 0%Q ->
  get (atleast_1d (map_array f x)) idx = f (get (atleast_1d x) idx).
Proof.
  intros Hf. unfold atleast_1d, map_array. simpl.
  destruct (shape x) eqn:E; unfold get; simpl; rewrite ?E;
    rewrite <- Hf at 1; apply map_nth.
Qed.

Section PooledPredictor.

Variables seatemp cleaning salinity ph omega : ndarray.
Variable n : nat.
Hypothesis seatemp_length : covariate_length seatemp n.
Hypothesis cleaning_length : covariate_length cleaning n.
Hypothesis salinity_length : covariate_length salinity n.
Hypothesis ph_length : covariate_length ph n.
Hypothesis omega_length : covariate_length omega n.
Hypothesis omega_nonzero : nonzero_entries omega.

Variable drawsfun : string -> result draws_t.
Variable tok : string.
Variables alpha beta_temp beta_salinity beta_omega beta_ph beta_clean
  sigma : ndarray.
Variable m : nat.
Hypothesis draws_ok :
  drawsfun tok = Ok (alpha, beta_temp, beta_salinity, beta_omega, beta_ph,
                     beta_clean, sigma).
Hypothesis draws_shapes :
  draws_shaped (alpha, beta_temp, beta_salinity, beta_omega, beta_ph,
                beta_clean, sigma) [m; 1] [m].

Local Abbreviation base :=
  (mu_base alpha beta_temp beta_omega beta_salinity beta_clean
     seatemp omega salinity cleaning).

(** With an intercept held as a column of draws, as the pooled calibrations
    have it, covariates of one common length [n] and no zero in [omega],
    the linear predictor is computed for every observation and every draw, and is the sum of the
    intercept, the temperature, omega (to the power -2) and salinity terms
    and the cleaning term, plus the pH term unless the token is 'pachy'. *)
Lemma predict_mgca_mu_pooled :
  exists mu scale,
    predict_mgca_mu seatemp cleaning salinity ph omega tok drawsfun
    = Ok (mu, scale) /\
    shape mu = [n; m] /\
    forall i j, i < n -> j < m ->
      get mu [i; j] =
      if String.eqb tok "pachy" then base i j
      else (base i j + get beta_ph [j] * get (atleast_1d ph) [i])%Q.
Proof.
  destruct draws_shapes as (Sal & Ssg & Sbt & Sbs & Sbo & Sbp & Sbc).
  unfold predict_mgca_mu.
  rewrite (pow_neg2_defined _ (nonzero_entries_defined _ omega_nonzero)).
  cbn [bind]. rewrite draws_ok. cbn [bind].
  rewrite (newaxis1_ok _ _ _ cleaning_length).
  rewrite (newaxis1_ok _ _ _ seatemp_length).
  rewrite (newaxis1_ok _ _ _ salinity_length).
  rewrite (newaxis1_ok (atleast_1d (map_array _ omega)) n [])
    by (rewrite atleast_1d_map_shape; exact omega_length).
  rewrite (newaxis1_ok _ _ _ ph_length).
  cbn [bind]. unfold mul, sub, add, iadd.
  assert (Hn : size (atleast_1d seatemp) = n).
  { unfold size. rewrite seatemp_length. simpl. lia. }
  rewrite Hn.
  destruct (ufunc2_draws_column Qmult beta_clean
              (mk_ndarray [n; 1] (data (atleast_1d cleaning))) n m
              Sbc eq_refl) as (x & -> & Sx & Gx).
  cbn [bind].
  destruct (ufunc2_scalar Qminus 1 x n m Sx) as (ct & -> & Sct & Gct).
  cbn [bind].
  destruct (ufunc2_draws_column Qmult beta_temp
              (mk_ndarray [n; 1] (data (atleast_1d seatemp))) n m
              Sbt eq_refl) as (x1 & -> & Sx1 & Gx1).
  cbn [bind].
  assert (Sta : forall i j, i < n -> j < m ->
            shape (transpose (tile alpha n)) = [n; m] /\
            get (transpose (tile alpha n)) [i; j] = get alpha [j; 0]).
  { intros i j Hi Hj. apply get_tile_transpose_column; assumption. }
  assert (Sta' : shape (transpose (tile alpha n)) = [n; m]).
  { rewrite (shape_tile_transpose_2 _ _ _ _ Sal). f_equal. lia. }
  destruct (ufunc2_same_shape Qplus _ x1 n m Sta' Sx1)
    as (x2 & -> & Sx2 & Gx2).
  cbn [bind].
  destruct (ufunc2_draws_column Qmult beta_omega
              (mk_ndarray [n; 1]
                 (data (atleast_1d
                          (map_array (fun x => Qpower x (-2)) omega)))) n m
              Sbo eq_refl) as (x3 & -> & Sx3 & Gx3).
  cbn [bind].
  destruct (ufunc2_same_shape Qplus x2 x3 n m Sx2 Sx3)
    as (x4 & -> & Sx4 & Gx4).
  cbn [bind].
  destruct (ufunc2_draws_column Qmult beta_salinity
              (mk_ndarray [n; 1] (data (atleast_1d salinity))) n m
              Sbs eq_refl) as (x5 & -> & Sx5 & Gx5).
  cbn [bind].
  destruct (ufunc2_same_shape Qplus x4 x5 n m Sx4 Sx5)
    as (x6 & -> & Sx6 & Gx6).
  cbn [bind].
  destruct (ufunc2_same_shape Qplus x6 ct n m Sx6 Sct)
    as (x7 & -> & Sx7 & Gx7).
  cbn [bind].
  assert (Hbase : forall i j, i < n -> j < m -> get x7 [i; j] = base i j).
  { intros i j Hi Hj. unfold mu_base.
    rewrite Gx7, Gx6, Gx4, Gx2, Gct, Gx, Gx1, Gx3, Gx5 by assumption.
    destruct (Sta i j Hi Hj) as [_ ->].
    rewrite !get_newaxis1.
    rewrite !get_reshape
      by (try exact seatemp_length; try exact cleaning_length;
          try exact salinity_length;
          rewrite atleast_1d_map_shape; exact omega_length).
    rewrite get_atleast_1d_map by reflexivity.
    reflexivity. }
  destruct (String.eqb tok "pachy"); cbn [negb bind].
  - eexists. eexists. split; [reflexivity|]. split; assumption.
  - destruct (ufunc2_draws_column Qmult beta_ph
                (mk_ndarray [n; 1] (data (atleast_1d ph))) n m
                Sbp eq_refl) as (x8 & -> & Sx8 & Gx8).
    cbn [bind].
    destruct (ufunc2_inplace_same_shape Qplus x7 x8 n m Sx7 Sx8)
      as (x9 & -> & Sx9 & Gx9).
    cbn [bind].
    eexists. eexists. split; [reflexivity|]. split; [exact Sx9|].
    intros i j Hi Hj.
    rewrite Gx9, Hbase, Gx8 by assumption.
    rewrite get_newaxis1, get_reshape by exact ph_length.
    reflexivity.
Qed.

End PooledPredictor.

(* ================================================================= *)
(** * Further properties *)

(** ** Draw resolution: normalization, failures, content *)

Lemma in_keys_dict_get {V : Type} (d : dict V) (k : string) :
  in_keys k d = true <-> exists v, dict_get d k = Some v.
Proof.
  unfold in_keys, keys.
  induction d as [|[k' v] d IH]; simpl.
  - split; [discriminate | intros [v H]; discriminate H].
  - destruct (String.eqb k k'); simpl; [split; eauto | exact IH].
Qed.

(** [get_draws] by the entry of [draws_map] for the normalized token. *)
Lemma get_draws_unfold (P PS S : matfile) (tok : string) :
  get_draws P PS S tok =
  match dict_get (draws_map P PS S) (normalize tok) with
  | Some (f, idx) => copy_draws f idx
  | None => Raise (AssertionError (assert_msg P PS S tok))
  end.
Proof.
  unfold get_draws, getitem.
  destruct (dict_get (draws_map P PS S) (normalize tok)) as [[f idx]|] eqn:E.
  - assert (H : in_keys (normalize tok) (draws_map P PS S) = true)
      by (apply in_keys_dict_get; eauto).
    rewrite H. reflexivity.
  - destruct (in_keys (normalize tok) (draws_map P PS S)) eqn:H;
      [|reflexivity].
    apply in_keys_dict_get in H. destruct H as [v H]. congruence.
Qed.

Lemma getitem_cases {V : Type} (d : dict V) (k : string) :
  (exists v, getitem d k = Ok v) \/ getitem d k = Raise (KeyError k).
Proof. unfold getitem. destruct (dict_get d k); eauto. Qed.

Lemma index_col_cases (a : ndarray) (idx : option nat) :
  (exists v, index_col a idx = Ok v) \/ index_col a idx = Raise IndexError.
Proof.
  unfold index_col, newaxis1, take_col.
  destruct idx as [k|]; destruct (shape a) as [|n [|c r]]; eauto.
  destruct (k <? c); eauto.
Qed.

(** Copying the draws out of a resource fails only on a missing key or on a
    missing axis or column. *)
Lemma copy_draws_exn (f : matfile) (idx : option nat) (e : exn) :
  copy_draws f idx = Raise e ->
  (exists k, e = KeyError k) \/ e = IndexError.
Proof.
  unfold copy_draws.
  repeat match goal with
         | |- context [bind (getitem f ?k) _] =>
             destruct (getitem_cases f k) as [[? ->] | ->]; cbn [bind];
             [|intros H; injection H as <-; eauto]
         | |- context [bind (index_col ?a idx) _] =>
             destruct (index_col_cases a idx) as [[? ->] | ->]; cbn [bind];
             [|intros H; injection H as <-; eauto]
         end.
  discriminate.
Qed.

(** X1.  Whatever the resources hold, [get_draws] raises an
    [AssertionError] exactly for the tokens that alias normalization does
    not send to a canonical identifier; any other failure is a [KeyError]
    (a parameter missing from the resource) or an [IndexError] (an array
    without the axis or the column of the species). *)
Theorem get_draws_failures (P PS S : matfile) (tok : string) :
  (raises (get_draws P PS S tok) "AssertionError" <->
   ~ In (normalize tok) canonical) /\
  (forall e, get_draws P PS S tok = Raise e ->
     exn_class e = "AssertionError" \/ exn_class e = "KeyError" \/
     exn_class e = "IndexError").
Proof.
  rewrite get_draws_unfold.
  destruct (dict_get (draws_map P PS S) (normalize tok)) as [[f idx]|] eqn:E.
  - assert (Hin : In (normalize tok) canonical).
    { apply (in_keys_canonical P PS S), in_keys_dict_get. eauto. }
    split.
    + split; [|contradiction].
      intros [e [He Hc]]. apply copy_draws_exn in He.
      destruct He as [[k ->] | ->]; discriminate Hc.
    + intros e He. apply copy_draws_exn in He.
      destruct He as [[k ->] | ->]; auto.
  - assert (Hnot : ~ In (normalize tok) canonical).
    { intros Hin. apply (in_keys_canonical P PS S), in_keys_dict_get in Hin.
      destruct Hin as [v Hv]. congruence. }
    split.
    + split; [intros _; exact Hnot|].
      intros _. apply raises_Raise. reflexivity.
    + intros e He. injection He as <-. auto.
Qed.

(** X2.  Alias normalization is idempotent: a token is either left as it is
    or sent to a canonical identifier, and canonical identifiers are left as
    they are. *)
Theorem normalize_idempotent (tok : string) :
  normalize (normalize tok) = normalize tok /\
  (normalize tok = tok \/ In (normalize tok) canonical) /\
  (In tok canonical -> normalize tok = tok).
Proof.
  assert (Hfix : forall s, In s canonical -> normalize s = s).
  { intros s Hs. unfold canonical in Hs. simpl in Hs.
    repeat destruct Hs as [<- | Hs]; try contradiction; reflexivity. }
  assert (Himg : normalize tok = tok \/ In (normalize tok) canonical).
  { unfold normalize, foram_map, dict_get.
    repeat match goal with
           | |- context [String.eqb tok ?k] =>
               destruct (String.eqb_spec tok k) as [-> | ?];
               [right; vm_compute; tauto|]
           end.
    left. reflexivity. }
  split; [|split; [exact Himg | apply Hfix]].
  destruct Himg as [E | Hin]; [congruence | apply Hfix, Hin].
Qed.

Lemma in_range_1 (n i : nat) : i < n -> in_range [n] [i].
Proof. intros H. apply in_range_cons. split; [exact H | reflexivity]. Qed.

Lemma getitem_Some {V : Type} (d : dict V) (k : string) (v : V) :
  dict_get d k = Some v -> getitem d k = Ok v.
Proof. intros H. unfold getitem. rewrite H. reflexivity. Qed.

(** The draws copied out of a pooled resource: the slopes as stored, the
    intercept and the deviation reshaped to columns. *)
Lemma copy_draws_pooled_content (f : matfile) (m : nat)
    (bt bs bo bc bp alpha0 sigma0 : ndarray) :
  has_slopes f m bt bs bo bc bp ->
  has_intercept f [m] alpha0 sigma0 ->
  copy_draws f None =
  Ok (mk_ndarray [m; 1] (data alpha0), bt, bs, bo, bp, bc,
      mk_ndarray [m; 1] (data sigma0)).
Proof.
  intros (ET & ES & EO & EC & EP & _) (Ea & Es & Sa & Ss).
  unfold copy_draws.
  rewrite (getitem_Some _ _ _ ET), (getitem_Some _ _ _ ES),
    (getitem_Some _ _ _ EO), (getitem_Some _ _ _ EC),
    (getitem_Some _ _ _ EP), (getitem_Some _ _ _ Es),
    (getitem_Some _ _ _ Ea).
  cbn [bind index_col]. unfold newaxis1. rewrite Ss, Sa. reflexivity.
Qed.

(** The draws copied out of a hierarchical resource for the species of
    column [i]. *)
Lemma copy_draws_species_content (f : matfile) (m k i : nat)
    (bt bs bo bc bp alpha0 sigma0 : ndarray) :
  has_slopes f m bt bs bo bc bp ->
  has_intercept f [m; k] alpha0 sigma0 ->
  i < k ->
  exists alpha sigma,
    copy_draws f (Some i) = Ok (alpha, bt, bs, bo, bp, bc, sigma) /\
    shape alpha = [m] /\ shape sigma = [m] /\
    forall j, j < m ->
      get alpha [j] = get alpha0 [j; i] /\ get sigma [j] = get sigma0 [j; i].
Proof.
  intros (ET & ES & EO & EC & EP & _) (Ea & Es & Sa & Ss) Hi.
  unfold copy_draws.
  rewrite (getitem_Some _ _ _ ET), (getitem_Some _ _ _ ES),
    (getitem_Some _ _ _ EO), (getitem_Some _ _ _ EC),
    (getitem_Some _ _ _ EP), (getitem_Some _ _ _ Es),
    (getitem_Some _ _ _ Ea).
  cbn [bind index_col]. unfold take_col. rewrite Ss, Sa.
  assert (Hlt : (i <? k) = true) by (apply Nat.ltb_lt; exact Hi).
  rewrite Hlt. cbn [bind].
  eexists. eexists. split; [reflexivity|].
  split; [reflexivity|]. split; [reflexivity|].
  intros j Hj. rewrite !get_build by (apply in_range_1; exact Hj).
  split; reflexivity.
Qed.

(** X3.  For a token whose normalized form [draws_map] sends to column [i]
    of a hierarchical resource, [get_draws] returns the five slopes as the
    resource stores them, and as intercept and deviation the column [i] of
    the stored tables: entry [j] is entry [j, i]. *)
Theorem get_draws_species_column (P PS S f : matfile) (tok : string)
    (m k i : nat) (bt bs bo bc bp alpha0 sigma0 : ndarray) :
  dict_get (draws_map P PS S) (normalize tok) = Some (f, Some i) ->
  has_slopes f m bt bs bo bc bp ->
  has_intercept f [m; k] alpha0 sigma0 ->
  i < k ->
  exists alpha sigma,
    get_draws P PS S tok = Ok (alpha, bt, bs, bo, bp, bc, sigma) /\
    shape alpha = [m] /\ shape sigma = [m] /\
    forall j, j < m ->
      get alpha [j] = get alpha0 [j; i] /\ get sigma [j] = get sigma0 [j; i].
Proof.
  intros Hmap Hsl Hint Hi. rewrite get_draws_unfold, Hmap.
  exact (copy_draws_species_content f m k i _ _ _ _ _ _ _ Hsl Hint Hi).
Qed.

Lemma get_draws_species_column_witness :
  exists alpha sigma,
    get_draws pooled2 pooled2 species2 "G. ruber white"
    = Ok (alpha, array1 [1 # 10; 2 # 10], array1 [1 # 100; 2 # 100],
          array1 [3; 4], array1 [5; 6], array1 [1 # 2; 1 # 4], sigma)%Q /\
    shape alpha = [2] /\ shape sigma = [2] /\
    forall j, j < 2 ->
      get alpha [j]
      = get (array2 4 [[1; 2; 3; 4]; [5; 6; 7; 8]]%Q) [j; 0] /\
      get sigma [j]
      = get (array2 4 [[1; 2; 3; 4]; [5; 6; 7; 8]]%Q) [j; 0].
Proof.
  apply (get_draws_species_column pooled2 pooled2 species2 species2
           "G. ruber white" 2 4 0).
  - reflexivity.
  - repeat split; reflexivity.
  - repeat split; reflexivity.
  - lia.
Defined.

(** X4.  A hierarchical resource with too few species columns: for a token
    whose column [i] is not below the number [k] of columns of the stored
    deviation table, [get_draws] raises [IndexError]. *)
Theorem get_draws_missing_column (P PS S f : matfile) (tok : string)
    (m m' k i : nat) (bt bs bo bc bp sigma0 : ndarray) :
  dict_get (draws_map P PS S) (normalize tok) = Some (f, Some i) ->
  has_slopes f m bt bs bo bc bp ->
  dict_get f "sigma" = Some sigma0 ->
  shape sigma0 = [m'; k] ->
  k <= i ->
  get_draws P PS S tok = Raise IndexError.
Proof.
  intros Hmap (ET & ES & EO & EC & EP & _) Es Ss Hk.
  rewrite get_draws_unfold, Hmap. unfold copy_draws.
  rewrite (getitem_Some _ _ _ ET), (getitem_Some _ _ _ ES),
    (getitem_Some _ _ _ EO), (getitem_Some _ _ _ EC),
    (getitem_Some _ _ _ EP), (getitem_Some _ _ _ Es).
  cbn [bind index_col]. unfold take_col. rewrite Ss.
  destruct (Nat.ltb_spec i k); [lia | reflexivity].
Qed.

Lemma get_draws_missing_column_witness :
  get_draws pooled2 pooled2 species3cols "N. incompta" = Raise IndexError.
Proof.
  apply (get_draws_missing_column pooled2 pooled2 species3cols species3cols
           "N. incompta" 2 2 3 3
           (array1 [1 # 10; 2 # 10]) (array1 [1 # 100; 2 # 100])
           (array1 [3; 4]) (array1 [1 # 2; 1 # 4]) (array1 [5; 6])
           (array2 3 [[1; 2; 3]; [5; 6; 7]]))%Q.
  - reflexivity.
  - repeat split; reflexivity.
  - reflexivity.
  - reflexivity.
  - lia.
Defined.

(* ================================================================= *)
(** ** The draws of the seawater model *)

Lemma div2_double_lt (c j : nat) : j < Nat.div2 (c + 1) -> 2 * j < c.
Proof.
  intros H.
  destruct (Nat.Even_Odd_double (c + 1)) as [He Ho].
  destruct (Nat.Even_or_Odd (c + 1)) as [E | O].
  - apply He in E. unfold Nat.double in E. lia.
  - apply Ho in O. unfold Nat.double in O. lia.
Qed.

(** X5.  [get_sw_draws] thins the stored draws of the seawater model: of a
    table of [c] columns it keeps every second one, from column 0, and of
    those the first 1000 at most; entry [i, j] of the result is entry
    [i, 2 * j] of the table, a column the table has. *)
Theorem get_sw_draws_thinned (MGSW_POST : matfile) (beta_draws : ndarray)
    (n c : nat) :
  dict_get MGSW_POST "beta_draws" = Some beta_draws ->
  shape beta_draws = [n; c] ->
  exists out,
    get_sw_draws MGSW_POST = Ok out /\
    shape out = [n; Nat.min 1000 (Nat.div2 (c + 1))] /\
    forall i j, i < n -> j < Nat.min 1000 (Nat.div2 (c + 1)) ->
      2 * j < c /\ get out [i; j] = get beta_draws [i; 2 * j].
Proof.
  intros Hget Hsh. unfold get_sw_draws.
  rewrite (getitem_Some _ _ _ Hget). cbn [bind].
  unfold slice_cols_step2. rewrite Hsh. cbn [bind].
  unfold slice_cols_upto. cbn [shape build].
  eexists. split; [reflexivity|]. split; [reflexivity|].
  intros i j Hi Hj.
  assert (Hj' : j < Nat.div2 (c + 1)) by lia.
  split; [apply div2_double_lt, Hj'|].
  rewrite get_build by (apply in_range_2; assumption).
  rewrite get_build by (apply in_range_2; assumption).
  reflexivity.
Qed.

Lemma get_sw_draws_thinned_witness :
  exists out,
    get_sw_draws post5 = Ok out /\
    shape out = [2; Nat.min 1000 (Nat.div2 (5 + 1))] /\
    forall i j, i < 2 -> j < Nat.min 1000 (Nat.div2 (5 + 1)) ->
      2 * j < 5 /\
      get out [i; j]
      = get (array2 5 [[1; 2; 3; 4; 5]; [6; 7; 8; 9; 10]]%Q) [i; 2 * j].
Proof.
  apply (get_sw_draws_thinned post5
           (array2 5 [[1; 2; 3; 4; 5]; [6; 7; 8; 9; 10]]%Q) 2 5);
    reflexivity.
Defined.

(* ================================================================= *)
(** ** Seawater correction: outcomes, age bins, composition *)

Lemma normalize_index_in_range (n : nat) (t : Z) :
  (- Z.of_nat n <= t < Z.of_nat n)%Z ->
  exists k, normalize_index n t = Some k.
Proof.
  intros H. destruct (Z.ltb_spec t 0).
  - rewrite normalize_index_neg by lia. eauto.
  - rewrite normalize_index_nonneg by lia. eauto.
Qed.

Lemma broadcast_shapes_21 (n c m : nat) :
  broadcast_shapes [n; c] [m] =
  if c =? m then Some [n; c]
  else if c =? 1 then Some [n; m]
  else if m =? 1 then Some [n; c] else None.
Proof.
  unfold broadcast_shapes. simpl.
  destruct (c =? m); [reflexivity|].
  destruct (c =? 1); [reflexivity|].
  destruct (m =? 1); reflexivity.
Qed.

Section SeawaterOutcomes.

Variable MGSW_SMOOTH : matfile.
Variable curve : ndarray.
Variables r m : nat.
Hypothesis curve_loaded : dict_get MGSW_SMOOTH "mg_smooth" = Some curve.
Hypothesis curve_shape : shape curve = [r; m].

(** The call once the row lookup has succeeded: the ensemble against the
    ratio [mgsw] of row [k] to row 0. *)
Lemma sw_correction_row (p : MgCaPrediction) (k : nat) (age : Q)
    (f : option (unit -> result ndarray)) :
  normalize_index r (int (age * 2)) = Some k ->
  exists mgsw,
    shape mgsw = [m] /\
    (forall j, j < m ->
       get mgsw [j] = (get curve [k; j] / get curve [0%nat; j])%Q) /\
    sw_correction MGSW_SMOOTH p age f =
    (ens <- ufunc2 Qmult (ensemble p) mgsw ;;
     Ok (mk_Prediction ens (spp p))).
Proof.
  intros Ht.
  assert (Hr : 0 < r) by (apply normalize_index_lt in Ht; lia).
  unfold sw_correction, get_mgsw_smooth, getitem.
  rewrite curve_loaded. cbn [bind].
  rewrite (take_row_ok _ _ _ _ _ curve_shape Ht). cbn [bind].
  rewrite (take_row_ok _ r m 0 0 curve_shape)
    by (apply (normalize_index_nonneg r 0); lia).
  cbn [bind]. unfold divide.
  rewrite (ufunc2_ok _ _ _ [m]) by apply broadcast_shapes_refl.
  cbn [bind]. eexists. split; [|split]; cycle 2.
  { reflexivity. }
  { reflexivity. }
  intros j Hj. cbn [shape build].
  rewrite get_build by (apply in_range_1; exact Hj).
  unfold bindex. cbn [length skipn combine map Nat.sub fst snd].
  rewrite !bindex_axis by assumption.
  rewrite !get_build by (apply in_range_1; exact Hj).
  reflexivity.
Qed.

(** X6.  Once the row index is in bounds, the outcome of [sw_correction] on
    an ensemble of [c] columns and a curve of [m] draws is decided by the
    two counts: numpy's [ValueError] exactly when they differ and neither
    is 1; an ensemble of a single column is accepted and comes back widened
    to [m] columns, its one member scaled by the ratio of each draw. *)
Theorem sw_correction_column_counts (p : MgCaPrediction) (n c : nat)
    (age : Q) (f : option (unit -> result ndarray)) :
  shape (ensemble p) = [n; c] ->
  (- Z.of_nat r <= int (age * 2) < Z.of_nat r)%Z ->
  (raises (sw_correction MGSW_SMOOTH p age f) "ValueError" <->
   c <> m /\ c <> 1 /\ m <> 1) /\
  (c = 1 ->
   exists out k,
     normalize_index r (int (age * 2)) = Some k /\
     sw_correction MGSW_SMOOTH p age f = Ok out /\
     shape (ensemble out) = [n; m] /\
     forall i j, i < n -> j < m ->
       get (ensemble out) [i; j] =
       (get (ensemble p) [i; 0%nat]
        * (get curve [k; j] / get curve [0%nat; j]))%Q).
Proof.
  intros Hp Hin.
  destruct (normalize_index_in_range r _ Hin) as [k Hk].
  destruct (sw_correction_row p k age f Hk) as (mgsw & Sm & Gm & ->).
  unfold ufunc2. rewrite Hp, Sm, broadcast_shapes_21.
  split.
  - destruct (Nat.eqb_spec c m) as [E | N1].
    { cbn [bind]. split; [intros H; apply not_raises_Ok in H; tauto | lia]. }
    destruct (Nat.eqb_spec c 1) as [E | N2].
    { cbn [bind]. split; [intros H; apply not_raises_Ok in H; tauto | lia]. }
    destruct (Nat.eqb_spec m 1) as [E | N3].
    { cbn [bind]. split; [intros H; apply not_raises_Ok in H; tauto | lia]. }
    cbn [bind]. split; [auto|]. intros _. apply raises_Raise. reflexivity.
  - intros ->.
    assert (Hsh : (if 1 =? m then Some [n; 1]
                   else if 1 =? 1 then Some [n; m]
                   else if m =? 1 then Some [n; 1] else None)
                  = Some [n; m]).
    { destruct (Nat.eqb_spec 1 m) as [<- | _]; reflexivity. }
    rewrite Hsh. cbn [bind].
    eexists. exists k. split; [exact Hk|]. split; [reflexivity|].
    split; [reflexivity|].
    intros i j Hi Hj. cbn [ensemble].
    rewrite get_build by (apply in_range_2; assumption).
    unfold bindex. cbn [length skipn combine map Nat.sub fst snd Nat.eqb].
    rewrite !bindex_axis by assumption.
    rewrite Gm by exact Hj. reflexivity.
Qed.

End SeawaterOutcomes.

Lemma sw_correction_column_counts_witness :
  (raises (sw_correction curve3
             (mk_Prediction (array2 1 [[100]; [200]]%Q) "all") 1 None)
          "ValueError" <-> 1 <> 2 /\ 1 <> 1 /\ 2 <> 1) /\
  (1 = 1 ->
   exists out k,
     normalize_index 3 (int (1 * 2)) = Some k /\
     sw_correction curve3
       (mk_Prediction (array2 1 [[100]; [200]]%Q) "all") 1 None = Ok out /\
     shape (ensemble out) = [2; 2] /\
     forall i j, i < 2 -> j < 2 ->
       get (ensemble out) [i; j] =
       (get (array2 1 [[100]; [200]]) [i; 0%nat]
        * (get (array2 2 [[10; 10]; [9; 11]; [8; 12]]) [k; j]
           / get (array2 2 [[10; 10]; [9; 11]; [8; 12]]) [0%nat; j]))%Q).
Proof.
  apply (sw_correction_column_counts curve3
           (array2 2 [[10; 10]; [9; 11]; [8; 12]]%Q) 3 2 eq_refl eq_refl
           (mk_Prediction (array2 1 [[100]; [200]]%Q) "all") 2 1 1 None
           eq_refl).
  vm_compute. split; [discriminate | reflexivity].
Defined.

Lemma Qfloor_unique (x : Q) (k : Z) :
  (inject_Z k <= x)%Q -> (x < inject_Z k + 1)%Q -> Qfloor x = k.
Proof.
  intros Hlo Hhi.
  assert (H1 : (k <= Qfloor x)%Z).
  { rewrite <- (Qfloor_Z k). apply Qfloor_resp_le, Hlo. }
  assert (H2 : (Qfloor x < k + 1)%Z).
  { rewrite Zlt_Qlt. rewrite inject_Z_plus.
    eapply Qle_lt_trans; [apply Qfloor_le | exact Hhi]. }
  lia.
Qed.

(** The row index of the ages of a half-Ma step. *)
Lemma int_half_Ma_bin (age : Q) (k : Z) :
  (0 <= k)%Z ->
  (inject_Z k / 2 <= age)%Q -> (age < (inject_Z k + 1) / 2)%Q ->
  int (age * 2) = k.
Proof.
  intros Hk Hlo Hhi.
  assert (Hk' : (0 <= inject_Z k)%Q).
  { change 0%Q with (inject_Z 0). rewrite <- Zle_Qle. exact Hk. }
  assert (E1 : (inject_Z k / 2 == inject_Z k * (1 # 2))%Q) by (field).
  assert (E2 : ((inject_Z k + 1) / 2 == (inject_Z k + 1) * (1 # 2))%Q)
    by (field).
  rewrite E1 in Hlo. rewrite E2 in Hhi.
  rewrite int_floor by lra.
  apply Qfloor_unique; lra.
Qed.

(** Ages closer to zero than half a Ma have row index 0, on either side of
    zero. *)
Lemma int_window_zero (age : Q) :
  (- (1 # 2) < age)%Q -> (age < 1 # 2)%Q -> int (age * 2) = 0%Z.
Proof.
  intros Hlo Hhi.
  assert (H1 : (-1 < age * 2)%Q) by lra.
  assert (H2 : (age * 2 < 1)%Q) by lra.
  destruct (age * 2)%Q as [n d]. unfold int. simpl.
  unfold Qlt in H1, H2. simpl in H1, H2.
  apply Z.quot_small_iff; lia.
Qed.

(** X7.  The correction has half-Ma resolution: for an integer [k >= 0],
    every age from [k / 2] up to, not including, [(k + 1) / 2] gives exactly
    the outcome of age [k / 2] (the same ensemble or the same exception). *)
Theorem sw_correction_half_Ma_bins (MGSW_SMOOTH : matfile)
    (p : MgCaPrediction) (age : Q) (k : Z)
    (f : option (unit -> result ndarray)) :
  (0 <= k)%Z ->
  (inject_Z k / 2 <= age)%Q ->
  (age < (inject_Z k + 1) / 2)%Q ->
  sw_correction MGSW_SMOOTH p age f
  = sw_correction MGSW_SMOOTH p (inject_Z k / 2) f.
Proof.
  intros Hk Hlo Hhi.
  assert (E1 : int (age * 2) = k) by (apply int_half_Ma_bin; assumption).
  assert (E2 : int (inject_Z k / 2 * 2) = k).
  { apply int_half_Ma_bin; [exact Hk | apply Qle_refl |].
    assert (E : ((inject_Z k + 1) / 2 == inject_Z k / 2 + (1 # 2))%Q)
      by field.
    rewrite E. lra. }
  unfold sw_correction. rewrite E1, E2. reflexivity.
Qed.

Lemma sw_correction_half_Ma_bins_witness :
  sw_correction curve3 ensemble100 (13 # 10) None
  = sw_correction curve3 ensemble100 (inject_Z 2 / 2) None.
Proof.
  apply (sw_correction_half_Ma_bins curve3 ensemble100 (13 # 10) 2 None).
  - lia.
  - vm_compute. discriminate.
  - vm_compute. reflexivity.
Defined.

(** X8.  The row index is truncated towards zero, so present day reaches
    half a Ma into negative ages: every age strictly between -1/2 and 1/2
    gives exactly the outcome of age 0. *)
Theorem sw_correction_window_zero (MGSW_SMOOTH : matfile)
    (p : MgCaPrediction) (age : Q) (f : option (unit -> result ndarray)) :
  (- (1 # 2) < age)%Q ->
  (age < 1 # 2)%Q ->
  sw_correction MGSW_SMOOTH p age f = sw_correction MGSW_SMOOTH p 0 f.
Proof.
  intros Hlo Hhi. unfold sw_correction.
  rewrite (int_window_zero age Hlo Hhi). reflexivity.
Qed.

Lemma sw_correction_window_zero_witness :
  sw_correction curve3 ensemble100 (- (2 # 5)) None
  = sw_correction curve3 ensemble100 0 None.
Proof.
  apply (sw_correction_window_zero curve3 ensemble100 (- (2 # 5)) None);
    vm_compute; reflexivity.
Defined.

(** X9.  Corrections compose and commute: on an ensemble with one column per
    draw of the curve and two ages whose row indices are in bounds,
    correcting for one age and then for the other succeeds in either order,
    and both orders give ensembles of the same shape and species, equal
    entry by entry. *)
Theorem sw_correction_commute (MGSW_SMOOTH : matfile) (curve : ndarray)
    (r m n : nat) (p : MgCaPrediction) (a b : Q)
    (f : option (unit -> result ndarray)) :
  dict_get MGSW_SMOOTH "mg_smooth" = Some curve ->
  shape curve = [r; m] ->
  shape (ensemble p) = [n; m] ->
  (- Z.of_nat r <= int (a * 2) < Z.of_nat r)%Z ->
  (- Z.of_nat r <= int (b * 2) < Z.of_nat r)%Z ->
  exists pa pab pb pba,
    sw_correction MGSW_SMOOTH p a f = Ok pa /\
    sw_correction MGSW_SMOOTH pa b f = Ok pab /\
    sw_correction MGSW_SMOOTH p b f = Ok pb /\
    sw_correction MGSW_SMOOTH pb a f = Ok pba /\
    shape (ensemble pab) = shape (ensemble pba) /\
    spp pab = spp pba /\
    forall i j, i < n -> j < m ->
      (get (ensemble pab) [i; j] == get (ensemble pba) [i; j])%Q.
Proof.
  intros Hload Hcurve Hp Ha Hb.
  destruct (normalize_index_in_range r _ Ha) as [ka Hka].
  destruct (normalize_index_in_range r _ Hb) as [kb Hkb].
  destruct (sw_correction_in_bounds MGSW_SMOOTH curve r m Hload Hcurve
              p n ka a f Hp Hka) as (pa & Epa & Spa & Shpa & Gpa).
  destruct (sw_correction_in_bounds MGSW_SMOOTH curve r m Hload Hcurve
              pa n kb b f Shpa Hkb) as (pab & Epab & Spab & Shpab & Gpab).
  destruct (sw_correction_in_bounds MGSW_SMOOTH curve r m Hload Hcurve
              p n kb b f Hp Hkb) as (pb & Epb & Spb & Shpb & Gpb).
  destruct (sw_correction_in_bounds MGSW_SMOOTH curve r m Hload Hcurve
              pb n ka a f Shpb Hka) as (pba & Epba & Spba & Shpba & Gpba).
  exists pa, pab, pb, pba.
  repeat (split; [assumption|]).
  split; [congruence|]. split; [congruence|].
  intros i j Hi Hj.
  rewrite (Gpab i j Hi Hj), (Gpa i j Hi Hj), (Gpba i j Hi Hj),
    (Gpb i j Hi Hj).
  ring.
Qed.

Lemma sw_correction_commute_witness :
  exists pa pab pb pba,
    sw_correction curve3 ensemble100 (1 # 2) None = Ok pa /\
    sw_correction curve3 pa 1 None = Ok pab /\
    sw_correction curve3 ensemble100 1 None = Ok pb /\
    sw_correction curve3 pb (1 # 2) None = Ok pba /\
    shape (ensemble pab) = shape (ensemble pba) /\
    spp pab = spp pba /\
    forall i j, i < 1 -> j < 2 ->
      (get (ensemble pab) [i; j] == get (ensemble pba) [i; j])%Q.
Proof.
  apply (sw_correction_commute curve3
           (array2 2 [[10; 10]; [9; 11]; [8; 12]]%Q) 3 2 1 ensemble100
           (1 # 2) 1 None eq_refl eq_refl eq_refl);
    vm_compute; (split; [discriminate | reflexivity]).
Defined.

(* ================================================================= *)
(** ** Percentiles: order, extremes, scalar argument *)

Lemma insert_sorted (x : Q) (l : list Q) :
  StronglySorted Qle l -> StronglySorted Qle (insert x l).
Proof.
  intros H. induction H as [|y l Hs IH Hy]; simpl.
  - constructor; constructor.
  - destruct (Qle_bool x y) eqn:E.
    + apply Qle_bool_iff in E.
      constructor; [constructor; assumption|].
      constructor; [exact E|].
      rewrite Forall_forall in Hy |- *. intros z Hz.
      eapply Qle_trans; [exact E | apply Hy, Hz].
    + assert (Hyx : (y <= x)%Q).
      { destruct (Qlt_le_dec y x) as [Hlt | Hle];
          [apply Qlt_le_weak, Hlt|].
        apply Qle_bool_iff in Hle. congruence. }
      constructor; [exact IH|].
      rewrite Forall_forall in Hy |- *. intros z Hz.
      apply (Permutation_in _ (Permutation_sym (insert_perm x l))) in Hz.
      destruct Hz as [<- | Hz]; [exact Hyx | apply Hy, Hz].
Qed.

Lemma sort_sorted (l : list Q) : StronglySorted Qle (sort l).
Proof.
  induction l as [|x l IH]; simpl; [constructor | apply insert_sorted, IH].
Qed.

Lemma sorted_nth_le (l : list Q) (i j : nat) :
  StronglySorted Qle l -> i <= j -> j < length l ->
  (nth i l 0 <= nth j l 0)%Q.
Proof.
  intros H. revert i j.
  induction H as [|x l Hs IH Hx]; intros i j Hij Hj; simpl in Hj; [lia|].
  destruct i as [|i], j as [|j]; simpl; try lia.
  - apply Qle_refl.
  - rewrite Forall_forall in Hx. apply Hx, nth_In. lia.
  - apply IH; lia.
Qed.

Lemma around_mono (v w : Q) : (v <= w)%Q -> (around v <= around w)%Z.
Proof.
  intros H.
  assert (Hf : (Qfloor v <= Qfloor w)%Z) by (apply Qfloor_resp_le, H).
  assert (Hv1 := Qfloor_le v). assert (Hv2 := Qlt_floor v).
  assert (Hw1 := Qfloor_le w). assert (Hw2 := Qlt_floor w).
  rewrite inject_Z_plus in Hv2, Hw2.
  unfold around.
  destruct (Z.eq_dec (Qfloor v) (Qfloor w)) as [E | N].
  - rewrite <- E in *.
    destruct (Qcompare_spec (v - inject_Z (Qfloor v)) (1 # 2));
      destruct (Qcompare_spec (w - inject_Z (Qfloor v)) (1 # 2));
      try lia; try lra; destruct (Z.even (Qfloor v)); lia.
  - destruct (Qcompare_spec (v - inject_Z (Qfloor v)) (1 # 2));
      destruct (Qcompare_spec (w - inject_Z (Qfloor w)) (1 # 2));
      destruct (Z.even (Qfloor v)); destruct (Z.even (Qfloor w)); lia.
Qed.

Lemma around_inject_Z (v : Q) (z : Z) : (v == inject_Z z)%Q -> around v = z.
Proof.
  intros E. unfold around.
  assert (Hf : Qfloor v = z) by (rewrite E; apply Qfloor_Z).
  rewrite Hf.
  destruct (Qcompare_spec (v - inject_Z z) (1 # 2)) as [H | H | H];
    [lra | reflexivity | lra].
Qed.

(** Under "nearest" the percentile grows with its rank. *)
Lemma percentile1_nearest_mono (l : list Q) (q q' : Q) :
  l <> [] -> (0 <= q)%Q -> (q <= q')%Q -> (q' <= 100)%Q ->
  (percentile1 "nearest" l q <= percentile1 "nearest" l q')%Q.
Proof.
  intros Hne H0 Hqq H100.
  unfold percentile1. simpl String.eqb. cbv iota.
  assert (Hlen : 0 < length l) by (destruct l; [contradiction | simpl; lia]).
  set (N := Z.of_nat (length l - 1)).
  assert (HN : (0 <= inject_Z N)%Q).
  { change 0%Q with (inject_Z 0). rewrite <- Zle_Qle. subst N. lia. }
  destruct (virtual_index_bounds q N ltac:(subst N; lia) H0 ltac:(lra))
    as [Hv0 HvN].
  destruct (virtual_index_bounds q' N ltac:(subst N; lia) ltac:(lra) H100)
    as [Hw0 HwN].
  assert (Hvw : (q / 100 * inject_Z N <= q' / 100 * inject_Z N)%Q).
  { apply Qmult_le_compat_r; [|exact HN].
    unfold Qdiv. apply Qmult_le_compat_r; [exact Hqq | discriminate]. }
  destruct (around_bounds _ N Hv0 HvN) as [Ha0 HaN].
  destruct (around_bounds _ N Hw0 HwN) as [Hb0 HbN].
  assert (Hab := around_mono _ _ Hvw).
  apply sorted_nth_le; [apply sort_sorted | lia |].
  rewrite length_sort. subst N. lia.
Qed.

(** The rows and the entries of the summary of a 2-d ensemble, under any of
    numpy's rules. *)
Lemma percentile_entries (p : Prediction) (n m : nat) (qs : list Q)
    (interpolation : string) :
  shape (ensemble p) = [n; m] ->
  0 < m ->
  Forall (fun q => (0 <= q)%Q /\ (q <= 100)%Q) qs ->
  In interpolation interpolations ->
  exists perc,
    percentile p (Some (QSeq qs)) interpolation = Ok perc /\
    shape perc = [n; length qs] /\
    forall i k, i < n -> k < length qs ->
      get perc [i; k] =
      percentile1 interpolation (row (ensemble p) i) (nth k qs 0%Q).
Proof.
  intros Hp Hm Hqs Hint.
  unfold percentile, np_percentile. simpl qvalues.
  assert (Hrange :
    forallb (fun x => Qle_bool 0 x && Qle_bool x 100) qs = true).
  { apply forallb_forall. intros x Hx.
    rewrite Forall_forall in Hqs. destruct (Hqs x Hx) as [H0 H100].
    apply andb_true_iff. split; apply Qle_bool_iff; assumption. }
  assert (Hvalid : existsb (String.eqb interpolation) interpolations = true).
  { apply existsb_exists. exists interpolation.
    split; [exact Hint | apply String.eqb_refl]. }
  rewrite Hrange, Hp, Hvalid. cbn [negb].
  destruct (Nat.eqb_spec m 0) as [Hm0 | _]; [lia|].
  cbn [bind].
  eexists. split; [reflexivity|]. split; [reflexivity|].
  intros i k Hi Hk.
  unfold transpose. cbn [shape build rev app].
  rewrite get_build by (apply in_range_2; assumption).
  cbn [rev app].
  rewrite get_build by (apply in_range_2; assumption).
  unfold row. rewrite Hp. reflexivity.
Qed.

Lemma row_not_nil (a : ndarray) (n m i : nat) :
  shape a = [n; m] -> 0 < m -> row a i <> [].
Proof.
  intros Ha Hm. unfold row. rewrite Ha. simpl.
  destruct m; [lia | discriminate].
Qed.

(** X10.  Under "nearest" the summary is ordered as the requested
    percentiles are: for a list of percentiles in [0, 100], whenever one
    requested percentile is at most another, the value reported for it is at
    most the value reported for the other, for every observation.  With the
    default list [5, 50, 95] the three columns are in ascending order. *)
Theorem percentile_nearest_monotone (p : Prediction) (n m : nat)
    (qs : list Q) :
  shape (ensemble p) = [n; m] ->
  0 < m ->
  Forall (fun q => (0 <= q)%Q /\ (q <= 100)%Q) qs ->
  (exists perc,
     percentile p (Some (QSeq qs)) "nearest" = Ok perc /\
     forall i k k', i < n -> k < length qs -> k' < length qs ->
       (nth k qs 0 <= nth k' qs 0)%Q ->
       (get perc [i; k] <= get perc [i; k'])%Q) /\
  (exists perc,
     percentile p None "nearest" = Ok perc /\
     shape perc = [n; 3] /\
     forall i, i < n ->
       (get perc [i; 0%nat] <= get perc [i; 1%nat])%Q /\
       (get perc [i; 1%nat] <= get perc [i; 2%nat])%Q).
Proof.
  intros Hp Hm Hqs.
  assert (Hnear : In "nearest" interpolations) by (simpl; tauto).
  split.
  - destruct (percentile_entries p n m qs "nearest" Hp Hm Hqs Hnear)
      as (perc & E & _ & G).
    exists perc. split; [exact E|].
    intros i k k' Hi Hk Hk' Hle.
    rewrite (G i k Hi Hk), (G i k' Hi Hk').
    rewrite Forall_forall in Hqs.
    destruct (Hqs _ (nth_In qs 0%Q Hk)) as [H0 _].
    destruct (Hqs _ (nth_In qs 0%Q Hk')) as [_ H100].
    apply percentile1_nearest_mono; try assumption.
    apply (row_not_nil _ n m); assumption.
  - assert (Hdef : Forall (fun q => (0 <= q)%Q /\ (q <= 100)%Q)
                     [5%Q; 50%Q; 95%Q]).
    { repeat constructor; discriminate. }
    destruct (percentile_entries p n m _ "nearest" Hp Hm Hdef Hnear)
      as (perc & E & Sh & G).
    exists perc. split; [exact E|]. split; [exact Sh|].
    intros i Hi.
    rewrite (G i 0), (G i 1), (G i 2) by (simpl; lia).
    split; apply percentile1_nearest_mono;
      try (apply (row_not_nil _ n m); assumption);
      simpl; discriminate.
Qed.

Lemma percentile_nearest_monotone_witness :
  (exists perc,
     percentile ensemble34 (Some (QSeq [95; 5; 50]%Q)) "nearest" = Ok perc /\
     forall i k k', i < 3 -> k < 3 -> k' < 3 ->
       (nth k [95; 5; 50] 0 <= nth k' [95; 5; 50] 0)%Q ->
       (get perc [i; k] <= get perc [i; k'])%Q) /\
  (exists perc,
     percentile ensemble34 None "nearest" = Ok perc /\
     shape perc = [3; 3] /\
     forall i, i < 3 ->
       (get perc [i; 0%nat] <= get perc [i; 1%nat])%Q /\
       (get perc [i; 1%nat] <= get perc [i; 2%nat])%Q).
Proof.
  apply (percentile_nearest_monotone ensemble34 3 4 [95; 5; 50]%Q).
  - reflexivity.
  - lia.
  - repeat constructor; discriminate.
Defined.

Lemma percentile1_nearest_0 (l : list Q) (x : Q) :
  In x l -> (percentile1 "nearest" l 0 <= x)%Q.
Proof.
  intros Hx. unfold percentile1. simpl String.eqb. cbv iota.
  rewrite (around_inject_Z _ 0)
    by (unfold Qdiv; rewrite !Qmult_0_l; reflexivity).
  apply (Permutation_in _ (sort_perm l)) in Hx.
  destruct (In_nth _ _ 0%Q Hx) as (i & Hi & <-).
  apply sorted_nth_le; [apply sort_sorted | simpl; lia | exact Hi].
Qed.

Lemma percentile1_nearest_100 (l : list Q) (x : Q) :
  In x l -> (x <= percentile1 "nearest" l 100)%Q.
Proof.
  intros Hx. unfold percentile1. simpl String.eqb. cbv iota.
  rewrite (around_inject_Z _ (Z.of_nat (length l - 1))).
  2:{ assert (E : (100 / 100 == 1)%Q) by reflexivity.
      rewrite E. apply Qmult_1_l. }
  apply (Permutation_in _ (sort_perm l)) in Hx.
  destruct (In_nth _ _ 0%Q Hx) as (i & Hi & <-).
  rewrite Nat2Z.id.
  assert (Hlen := length_sort l).
  apply sorted_nth_le; [apply sort_sorted | lia | lia].
Qed.

(** X11.  Under "nearest" the percentiles 0 and 100 are the extremes of the
    ensemble: for every observation the value reported for 0 is at most
    every ensemble member of that observation, and the value reported for
    100 is at least every member. *)
Theorem percentile_nearest_extremes (p : Prediction) (n m : nat) :
  shape (ensemble p) = [n; m] ->
  0 < m ->
  exists perc,
    percentile p (Some (QSeq [0; 100]%Q)) "nearest" = Ok perc /\
    forall i x, i < n -> In x (row (ensemble p) i) ->
      (get perc [i; 0%nat] <= x)%Q /\ (x <= get perc [i; 1%nat])%Q.
Proof.
  intros Hp Hm.
  assert (Hqs : Forall (fun q => (0 <= q)%Q /\ (q <= 100)%Q) [0%Q; 100%Q]).
  { repeat constructor; discriminate. }
  assert (Hnear : In "nearest" interpolations) by (simpl; tauto).
  destruct (percentile_entries p n m _ "nearest" Hp Hm Hqs Hnear)
    as (perc & E & _ & G).
  exists perc. split; [exact E|].
  intros i x Hi Hx.
  rewrite (G i 0), (G i 1) by (simpl; lia).
  split; [apply percentile1_nearest_0 | apply percentile1_nearest_100];
    exact Hx.
Qed.

Lemma percentile_nearest_extremes_witness :
  exists perc,
    percentile ensemble34 (Some (QSeq [0; 100]%Q)) "nearest" = Ok perc /\
    forall i x, i < 3 -> In x (row (ensemble ensemble34) i) ->
      (get perc [i; 0%nat] <= x)%Q /\ (x <= get perc [i; 1%nat])%Q.
Proof.
  apply (percentile_nearest_extremes ensemble34 3 4); [reflexivity | lia].
Defined.

(** X12.  A single percentile passed as a number, not as a list, gives a
    1-d summary of one value per observation, and that value is the one the
    list of that single percentile gives in its only column; this holds for
    each of numpy's interpolation rules. *)
Theorem percentile_scalar_argument (p : Prediction) (n m : nat) (q : Q)
    (interpolation : string) :
  shape (ensemble p) = [n; m] ->
  0 < m ->
  (0 <= q)%Q -> (q <= 100)%Q ->
  In interpolation interpolations ->
  exists perc perc',
    percentile p (Some (QScalar q)) interpolation = Ok perc /\
    percentile p (Some (QSeq [q])) interpolation = Ok perc' /\
    shape perc = [n] /\ shape perc' = [n; 1] /\
    forall i, i < n -> get perc [i] = get perc' [i; 0].
Proof.
  intros Hp Hm H0 H100 Hint.
  assert (Hqs : Forall (fun q => (0 <= q)%Q /\ (q <= 100)%Q) [q]).
  { repeat constructor; assumption. }
  destruct (percentile_entries p n m _ interpolation Hp Hm Hqs Hint)
    as (perc' & E' & Sh' & G').
  unfold percentile, np_percentile in *. simpl qvalues in *.
  assert (Hrange :
    forallb (fun x => Qle_bool 0 x && Qle_bool x 100) [q] = true).
  { simpl. rewrite andb_true_r. apply andb_true_iff.
    split; apply Qle_bool_iff; assumption. }
  assert (Hvalid : existsb (String.eqb interpolation) interpolations = true).
  { apply existsb_exists. exists interpolation.
    split; [exact Hint | apply String.eqb_refl]. }
  rewrite Hrange, Hp, Hvalid in *. cbn [negb] in *.
  destruct (Nat.eqb_spec m 0) as [Hm0 | _]; [lia|].
  cbn [bind] in *.
  eexists. exists perc'. split; [reflexivity|]. split; [exact E'|].
  split; [reflexivity|]. split; [exact Sh'|].
  intros i Hi. rewrite (G' i 0 Hi) by (simpl; lia).
  unfold transpose. cbn [shape build rev app].
  rewrite get_build by (apply in_range_1; exact Hi).
  cbn [rev app].
  rewrite get_build by (apply in_range_1; exact Hi).
  unfold row. rewrite Hp. reflexivity.
Qed.

Lemma percentile_scalar_argument_witness :
  exists perc perc',
    percentile ensemble34 (Some (QScalar 50)) "linear" = Ok perc /\
    percentile ensemble34 (Some (QSeq [50%Q])) "linear" = Ok perc' /\
    shape perc = [3] /\ shape perc' = [3; 1] /\
    forall i, i < 3 -> get perc [i] = get perc' [i; 0].
Proof.
  apply (percentile_scalar_argument ensemble34 3 4 50 "linear").
  - reflexivity.
  - lia.
  - discriminate.
  - discriminate.
  - simpl. tauto.
Defined.

(* ================================================================= *)
(** ** The ensemble predictor: species validation *)

Lemma get_draws_unknown (P PS S : matfile) (tok : string) :
  ~ In (normalize tok) canonical ->
  get_draws P PS S tok = Raise (AssertionError (assert_msg P PS S tok)).
Proof.
  intros Hnot. rewrite get_draws_unfold.
  destruct (dict_get (draws_map P PS S) (normalize tok)) as [[f idx]|] eqn:E;
    [|reflexivity].
  exfalso. apply Hnot.
  apply (in_keys_canonical P PS S), in_keys_dict_get. eauto.
Qed.

(** X13.  The species is validated before any covariate is combined with
    another: with a token that does not normalize to a canonical identifier,
    [predict_mgca] on the bundled draws raises the [AssertionError] of
    [get_draws] whatever the lengths of the covariates, matching or not.
    One statement runs before the draws are fetched, [omega ** -2]: with
    the Python scalar zero as [omega] its [ZeroDivisionError] comes
    first. *)
Theorem predict_mgca_unknown_species (P PS S : matfile)
    (rng : Type) (normal : rng -> Q -> Q -> Q * rng) (exp : Q -> Q)
    (seatemp cleaning salinity ph omega : ndarray) (tok : string) (g : rng) :
  ~ In (normalize tok) canonical ->
  predict_mgca rng normal exp seatemp cleaning salinity ph omega tok
    (get_draws P PS S) g
  = Raise (if is_zero_scalar omega then ZeroDivisionError
           else AssertionError (assert_msg P PS S tok)).
Proof.
  intros Hnot. apply predict_mgca_raise.
  destruct (is_zero_scalar omega) eqn:Hz;
    [apply predict_mgca_mu_zero_scalar; exact Hz|].
  unfold predict_mgca_mu. rewrite (pow_neg2_defined _ Hz). cbn [bind].
  rewrite (get_draws_unknown P PS S tok Hnot).
  reflexivity.
Qed.

Lemma predict_mgca_unknown_species_witness :
  predict_mgca unit (fun g loc _ => (loc, g)) (fun x => x)
    seatemp2 cleaning2 salinity2 ph3 omega2 "G. menardii"
    (get_draws pooled2 pooled2 species2) tt
  = Raise (AssertionError
             (assert_msg pooled2 pooled2 species2 "G. menardii")).
Proof.
  change (AssertionError (assert_msg pooled2 pooled2 species2 "G. menardii"))
    with (if is_zero_scalar omega2 then ZeroDivisionError
          else AssertionError
                 (assert_msg pooled2 pooled2 species2 "G. menardii")).
  apply (predict_mgca_unknown_species pooled2 pooled2 species2).
  vm_compute. intros H.
  repeat destruct H as [H | H]; try discriminate H; exact H.
Defined.

(* ================================================================= *)
(** ** The ensemble predictor on the pooled calibrations *)

Lemma predict_mgca_mu_scale (seatemp cleaning salinity ph omega : ndarray)
    (tok : string) (drawsfun : string -> result draws_t)
    (al bt bs bo bp bc sg mu scale : ndarray) :
  drawsfun tok = Ok (al, bt, bs, bo, bp, bc, sg) ->
  predict_mgca_mu seatemp cleaning salinity ph omega tok drawsfun
  = Ok (mu, scale) ->
  scale = transpose (tile sg (size (atleast_1d seatemp))).
Proof.
  intros Hd H.
  pose proof (predict_mgca_mu_Ok_defined _ _ _ _ _ _ _ _ H) as Hz.
  unfold predict_mgca_mu in H. rewrite (pow_neg2_defined _ Hz) in H.
  cbn [bind] in H. rewrite Hd in H. cbn [bind] in H.
  repeat match type of H with
         | bind _ _ = Ok _ =>
             let x := fresh "x" in
             let E := fresh "E" in
             apply bind_Ok_inv in H; destruct H as (x & E & H)
         end.
  injection H as _ <-. reflexivity.
Qed.

Lemma get_nonneg (a : ndarray) (idx : list nat) :
  nonneg a -> (0 <= get a idx)%Q.
Proof.
  intros H. unfold get.
  destruct (nth_in_or_default (ravel (shape a) idx) (data a) 0%Q)
    as [Hin | ->]; [|apply Qle_refl].
  unfold nonneg in H. rewrite Forall_forall in H. apply H, Hin.
Qed.

Lemma nonneg_build (sh : list nat) (f : list nat -> Q) :
  (forall idx, (0 <= f idx)%Q) -> nonneg (build sh f).
Proof.
  intros H. unfold nonneg, build. simpl.
  apply Forall_forall. intros x Hx.
  apply in_map_iff in Hx. destruct Hx as (idx & <- & _). apply H.
Qed.

Lemma nonneg_tile (a : ndarray) (n : nat) : nonneg a -> nonneg (tile a n).
Proof.
  intros H. unfold tile.
  destruct (rev (shape a)); apply nonneg_build; intros idx;
    [apply get_nonneg, H|].
  destruct (rev idx); [apply Qle_refl | apply get_nonneg, H].
Qed.

Lemma nonneg_transpose (a : ndarray) : nonneg a -> nonneg (transpose a).
Proof.
  intros H. apply nonneg_build. intros idx. apply get_nonneg, H.
Qed.

Lemma nonneg_scale_ok (a : ndarray) :
  nonneg a -> existsb (fun s => negb (Qle_bool 0 s)) (data a) = false.
Proof.
  intros H. unfold nonneg in H.
  induction H as [|x l Hx _ IH]; simpl; [reflexivity|].
  apply Qle_bool_iff in Hx. rewrite Hx, IH. reflexivity.
Qed.

Lemma map_seq_ext {A : Type} (F G : nat -> A) (s n : nat) :
  (forall i, s <= i < s + n -> F i = G i) ->
  map F (seq s n) = map G (seq s n).
Proof.
  intros H. apply map_ext_in. intros i Hi. apply in_seq in Hi. apply H, Hi.
Qed.

Lemma flat_map_seq_ext {A : Type} (F G : nat -> list A) (s n : nat) :
  (forall i, s <= i < s + n -> F i = G i) ->
  flat_map F (seq s n) = flat_map G (seq s n).
Proof.
  revert s. induction n as [|n IH]; intros s H; simpl; [reflexivity|].
  rewrite (H s) by lia. f_equal. apply IH. intros i Hi. apply H. lia.
Qed.

(** A map over the indices of a 2-d shape, row by row. *)
Lemma map_all_indices_2 {A : Type} (F : list nat -> A) (G : nat -> nat -> A)
    (n m : nat) :
  (forall i j, i < n -> j < m -> F [i; j] = G i j) ->
  map F (all_indices [n; m])
  = flat_map (fun i => map (G i) (seq 0 m)) (seq 0 n).
Proof.
  intros H. simpl all_indices.
  rewrite flat_map_concat_map, concat_map, map_map, <- flat_map_concat_map.
  apply flat_map_seq_ext. intros i Hi.
  rewrite map_map.
  rewrite flat_map_concat_map, concat_map, map_map, <- flat_map_concat_map.
  simpl map at 1.
  assert (E : forall l : list nat,
             flat_map (fun x => [F [i; x]]) l = map (fun j => F [i; j]) l).
  { induction l as [|x l IHl]; simpl; [reflexivity | f_equal; exact IHl]. }
  rewrite E. apply map_seq_ext. intros j Hj. apply H; lia.
Qed.

Lemma pooled_token_not_pachy (P PS S f : matfile) (tok : string) :
  dict_get (draws_map P PS S) (normalize tok) = Some (f, None) ->
  String.eqb tok "pachy" = false.
Proof.
  intros H. destruct (String.eqb_spec tok "pachy") as [-> | _];
    [|reflexivity].
  vm_compute in H. discriminate H.
Qed.

Section PooledCalibration.

Variables P PS S f : matfile.
Variable tok : string.
Variable m : nat.
Variables bt bs bo bc bp alpha0 sigma0 : ndarray.
Hypothesis pooled_entry :
  dict_get (draws_map P PS S) (normalize tok) = Some (f, None).
Hypothesis slopes : has_slopes f m bt bs bo bc bp.
Hypothesis intercept : has_intercept f [m] alpha0 sigma0.

Variables seatemp cleaning salinity ph omega : ndarray.
Variable n : nat.
Hypothesis seatemp_length : covariate_length seatemp n.
Hypothesis cleaning_length : covariate_length cleaning n.
Hypothesis salinity_length : covariate_length salinity n.
Hypothesis ph_length : covariate_length ph n.
Hypothesis omega_length : covariate_length omega n.
Hypothesis omega_nonzero : nonzero_entries omega.

Lemma get_draws_pooled_content :
  get_draws P PS S tok =
  Ok (mk_ndarray [m; 1] (data alpha0), bt, bs, bo, bp, bc,
      mk_ndarray [m; 1] (data sigma0)).
Proof.
  rewrite get_draws_unfold, pooled_entry.
  apply copy_draws_pooled_content; assumption.
Qed.

(** The linear predictor and the deviations handed to the sampler, in terms
    of the arrays the resource stores. *)
Lemma predict_mgca_mu_pooled_store :
  exists mu scale,
    predict_mgca_mu seatemp cleaning salinity ph omega tok
      (get_draws P PS S) = Ok (mu, scale) /\
    shape mu = [n; m] /\ shape scale = [n; m] /\
    forall i j, i < n -> j < m ->
      get mu [i; j] =
      (get alpha0 [j]
       + get bt [j] * get (atleast_1d seatemp) [i]
       + get bo [j] * (get (atleast_1d omega) [i]) ^ (-2)
       + get bs [j] * get (atleast_1d salinity) [i]
       + (1 - get bc [j] * get (atleast_1d cleaning) [i])
       + get bp [j] * get (atleast_1d ph) [i])%Q /\
      get scale [i; j] = get sigma0 [j].
Proof.
  destruct slopes as (_ & _ & _ & _ & _ & St & Ss & So & Sc & Sp).
  destruct intercept as (_ & _ & Sa & Sg).
  destruct (predict_mgca_mu_pooled seatemp cleaning salinity ph omega n
              seatemp_length cleaning_length salinity_length ph_length
              omega_length omega_nonzero (get_draws P PS S) tok
              (mk_ndarray [m; 1] (data alpha0)) bt bs bo bp bc
              (mk_ndarray [m; 1] (data sigma0)) m get_draws_pooled_content)
    as (mu & scale & E & Shmu & G).
  { cbn. auto 10. }
  exists mu, scale. split; [exact E|]. split; [exact Shmu|].
  assert (Hscale := predict_mgca_mu_scale _ _ _ _ _ _ _ _ _ _ _ _ _ _ _ _
                      get_draws_pooled_content E).
  assert (Hn : size (atleast_1d seatemp) = n).
  { unfold size. rewrite seatemp_length. simpl. lia. }
  rewrite Hn in Hscale.
  split.
  - rewrite Hscale, (shape_tile_transpose_2 _ m 1 n) by reflexivity.
    f_equal. lia.
  - intros i j Hi Hj. split.
    + rewrite (G i j Hi Hj), (pooled_token_not_pachy _ _ _ _ _ pooled_entry).
      unfold mu_base. rewrite get_newaxis1, get_reshape by exact Sa.
      reflexivity.
    + rewrite Hscale.
      destruct (get_tile_transpose_column
                  (mk_ndarray [m; 1] (data sigma0)) n m i j eq_refl Hi Hj)
        as [_ ->].
      rewrite get_newaxis1, get_reshape by exact Sg. reflexivity.
Qed.

(** X15.  For a token that [draws_map] sends, after normalization, to a
    pooled resource ('all', 'all_sea'), covariates of one common length
    [n] and an [omega] without a zero entry (so that [omega ** -2] is
    defined), the linear predictor is computed for every observation [i] and
    draw [j] as
    [alpha[j] + betaT[j] * seatemp[i] + betaO[j] * omega[i]^-2
     + betaS[j] * salinity[i] + (1 - betaC[j] * cleaning[i])
     + betaP[j] * ph[i]]
    on the arrays the resource stores, and the standard deviation handed to
    the sampler for that entry is [sigma[j]]. *)
Theorem predict_mgca_pooled_predictor :
  exists mu scale,
    predict_mgca_mu seatemp cleaning salinity ph omega tok
      (get_draws P PS S) = Ok (mu, scale) /\
    shape mu = [n; m] /\ shape scale = [n; m] /\
    forall i j, i < n -> j < m ->
      get mu [i; j] =
      (get alpha0 [j]
       + get bt [j] * get (atleast_1d seatemp) [i]
       + get bo [j] * (get (atleast_1d omega) [i]) ^ (-2)
       + get bs [j] * get (atleast_1d salinity) [i]
       + (1 - get bc [j] * get (atleast_1d cleaning) [i])
       + get bp [j] * get (atleast_1d ph) [i])%Q /\
      get scale [i; j] = get sigma0 [j].
Proof.
  destruct slopes as (_ & _ & _ & _ & _ & St & Ss & So & Sc & Sp).
  destruct intercept as (_ & _ & Sa & Sg).
  destruct (predict_mgca_mu_pooled seatemp cleaning salinity ph omega n
              seatemp_length cleaning_length salinity_length ph_length
              omega_length omega_nonzero (get_draws P PS S) tok
              (mk_ndarray [m; 1] (data alpha0)) bt bs bo bp bc
              (mk_ndarray [m; 1] (data sigma0)) m get_draws_pooled_content)
    as (mu & scale & E & Shmu & G).
  { cbn. auto 10. }
  exists mu, scale. split; [exact E|]. split; [exact Shmu|].
  assert (Hscale := predict_mgca_mu_scale _ _ _ _ _ _ _ _ _ _ _ _ _ _ _ _
                      get_draws_pooled_content E).
  assert (Hn : size (atleast_1d seatemp) = n).
  { unfold size. rewrite seatemp_length. simpl. lia. }
  rewrite Hn in Hscale.
  split.
  - rewrite Hscale, (shape_tile_transpose_2 _ m 1 n) by reflexivity.
    f_equal. lia.
  - intros i j Hi Hj. split.
    + rewrite (G i j Hi Hj), (pooled_token_not_pachy _ _ _ _ _ pooled_entry).
      unfold mu_base. rewrite get_newaxis1, get_reshape by exact Sa.
      reflexivity.
    + rewrite Hscale.
      destruct (get_tile_transpose_column
                  (mk_ndarray [m; 1] (data sigma0)) n m i j eq_refl Hi Hj)
        as [_ ->].
      rewrite get_newaxis1, get_reshape by exact Sg. reflexivity.
Qed.

Variable rng : Type.
Variable normal : rng -> Q -> Q -> Q * rng.
Variable exp : Q -> Q.

(** X16.  On the pooled path with non-negative deviations and an [omega]
    without a zero entry, [predict_mgca] returns an ensemble of [n] observations by [m] draws tagged with the
    token as passed; its values are the exponentials of one Gaussian draw
    per entry, taken from the generator in row-major order, entry [i, j]
    with mean [mu[i, j]] and standard deviation [sigma[j]]; the generator
    is left in the state after the last of these draws. *)
Theorem predict_mgca_pooled_ensemble (g : rng) :
  nonneg sigma0 ->
  exists mu scale,
    predict_mgca_mu seatemp cleaning salinity ph omega tok
      (get_draws P PS S) = Ok (mu, scale) /\
    predict_mgca rng normal exp seatemp cleaning salinity ph omega tok
      (get_draws P PS S) g =
    Ok (mk_Prediction
          (mk_ndarray [n; m]
             (map exp
                (fst (draw_all rng normal
                        (sampling_plan n m (fun i j => get mu [i; j])
                           (fun j => get sigma0 [j])) g))))
          tok,
        snd (draw_all rng normal
               (sampling_plan n m (fun i j => get mu [i; j])
                  (fun j => get sigma0 [j])) g)).
Proof.
  intros Hnn.
  destruct predict_mgca_mu_pooled_store
    as (mu & scale & E & Shmu & Shsc & G).
  exists mu, scale. split; [exact E|].
  assert (Hscale := predict_mgca_mu_scale _ _ _ _ _ _ _ _ _ _ _ _ _ _ _ _
                      get_draws_pooled_content E).
  assert (Hsc : existsb (fun s => negb (Qle_bool 0 s)) (data scale) = false).
  { apply nonneg_scale_ok. rewrite Hscale.
    apply nonneg_transpose, nonneg_tile. exact Hnn. }
  unfold predict_mgca. rewrite E. cbn [bind].
  unfold random_normal. rewrite Hsc, Shmu, Shsc, broadcast_shapes_refl.
  rewrite (map_all_indices_2 _
             (fun i j => (get mu [i; j], get sigma0 [j])) n m).
  2:{ intros i j Hi Hj. unfold bindex.
      cbn [length skipn combine map Nat.sub fst snd].
      rewrite !bindex_axis by assumption.
      destruct (G i j Hi Hj) as [_ ->]. reflexivity. }
  fold (sampling_plan n m (fun i j => get mu [i; j])
          (fun j => get sigma0 [j])).
  destruct (draw_all rng normal _ g) as [xs g']. reflexivity.
Qed.

End PooledCalibration.

Lemma predict_mgca_pooled_predictor_witness :
  exists mu scale,
    predict_mgca_mu seatemp2 cleaning2 salinity2 ph2 omega2 "all_sea"
      (get_draws pooled2 pooled2 species2) = Ok (mu, scale) /\
    shape mu = [2; 2] /\ shape scale = [2; 2] /\
    forall i j, i < 2 -> j < 2 ->
      get mu [i; j] =
      (get (array1 [7; 8]) [j]
       + get (array1 [1 # 10; 2 # 10]) [j] * get (atleast_1d seatemp2) [i]
       + get (array1 [3; 4]) [j] * (get (atleast_1d omega2) [i]) ^ (-2)
       + get (array1 [1 # 100; 2 # 100]) [j]
         * get (atleast_1d salinity2) [i]
       + (1 - get (array1 [1 # 2; 1 # 4]) [j]
              * get (atleast_1d cleaning2) [i])
       + get (array1 [5; 6]) [j] * get (atleast_1d ph2) [i])%Q /\
      get scale [i; j] = get (array1 [1; 2]%Q) [j].
Proof.
  apply (predict_mgca_pooled_predictor pooled2 pooled2 species2 pooled2
           "all_sea" 2).
  - reflexivity.
  - repeat split; reflexivity.
  - repeat split; reflexivity.
  - reflexivity.
  - reflexivity.
  - reflexivity.
  - reflexivity.
  - reflexivity.
  - apply nonzero_entries_check. reflexivity.
Defined.

Lemma predict_mgca_pooled_ensemble_witness :
  exists mu scale,
    predict_mgca_mu seatemp2 cleaning2 salinity2 ph2 omega2 "all"
      (get_draws pooled2 pooled2 species2) = Ok (mu, scale) /\
    predict_mgca unit (fun g loc _ => (loc, g)) (fun x => x)
      seatemp2 cleaning2 salinity2 ph2 omega2 "all"
      (get_draws pooled2 pooled2 species2) tt =
    Ok (mk_Prediction
          (mk_ndarray [2; 2]
             (map (fun x => x)
                (fst (draw_all unit (fun g loc _ => (loc, g))
                        (sampling_plan 2 2 (fun i j => get mu [i; j])
                           (fun j => get (array1 [1; 2]%Q) [j])) tt))))
          "all",
        snd (draw_all unit (fun g loc _ => (loc, g))
               (sampling_plan 2 2 (fun i j => get mu [i; j])
                  (fun j => get (array1 [1; 2]%Q) [j])) tt)).
Proof.
  apply (predict_mgca_pooled_ensemble pooled2 pooled2 species2 pooled2
           "all" 2 (array1 [1 # 10; 2 # 10]) (array1 [1 # 100; 2 # 100])
           (array1 [3; 4]) (array1 [1 # 2; 1 # 4]) (array1 [5; 6])
           (array1 [7; 8]) (array1 [1; 2]))%Q.
  - reflexivity.
  - repeat split; reflexivity.
  - repeat split; reflexivity.
  - reflexivity.
  - reflexivity.
  - reflexivity.
  - reflexivity.
  - reflexivity.
  - apply nonzero_entries_check. reflexivity.
  - repeat constructor; discriminate.
Defined.

(* ================================================================= *)
(** ** The ensemble predictor on the hierarchical calibration *)

Lemma get_tile_one_vector (al : ndarray) (m j : nat) :
  shape al = [m] -> j < m ->
  shape (transpose (tile al 1)) = [m * 1] /\
  get (transpose (tile al 1)) [j] = get al [j].
Proof.
  intros Hal Hj.
  assert (Hti : shape (tile al 1) = [m * 1]).
  { unfold tile. rewrite Hal. reflexivity. }
  split; [unfold transpose; cbn [shape build]; rewrite Hti; reflexivity|].
  unfold transpose. rewrite Hti. cbn [rev app].
  rewrite get_build by (apply in_range_1; lia).
  cbn [rev app]. unfold tile. rewrite Hal. cbn [rev app].
  rewrite get_build by (apply in_range_1; lia).
  cbn [rev app]. rewrite Nat.mod_small by exact Hj. reflexivity.
Qed.

Lemma broadcast_shapes_vector_row (m : nat) :
  broadcast_shapes [m] [1; m] = Some [1; m].
Proof.
  unfold broadcast_shapes. simpl. rewrite Nat.eqb_refl. reflexivity.
Qed.

(** A vector of draws against a single row. *)
Lemma ufunc2_vector_row (op : Q -> Q -> Q) (a x : ndarray) (k m : nat) :
  shape a = [k] -> k = m -> shape x = [1; m] ->
  exists c,
    ufunc2 op a x = Ok c /\ shape c = [1; m] /\
    forall j, j < m -> get c [0; j] = op (get a [j]) (get x [0; j]).
Proof.
  intros Ha -> Hx.
  rewrite (ufunc2_ok op a x [1; m])
    by (rewrite Ha, Hx; apply broadcast_shapes_vector_row).
  eexists. split; [reflexivity|]. split; [reflexivity|].
  intros j Hj. rewrite get_build by (apply in_range_2; [lia | exact Hj]).
  rewrite Ha, Hx. unfold bindex.
  cbn [length skipn combine map Nat.sub fst snd Nat.eqb].
  rewrite !bindex_axis by assumption. reflexivity.
Qed.

Section SingleObservation.

Variables seatemp cleaning salinity ph omega : ndarray.
Hypothesis seatemp_length : covariate_length seatemp 1.
Hypothesis cleaning_length : covariate_length cleaning 1.
Hypothesis salinity_length : covariate_length salinity 1.
Hypothesis ph_length : covariate_length ph 1.
Hypothesis omega_length : covariate_length omega 1.
Hypothesis omega_nonzero : nonzero_entries omega.

Variable drawsfun : string -> result draws_t.
Variable tok : string.
Variables alpha beta_temp beta_salinity beta_omega beta_ph beta_clean
  sigma : ndarray.
Variable m : nat.
Hypothesis draws_ok :
  drawsfun tok = Ok (alpha, beta_temp, beta_salinity, beta_omega, beta_ph,
                     beta_clean, sigma).
Hypothesis draws_shapes :
  draws_shaped (alpha, beta_temp, beta_salinity, beta_omega, beta_ph,
                beta_clean, sigma) [m] [m].

(** With an intercept held as a vector of draws, a single observation and
    a non-zero [omega], the linear predictor is computed: one row, one
    entry per draw. *)
Lemma predict_mgca_mu_single :
  exists mu scale,
    predict_mgca_mu seatemp cleaning salinity ph omega tok drawsfun
    = Ok (mu, scale) /\
    shape mu = [1; m] /\
    forall j, j < m ->
      get mu [0; j] =
      if String.eqb tok "pachy"
      then (get alpha [j]
            + get beta_temp [j] * get (atleast_1d seatemp) [0%nat]
            + get beta_omega [j] * (get (atleast_1d omega) [0%nat]) ^ (-2)
            + get beta_salinity [j] * get (atleast_1d salinity) [0%nat]
            + (1 - get beta_clean [j] * get (atleast_1d cleaning) [0%nat]))%Q
      else (get alpha [j]
            + get beta_temp [j] * get (atleast_1d seatemp) [0%nat]
            + get beta_omega [j] * (get (atleast_1d omega) [0%nat]) ^ (-2)
            + get beta_salinity [j] * get (atleast_1d salinity) [0%nat]
            + (1 - get beta_clean [j] * get (atleast_1d cleaning) [0%nat])
            + get beta_ph [j] * get (atleast_1d ph) [0%nat])%Q.
Proof.
  destruct draws_shapes as (Sal & Ssg & Sbt & Sbs & Sbo & Sbp & Sbc).
  unfold predict_mgca_mu.
  rewrite (pow_neg2_defined _ (nonzero_entries_defined _ omega_nonzero)).
  cbn [bind]. rewrite draws_ok. cbn [bind].
  rewrite (newaxis1_ok _ _ _ cleaning_length).
  rewrite (newaxis1_ok _ _ _ seatemp_length).
  rewrite (newaxis1_ok _ _ _ salinity_length).
  rewrite (newaxis1_ok (atleast_1d (map_array _ omega)) 1 [])
    by (rewrite atleast_1d_map_shape; exact omega_length).
  rewrite (newaxis1_ok _ _ _ ph_length).
  cbn [bind]. unfold mul, sub, add, iadd.
  assert (Hn : size (atleast_1d seatemp) = 1).
  { unfold size. rewrite seatemp_length. reflexivity. }
  rewrite Hn.
  destruct (ufunc2_draws_column Qmult beta_clean
              (mk_ndarray [1; 1] (data (atleast_1d cleaning))) 1 m
              Sbc eq_refl) as (x & -> & Sx & Gx).
  cbn [bind].
  destruct (ufunc2_scalar Qminus 1 x 1 m Sx) as (ct & -> & Sct & Gct).
  cbn [bind].
  destruct (ufunc2_draws_column Qmult beta_temp
              (mk_ndarray [1; 1] (data (atleast_1d seatemp))) 1 m
              Sbt eq_refl) as (x1 & -> & Sx1 & Gx1).
  cbn [bind].
  assert (Sta : shape (transpose (tile alpha 1)) = [m * 1]).
  { unfold transpose, tile. rewrite Sal. reflexivity. }
  destruct (ufunc2_vector_row Qplus _ x1 (m * 1) m Sta ltac:(lia) Sx1)
    as (x2 & -> & Sx2 & Gx2).
  cbn [bind].
  destruct (ufunc2_draws_column Qmult beta_omega
              (mk_ndarray [1; 1]
                 (data (atleast_1d
                          (map_array (fun x => Qpower x (-2)) omega)))) 1 m
              Sbo eq_refl) as (x3 & -> & Sx3 & Gx3).
  cbn [bind].
  destruct (ufunc2_same_shape Qplus x2 x3 1 m Sx2 Sx3)
    as (x4 & -> & Sx4 & Gx4).
  cbn [bind].
  destruct (ufunc2_draws_column Qmult beta_salinity
              (mk_ndarray [1; 1] (data (atleast_1d salinity))) 1 m
              Sbs eq_refl) as (x5 & -> & Sx5 & Gx5).
  cbn [bind].
  destruct (ufunc2_same_shape Qplus x4 x5 1 m Sx4 Sx5)
    as (x6 & -> & Sx6 & Gx6).
  cbn [bind].
  destruct (ufunc2_same_shape Qplus x6 ct 1 m Sx6 Sct)
    as (x7 & -> & Sx7 & Gx7).
  cbn [bind].
  assert (Hbase : forall j, j < m ->
            get x7 [0; j] =
            (get alpha [j]
             + get beta_temp [j] * get (atleast_1d seatemp) [0%nat]
             + get beta_omega [j] * (get (atleast_1d omega) [0%nat]) ^ (-2)
             + get beta_salinity [j] * get (atleast_1d salinity) [0%nat]
             + (1 - get beta_clean [j]
                    * get (atleast_1d cleaning) [0%nat]))%Q).
  { intros j Hj.
    rewrite Gx7, Gx6, Gx4, Gx2, Gct, Gx, Gx1, Gx3, Gx5 by (lia || assumption).
    destruct (get_tile_one_vector alpha m j Sal Hj) as [_ ->].
    rewrite !get_newaxis1.
    rewrite !get_reshape
      by (try exact seatemp_length; try exact cleaning_length;
          try exact salinity_length;
          rewrite atleast_1d_map_shape; exact omega_length).
    rewrite get_atleast_1d_map by reflexivity.
    reflexivity. }
  destruct (String.eqb tok "pachy"); cbn [negb bind].
  - eexists. eexists. split; [reflexivity|]. split; assumption.
  - destruct (ufunc2_draws_column Qmult beta_ph
                (mk_ndarray [1; 1] (data (atleast_1d ph))) 1 m
                Sbp eq_refl) as (x8 & -> & Sx8 & Gx8).
    cbn [bind].
    destruct (ufunc2_inplace_same_shape Qplus x7 x8 1 m Sx7 Sx8)
      as (x9 & -> & Sx9 & Gx9).
    cbn [bind].
    eexists. eexists. split; [reflexivity|]. split; [exact Sx9|].
    intros j Hj.
    rewrite Gx9, Hbase, Gx8 by (lia || assumption).
    rewrite get_newaxis1, get_reshape by exact ph_length.
    reflexivity.
Qed.

End SingleObservation.

(** With an intercept held as a vector of two draws or more, a temperature
    series that does not hold exactly one observation ends in numpy's
    broadcasting error, whatever the lengths of the other covariates, once
    [omega ** -2] has been taken. *)
Lemma predict_mgca_mu_vector_fails
    (seatemp cleaning salinity ph omega : ndarray) (a : nat)
    (drawsfun : string -> result draws_t) (tok : string) (d : draws_t)
    (m : nat) :
  covariate_length seatemp a ->
  is_zero_scalar omega = false ->
  drawsfun tok = Ok d ->
  draws_shaped d [m] [m] ->
  a <> 1 -> 2 <= m ->
  predict_mgca_mu seatemp cleaning salinity ph omega tok drawsfun
  = Raise ValueError.
Proof.
  intros Hlen Hz Hd Hsh Ha Hm.
  destruct (predict_mgca_mu_cases seatemp cleaning salinity ph omega Hz
              drawsfun tok d m [m] Hd Hsh) as [E | [[mu scale] H]];
    [exact E|].
  exfalso. revert H.
  unfold predict_mgca_mu. rewrite (pow_neg2_defined _ Hz). cbn [bind].
  rewrite Hd.
  destruct d as [[[[[[al bt] bs] bo] bp] bc] sg].
  destruct Hsh as (Sal & Ssg & Sbt & Sbs & Sbo & Sbp & Sbc).
  cbn [bind].
  destruct (newaxis1_atleast_1d cleaning) as (cl & ->).
  rewrite (newaxis1_ok _ _ _ Hlen).
  cbn [bind].
  intros H.
  do 4 (let x := fresh "x" in
        let E := fresh "E" in
        apply bind_Ok_inv in H; destruct H as (x & E & H)).
  clear H.
  assert (Hn : size (atleast_1d seatemp) = a * 1).
  { unfold size. rewrite Hlen. reflexivity. }
  apply ufunc2_inv in E1, E2. cbn [shape] in E1.
  rewrite Sbt in E1.
  apply broadcast_shapes_12 in E1. destruct E1 as (za & E1 & A1).
  rewrite E1, Hn in E2.
  rewrite (shape_tile_transpose_1 _ _ _ Sal) in E2.
  apply broadcast_shapes_12 in E2. destruct E2 as (w & _ & A2).
  unfold axis_broadcast in A1, A2. nia.
Qed.

Section HierarchicalCalibration.

Variables P PS S f : matfile.
Variable tok : string.
Variables m k i : nat.
Variables bt bs bo bc bp alpha0 sigma0 : ndarray.
Hypothesis species_entry :
  dict_get (draws_map P PS S) (normalize tok) = Some (f, Some i).
Hypothesis slopes : has_slopes f m bt bs bo bc bp.
Hypothesis intercept : has_intercept f [m; k] alpha0 sigma0.
Hypothesis column : i < k.

Variables seatemp cleaning salinity ph omega : ndarray.

Lemma get_draws_species_content :
  exists alpha sigma,
    get_draws P PS S tok = Ok (alpha, bt, bs, bo, bp, bc, sigma) /\
    draws_shaped (alpha, bt, bs, bo, bp, bc, sigma) [m] [m] /\
    forall j, j < m -> get alpha [j] = get alpha0 [j; i].
Proof.
  rewrite get_draws_unfold, species_entry.
  destruct (copy_draws_species_content f m k i _ _ _ _ _ _ _
              slopes intercept column)
    as (alpha & sigma & E & Sa & Ss & G).
  destruct slopes as (_ & _ & _ & _ & _ & St & Sbs & So & Sc & Sp).
  exists alpha, sigma. split; [exact E|]. split; [cbn; auto 10|].
  intros j Hj. apply G, Hj.
Qed.

(** X17.  For a token that [draws_map] sends, after normalization, to column
    [i] of the hierarchical resource and covariates holding one observation
    each, with a non-zero [omega] (so that [omega ** -2] is defined), the
    linear predictor is computed for every draw [j] as
    [alpha[j, i] + betaT[j] * seatemp + betaO[j] * omega^-2
     + betaS[j] * salinity + (1 - betaC[j] * cleaning)],
    plus [betaP[j] * ph] unless the token is, as passed, 'pachy': for an
    alias of 'pachy' the pH term is added. *)
Theorem predict_mgca_species_single_observation :
  covariate_length seatemp 1 ->
  covariate_length cleaning 1 ->
  covariate_length salinity 1 ->
  covariate_length ph 1 ->
  covariate_length omega 1 ->
  nonzero_entries omega ->
  exists mu scale,
    predict_mgca_mu seatemp cleaning salinity ph omega tok
      (get_draws P PS S) = Ok (mu, scale) /\
    shape mu = [1; m] /\
    forall j, j < m ->
      get mu [0; j] =
      if String.eqb tok "pachy"
      then (get alpha0 [j; i]
            + get bt [j] * get (atleast_1d seatemp) [0%nat]
            + get bo [j] * (get (atleast_1d omega) [0%nat]) ^ (-2)
            + get bs [j] * get (atleast_1d salinity) [0%nat]
            + (1 - get bc [j] * get (atleast_1d cleaning) [0%nat]))%Q
      else (get alpha0 [j; i]
            + get bt [j] * get (atleast_1d seatemp) [0%nat]
            + get bo [j] * (get (atleast_1d omega) [0%nat]) ^ (-2)
            + get bs [j] * get (atleast_1d salinity) [0%nat]
            + (1 - get bc [j] * get (atleast_1d cleaning) [0%nat])
            + get bp [j] * get (atleast_1d ph) [0%nat])%Q.
Proof.
  intros Ht Hc Hs Hp Ho Hnz.
  destruct get_draws_species_content as (alpha & sigma & E & Sh & G).
  destruct (predict_mgca_mu_single seatemp cleaning salinity ph omega
              Ht Hc Hs Hp Ho Hnz (get_draws P PS S) tok
              alpha bt bs bo bp bc sigma m E Sh)
    as (mu & scale & Emu & Shmu & Gmu).
  exists mu, scale. split; [exact Emu|]. split; [exact Shmu|].
  intros j Hj. rewrite (Gmu j Hj), (G j Hj). reflexivity.
Qed.

(** X18.  On the hierarchical resource with two draws or more,
    [predict_mgca] accepts a temperature series of exactly one observation
    only: for a series of any other length, the empty series included, and
    whatever the lengths of the other covariates, it returns no ensemble.
    It raises numpy's [ValueError]; only when [omega] is the Python scalar
    zero does the [ZeroDivisionError] of [omega ** -2] come first. *)
Theorem predict_mgca_species_needs_one_observation (a : nat)
    (rng : Type) (normal : rng -> Q -> Q -> Q * rng) (exp : Q -> Q)
    (g : rng) :
  covariate_length seatemp a ->
  a <> 1 ->
  2 <= m ->
  predict_mgca rng normal exp seatemp cleaning salinity ph omega tok
    (get_draws P PS S) g
  = Raise (if is_zero_scalar omega then ZeroDivisionError else ValueError).
Proof.
  intros Hlen Ha Hm.
  apply predict_mgca_raise.
  destruct (is_zero_scalar omega) eqn:Hz;
    [apply predict_mgca_mu_zero_scalar; exact Hz|].
  destruct get_draws_species_content as (alpha & sigma & E & Sh & _).
  exact (predict_mgca_mu_vector_fails seatemp cleaning salinity ph omega a
           (get_draws P PS S) tok _ m Hlen Hz E Sh Ha Hm).
Qed.

End HierarchicalCalibration.

Lemma predict_mgca_species_single_observation_witness :
  exists mu scale,
    predict_mgca_mu (scalar 20) (scalar 1) (scalar 35) (scalar 8) (scalar 5)
      "N. incompta" (get_draws pooled2 pooled2 species2) = Ok (mu, scale) /\
    shape mu = [1; 2] /\
    forall j, j < 2 ->
      get mu [0; j] =
      if String.eqb "N. incompta" "pachy"
      then (get (array2 4 [[1; 2; 3; 4]; [5; 6; 7; 8]]) [j; 3%nat]
            + get (array1 [1 # 10; 2 # 10]) [j]
              * get (atleast_1d (scalar 20)) [0%nat]
            + get (array1 [3; 4]) [j]
              * (get (atleast_1d (scalar 5)) [0%nat]) ^ (-2)
            + get (array1 [1 # 100; 2 # 100]) [j]
              * get (atleast_1d (scalar 35)) [0%nat]
            + (1 - get (array1 [1 # 2; 1 # 4]) [j]
                   * get (atleast_1d (scalar 1)) [0%nat]))%Q
      else (get (array2 4 [[1; 2; 3; 4]; [5; 6; 7; 8]]) [j; 3%nat]
            + get (array1 [1 # 10; 2 # 10]) [j]
              * get (atleast_1d (scalar 20)) [0%nat]
            + get (array1 [3; 4]) [j]
              * (get (atleast_1d (scalar 5)) [0%nat]) ^ (-2)
            + get (array1 [1 # 100; 2 # 100]) [j]
              * get (atleast_1d (scalar 35)) [0%nat]
            + (1 - get (array1 [1 # 2; 1 # 4]) [j]
                   * get (atleast_1d (scalar 1)) [0%nat])
            + get (array1 [5; 6]) [j]
              * get (atleast_1d (scalar 8)) [0%nat])%Q.
Proof.
  apply (predict_mgca_species_single_observation pooled2 pooled2 species2
           species2 "N. incompta" 2 4 3
           (array1 [1 # 10; 2 # 10]) (array1 [1 # 100; 2 # 100])
           (array1 [3; 4]) (array1 [1 # 2; 1 # 4]) (array1 [5; 6])
           (array2 4 [[1; 2; 3; 4]; [5; 6; 7; 8]])
           (array2 4 [[1; 2; 3; 4]; [5; 6; 7; 8]]))%Q.
  - reflexivity.
  - repeat split; reflexivity.
  - repeat split; reflexivity.
  - lia.
  - reflexivity.
  - reflexivity.
  - reflexivity.
  - reflexivity.
  - reflexivity.
  - apply nonzero_entries_check. reflexivity.
Defined.

Lemma predict_mgca_species_needs_one_observation_witness :
  predict_mgca unit (fun g loc _ => (loc, g)) (fun x => x)
    (array1 []) cleaning2 salinity2 ph2 omega2 "sacculifer"
    (get_draws pooled2 pooled2 species2) tt
  = Raise ValueError.
Proof.
  change ValueError
    with (if is_zero_scalar omega2 then ZeroDivisionError else ValueError).
  apply (predict_mgca_species_needs_one_observation pooled2 pooled2 species2)
    with (f := species2) (m := 2) (k := 4) (i := 2) (a := 0)
         (bt := array1 [1 # 10; 2 # 10]%Q)
         (bs := array1 [1 # 100; 2 # 100]%Q)
         (bo := array1 [3; 4]%Q) (bc := array1 [1 # 2; 1 # 4]%Q)
         (bp := array1 [5; 6]%Q)
         (alpha0 := array2 4 [[1; 2; 3; 4]; [5; 6; 7; 8]]%Q)
         (sigma0 := array2 4 [[1; 2; 3; 4]; [5; 6; 7; 8]]%Q).
  - reflexivity.
  - repeat split; reflexivity.
  - repeat split; reflexivity.
  - lia.
  - reflexivity.
  - lia.
  - lia.
Defined.

(* ================================================================= *)
(** ** Failure classes *)

Lemma take_row_cases (a : ndarray) (t : Z) :
  (exists x, take_row a t = Ok x) \/ take_row a t = Raise IndexError.
Proof.
  unfold take_row. destruct (shape a) as [|n [|c r]]; eauto.
  destruct (normalize_index n t); eauto.
Qed.

(** X19.  [sw_correction] fails in three ways only, whatever the resource,
    the prediction and the age: a [KeyError], exactly when the resource has
    no curve under 'mg_smooth'; an [IndexError] from a row lookup; a
    [ValueError] from broadcasting. *)
Theorem sw_correction_failures (MGSW_SMOOTH : matfile)
    (p : MgCaPrediction) (age : Q) (f : option (unit -> result ndarray)) :
  (raises (sw_correction MGSW_SMOOTH p age f) "KeyError" <->
   dict_get MGSW_SMOOTH "mg_smooth" = None) /\
  (forall e, sw_correction MGSW_SMOOTH p age f = Raise e ->
     e = KeyError "mg_smooth" \/ e = IndexError \/ e = ValueError).
Proof.
  unfold sw_correction, get_mgsw_smooth, getitem.
  destruct (dict_get MGSW_SMOOTH "mg_smooth") as [curve|]; cbn [bind].
  - assert (H : forall e,
               (row_t <- take_row curve (int (age * 2)) ;;
                row_0 <- take_row curve 0 ;;
                mgsw <- divide row_t row_0 ;;
                ens <- mul (ensemble p) mgsw ;;
                Ok (mk_Prediction ens (spp p))) = Raise e ->
               e = IndexError \/ e = ValueError).
    { intros e.
      destruct (take_row_cases curve (int (age * 2))) as [[rt ->] | ->];
        cbn [bind]; [|intros H; injection H as <-; auto].
      destruct (take_row_cases curve 0) as [[r0 ->] | ->];
        cbn [bind]; [|intros H; injection H as <-; auto].
      unfold divide, mul.
      destruct (ufunc2_cases Qdiv rt r0) as [-> | [mgsw ->]];
        cbn [bind]; [intros H; injection H as <-; auto|].
      destruct (ufunc2_cases Qmult (ensemble p) mgsw) as [-> | [ens ->]];
        cbn [bind]; [intros H; injection H as <-; auto | discriminate]. }
    split.
    + split; [|discriminate].
      intros [e [He Hc]]. destruct (H e He) as [-> | ->]; discriminate Hc.
    + intros e He. destruct (H e He); auto.
  - split.
    + split; [reflexivity|]. intros _. apply raises_Raise. reflexivity.
    + intros e He. injection He as <-. auto.
Qed.

Lemma random_normal_cases (rng : Type) (normal : rng -> Q -> Q -> Q * rng)
    (loc scale : ndarray) (g : rng) :
  random_normal rng normal loc scale g = Raise ValueError \/
  exists r, random_normal rng normal loc scale g = Ok r.
Proof.
  unfold random_normal.
  destruct (existsb _ (data scale)); [auto|].
  destruct (broadcast_shapes (shape loc) (shape scale)); [|auto].
  destruct (draw_all rng normal _ g). eauto.
Qed.

(** X20.  With a draws function that returns a draw set for the token,
    [predict_mgca] fails in two ways only, whatever the shapes of the draws
    and of the covariates: with the [ZeroDivisionError] of [omega ** -2],
    exactly when [omega] is the Python scalar zero, and with numpy's
    [ValueError]; otherwise it returns. *)
Theorem predict_mgca_failure_after_draws (rng : Type)
    (normal : rng -> Q -> Q -> Q * rng) (exp : Q -> Q)
    (seatemp cleaning salinity ph omega : ndarray) (tok : string)
    (drawsfun : string -> result draws_t) (d : draws_t) (g : rng) :
  drawsfun tok = Ok d ->
  predict_mgca rng normal exp seatemp cleaning salinity ph omega tok
    drawsfun g
  = Raise (if is_zero_scalar omega then ZeroDivisionError else ValueError) \/
  (is_zero_scalar omega = false /\
   exists r,
     predict_mgca rng normal exp seatemp cleaning salinity ph omega tok
       drawsfun g = Ok r).
Proof.
  intros Hd.
  destruct (is_zero_scalar omega) eqn:Hz.
  { left. apply predict_mgca_raise, predict_mgca_mu_zero_scalar, Hz. }
  unfold predict_mgca.
  assert (Hmu :
    predict_mgca_mu seatemp cleaning salinity ph omega tok drawsfun
    = Raise ValueError \/
    exists r, predict_mgca_mu seatemp cleaning salinity ph omega tok drawsfun
              = Ok r).
  { unfold predict_mgca_mu. rewrite (pow_neg2_defined _ Hz). cbn [bind].
    rewrite Hd.
    destruct d as [[[[[[al bt] bs] bo] bp] bc] sg].
    cbn [bind].
    destruct (newaxis1_atleast_1d cleaning) as (cl & ->).
    destruct (newaxis1_atleast_1d seatemp) as (st & ->).
    destruct (newaxis1_atleast_1d salinity) as (sl & ->).
    destruct (newaxis1_atleast_1d
                (map_array (fun x => Qpower x (-2)) omega)) as (om & ->).
    destruct (newaxis1_atleast_1d ph) as (ph' & ->).
    cbn [bind]. unfold mul, add, sub, iadd.
    repeat match goal with
           | |- context [bind (ufunc2 ?op ?x ?y) _] =>
               destruct (ufunc2_cases op x y) as [-> | [? ->]];
               cbn [bind]; [left; reflexivity|]
           end.
    destruct (String.eqb tok "pachy"); cbn [negb bind]; [eauto|].
    repeat match goal with
           | |- context [bind (ufunc2 ?op ?x ?y) _] =>
               destruct (ufunc2_cases op x y) as [-> | [? ->]];
               cbn [bind]; [left; reflexivity|]
           end.
    match goal with
    | |- context [bind (ufunc2_inplace ?op ?x ?y) _] =>
        destruct (ufunc2_inplace_cases op x y) as [-> | [? ->]];
        cbn [bind]; eauto
    end. }
  destruct Hmu as [-> | [[mu scale] ->]]; cbn [bind]; [auto|].
  destruct (random_normal_cases rng normal mu scale g)
    as [-> | [[sample g'] ->]]; cbn [bind]; eauto.
Qed.

Lemma predict_mgca_failure_after_draws_witness :
  predict_mgca unit (fun g loc _ => (loc, g)) (fun x => x)
    seatemp2 cleaning2 salinity2 ph3 omega2 "all"
    (get_draws pooled2 pooled2 species2) tt
  = Raise (if is_zero_scalar omega2 then ZeroDivisionError
           else ValueError) \/
  (is_zero_scalar omega2 = false /\
   exists r,
     predict_mgca unit (fun g loc _ => (loc, g)) (fun x => x)
       seatemp2 cleaning2 salinity2 ph3 omega2 "all"
       (get_draws pooled2 pooled2 species2) tt = Ok r).
Proof.
  apply (predict_mgca_failure_after_draws unit (fun g loc _ => (loc, g))
           (fun x => x) seatemp2 cleaning2 salinity2 ph3 omega2 "all"
           (get_draws pooled2 pooled2 species2)
           (mk_ndarray [2; 1] [7; 8]%Q, array1 [1 # 10; 2 # 10]%Q,
            array1 [1 # 100; 2 # 100]%Q, array1 [3; 4]%Q, array1 [5; 6]%Q,
            array1 [1 # 2; 1 # 4]%Q, mk_ndarray [2; 1] [1; 2]%Q) tt).
  reflexivity.
Defined.

(* ================================================================= *)
(** ** Percentiles: the interpolation rules against each other *)

Lemma around_between (v : Q) :
  (Qfloor v <= around v <= Qceiling v)%Z.
Proof.
  assert (Hf := Qfloor_le v). assert (Hc := Qle_ceiling v).
  assert (Hfc : (Qfloor v <= Qceiling v)%Z).
  { rewrite Zle_Qle. eapply Qle_trans; eassumption. }
  unfold around.
  destruct (Qcompare_spec (v - inject_Z (Qfloor v)) (1 # 2)) as [E | L | G].
  - assert (Hlt : (Qfloor v < Qceiling v)%Z) by (rewrite Zlt_Qlt; lra).
    destruct (Z.even (Qfloor v)); lia.
  - lia.
  - assert (Hlt : (Qfloor v < Qceiling v)%Z) by (rewrite Zlt_Qlt; lra).
    lia.
Qed.

(** The five rules on one list: "lower" and "higher" bracket the others. *)
Lemma percentile1_bracket (l : list Q) (q : Q) (rule : string) :
  l <> [] -> (0 <= q)%Q -> (q <= 100)%Q ->
  In rule interpolations ->
  (percentile1 "lower" l q <= percentile1 rule l q)%Q /\
  (percentile1 rule l q <= percentile1 "higher" l q)%Q.
Proof.
  intros Hne H0 H100 Hrule.
  assert (Hlen : 0 < length l) by (destruct l; [contradiction | simpl; lia]).
  unfold percentile1.
  set (N := Z.of_nat (length l - 1)).
  set (v := (q / 100 * inject_Z N)%Q).
  destruct (virtual_index_bounds q N ltac:(subst N; lia) H0 H100)
    as [Hv0 HvN].
  fold v in Hv0, HvN.
  assert (Hf0 : (0 <= Qfloor v)%Z).
  { change 0%Z with (Qfloor 0). apply Qfloor_resp_le, Hv0. }
  assert (HcN : (Qceiling v <= N)%Z).
  { rewrite <- (Qceiling_Z N). apply Qceiling_resp_le, HvN. }
  destruct (around_between v) as [Hfa Hac].
  assert (Hs := sort_sorted l). assert (HL := length_sort l).
  assert (Hlohi : forall a b : Z, (0 <= a)%Z -> (a <= b)%Z -> (b <= N)%Z ->
            (nth (Z.to_nat a) (sort l) 0 <= nth (Z.to_nat b) (sort l) 0)%Q).
  { intros a b Ha Hab HbN. apply sorted_nth_le; [exact Hs | lia |].
    rewrite HL. subst N. lia. }
  assert (Hfc : (Qfloor v <= Qceiling v)%Z) by lia.
  assert (Hlh := Hlohi _ _ Hf0 Hfc HcN).
  assert (Ht0 : (0 <= v - inject_Z (Qfloor v))%Q).
  { assert (H := Qfloor_le v). lra. }
  assert (Ht1 : (v - inject_Z (Qfloor v) <= 1)%Q).
  { assert (H := Qlt_floor v). rewrite inject_Z_plus in H.
    change (inject_Z 1) with 1%Q in H. lra. }
  simpl in Hrule.
  destruct Hrule as [<- | [<- | [<- | [<- | [<- | []]]]]];
    simpl String.eqb; cbv iota.
  - set (lo := nth (Z.to_nat (Qfloor v)) (sort l) 0%Q) in *.
    set (hi := nth (Z.to_nat (Qceiling v)) (sort l) 0%Q) in *.
    set (t := (v - inject_Z (Qfloor v))%Q) in *.
    assert (Hd : (0 <= hi - lo)%Q) by lra.
    assert (P0 : (0 <= (hi - lo) * t)%Q)
      by (apply Qmult_le_0_compat; assumption).
    assert (P1 : ((hi - lo) * t <= (hi - lo) * 1)%Q).
    { rewrite (Qmult_comm (hi - lo) t), (Qmult_comm (hi - lo) 1).
      apply Qmult_le_compat_r; assumption. }
    split; lra.
  - split; [apply Qle_refl | exact Hlh].
  - split; [exact Hlh | apply Qle_refl].
  - set (lo := nth (Z.to_nat (Qfloor v)) (sort l) 0%Q) in *.
    set (hi := nth (Z.to_nat (Qceiling v)) (sort l) 0%Q) in *.
    assert (E : ((lo + hi) / 2 == (lo + hi) * (1 # 2))%Q) by field.
    rewrite E. split; lra.
  - split; apply Hlohi; lia.
Qed.

(** X21.  Whatever the interpolation rule passed to [percentile], among
    numpy's five, the value reported for an observation and a percentile in
    [0, 100] lies between the values that the rules "lower" and "higher"
    report for them. *)
Theorem percentile_rules_bracketed (p : Prediction) (n m : nat)
    (qs : list Q) (rule : string) :
  shape (ensemble p) = [n; m] ->
  0 < m ->
  Forall (fun q => (0 <= q)%Q /\ (q <= 100)%Q) qs ->
  In rule interpolations ->
  exists lower perc higher,
    percentile p (Some (QSeq qs)) "lower" = Ok lower /\
    percentile p (Some (QSeq qs)) rule = Ok perc /\
    percentile p (Some (QSeq qs)) "higher" = Ok higher /\
    forall i k, i < n -> k < length qs ->
      (get lower [i; k] <= get perc [i; k])%Q /\
      (get perc [i; k] <= get higher [i; k])%Q.
Proof.
  intros Hp Hm Hqs Hrule.
  assert (Hlo : In "lower" interpolations) by (simpl; tauto).
  assert (Hhi : In "higher" interpolations) by (simpl; tauto).
  destruct (percentile_entries p n m qs "lower" Hp Hm Hqs Hlo)
    as (lower & El & _ & Gl).
  destruct (percentile_entries p n m qs rule Hp Hm Hqs Hrule)
    as (perc & Ep & _ & Gp).
  destruct (percentile_entries p n m qs "higher" Hp Hm Hqs Hhi)
    as (higher & Eh & _ & Gh).
  exists lower, perc, higher.
  split; [exact El|]. split; [exact Ep|]. split; [exact Eh|].
  intros i k Hi Hk.
  rewrite (Gl i k Hi Hk), (Gp i k Hi Hk), (Gh i k Hi Hk).
  rewrite Forall_forall in Hqs.
  destruct (Hqs _ (nth_In qs 0%Q Hk)) as [H0 H100].
  apply percentile1_bracket; try assumption.
  apply (row_not_nil _ n m); assumption.
Qed.

Lemma percentile_rules_bracketed_witness :
  exists lower perc higher,
    percentile ensemble34 (Some (QSeq [5; 50]%Q)) "lower" = Ok lower /\
    percentile ensemble34 (Some (QSeq [5; 50]%Q)) "linear" = Ok perc /\
    percentile ensemble34 (Some (QSeq [5; 50]%Q)) "higher" = Ok higher /\
    forall i k, i < 3 -> k < 2 ->
      (get lower [i; k] <= get perc [i; k])%Q /\
      (get perc [i; k] <= get higher [i; k])%Q.
Proof.
  apply (percentile_rules_bracketed ensemble34 3 4 [5; 50]%Q "linear").
  - reflexivity.
  - lia.
  - repeat constructor; discriminate.
  - simpl. tauto.
Defined.

(* ================================================================= *)
(** ** From prediction to summary *)

Lemma length_draw_all (rng : Type) (normal : rng -> Q -> Q -> Q * rng)
    (ps : list (Q * Q)) (g : rng) :
  length (fst (draw_all rng normal ps g)) = length ps.
Proof.
  revert g. induction ps as [|[loc scale] ps IH]; intros g; simpl;
    [reflexivity|].
  destruct (normal g loc scale) as [x g1]. specialize (IH g1).
  destruct (draw_all rng normal ps g1) as [xs g2]. simpl in *.
  rewrite IH. reflexivity.
Qed.

(** The ensemble of a returned prediction: exponentials, one per index of
    its shape. *)
Lemma predict_mgca_Ok_inv (rng : Type) (normal : rng -> Q -> Q -> Q * rng)
    (exp : Q -> Q) (seatemp cleaning salinity ph omega : ndarray)
    (tok : string) (drawsfun : string -> result draws_t) (g g' : rng)
    (out : MgCaPrediction) :
  predict_mgca rng normal exp seatemp cleaning salinity ph omega tok
    drawsfun g = Ok (out, g') ->
  exists xs,
    data (ensemble out) = map exp xs /\
    length xs = prod (shape (ensemble out)).
Proof.
  intros H. unfold predict_mgca in H.
  apply bind_Ok_inv in H. destruct H as ([mu scale] & _ & H).
  apply bind_Ok_inv in H. destruct H as ([sample g1] & Hs & H).
  injection H as <- _. cbn [ensemble map_array data shape].
  exists (data sample). split; [reflexivity|].
  unfold random_normal in Hs.
  destruct (existsb _ (data scale)); [discriminate|].
  destruct (broadcast_shapes (shape mu) (shape scale)) as [sh|];
    [|discriminate].
  match type of Hs with
  | (let '(_, _) := draw_all _ _ ?ps _ in _) = _ =>
      assert (Hlen := length_draw_all rng normal ps g);
      destruct (draw_all rng normal ps g) as [xs g2]
  end.
  injection Hs as <- _. cbn [data shape]. simpl in Hlen.
  rewrite Hlen, length_map. apply length_all_indices.
Qed.

(** X22.  The summary of a prediction is positive: when [predict_mgca]
    returns an ensemble of [n] observations by [m >= 1] draws and [exp] is
    strictly positive, every value that [percentile] reports under
    "nearest", for percentiles in [0, 100], is strictly positive. *)
Theorem predict_mgca_percentile_positive (rng : Type)
    (normal : rng -> Q -> Q -> Q * rng) (exp : Q -> Q)
    (seatemp cleaning salinity ph omega : ndarray) (tok : string)
    (drawsfun : string -> result draws_t) (g g' : rng)
    (out : MgCaPrediction) (n m : nat) (qs : list Q) :
  (forall x, (0 < exp x)%Q) ->
  predict_mgca rng normal exp seatemp cleaning salinity ph omega tok
    drawsfun g = Ok (out, g') ->
  shape (ensemble out) = [n; m] ->
  0 < m ->
  Forall (fun q => (0 <= q)%Q /\ (q <= 100)%Q) qs ->
  exists perc,
    percentile out (Some (QSeq qs)) "nearest" = Ok perc /\
    shape perc = [n; length qs] /\
    forall i k, i < n -> k < length qs -> (0 < get perc [i; k])%Q.
Proof.
  intros Hexp Hout Hsh Hm Hqs.
  destruct (predict_mgca_Ok_inv _ _ _ _ _ _ _ _ _ _ _ _ _ Hout)
    as (xs & Hdata & Hlen).
  assert (Hnear : In "nearest" interpolations) by (simpl; tauto).
  destruct (percentile_entries out n m qs "nearest" Hsh Hm Hqs Hnear)
    as (perc & E & Shp & G).
  exists perc. split; [exact E|]. split; [exact Shp|].
  intros i k Hi Hk. rewrite (G i k Hi Hk).
  rewrite Forall_forall in Hqs.
  destruct (Hqs _ (nth_In qs 0%Q Hk)) as [H0 H100].
  assert (Hin := percentile1_nearest_In (row (ensemble out) i) _
                   (row_not_nil _ n m i Hsh Hm) H0 H100).
  unfold row in Hin at 2. rewrite Hsh in Hin. simpl nth in Hin.
  apply in_map_iff in Hin. destruct Hin as (j & <- & Hj).
  apply in_seq in Hj.
  unfold get. rewrite Hdata.
  assert (Hr : ravel (shape (ensemble out)) [i; j] < length xs).
  { rewrite Hlen. apply ravel_lt. rewrite Hsh. apply in_range_2; lia. }
  rewrite (nth_indep _ 0%Q (exp 0%Q)) by (rewrite length_map; exact Hr).
  rewrite map_nth. apply Hexp.
Qed.

Lemma predict_mgca_percentile_positive_witness :
  exists perc,
    percentile (mk_Prediction (mk_ndarray [1; 2] [1; 1]%Q) "G. ruber")
      (Some (QSeq [50%Q])) "nearest" = Ok perc /\
    shape perc = [1; 1] /\
    forall i k, i < 1 -> k < 1 -> (0 < get perc [i; k])%Q.
Proof.
  apply (predict_mgca_percentile_positive unit (fun g loc _ => (loc, g))
           (fun _ => 1%Q)
           (scalar 20) (scalar 1) (scalar 35) (scalar 8) (scalar 5)
           "G. ruber" (get_draws pooled2 pooled2 species2) tt tt
           (mk_Prediction (mk_ndarray [1; 2] [1; 1]%Q) "G. ruber") 1 2
           [50%Q]).
  - intros x. reflexivity.
  - vm_compute. reflexivity.
  - reflexivity.
  - lia.
  - repeat constructor; discriminate.
Defined.
